(** * Kamband dungeon core: the level writer, the generator passes, the cover
      engine and the patrol state machine, embedded from the C sources.

    Integers of the C code are modelled as [Z]; the two-dimensional arrays
    [cave_feat], [cave_info], [cave_cover] are total functions of the two
    coordinates, updated pointwise.  Loops with a fixed range are folds
    over that range; loops that may not end take fuel and return an
    option. *)

From Stdlib Require Import ZArith List Bool Lia ZifyBool.
Import ListNotations.
Local Open Scope Z_scope.

(** ** Ranges and pointwise update, shared by every module *)

(** The integers [lo, lo+1, ..., lo+n-1], the index set of a C [for] loop. *)
Fixpoint zrange (lo : Z) (n : nat) : list Z :=
  match n with
  | O => []
  | S k => lo :: zrange (lo + 1) k
  end.

(** [for (i = lo; i < hi; i++)] *)
Definition zupto (lo hi : Z) : list Z := zrange lo (Z.to_nat (hi - lo)).

(** The sum of [f i] over the indices of a loop. *)
Definition zsum (f : Z -> Z) (l : list Z) : Z :=
  fold_right (fun i acc => f i + acc) 0 l.

(** A two-dimensional array indexed [a[y][x]]. *)
Definition grid (A : Type) : Type := Z -> Z -> A.

(** [a[y][x] = v] *)
Definition gset {A : Type} (g : grid A) (y x : Z) (v : A) : grid A :=
  fun y' x' => if (y' =? y) && (x' =? x) then v else g y' x'.

(** ** repro_rle.c: the run-length writer of the level file *)

Module RLE.

Definition DUNGEON_HGT : Z := 10.
Definition DUNGEON_WID : Z := 10.
Definition MAX_UCHAR : Z := 255.

(** A [byte] variable: arithmetic on it wraps at 256. *)
Definition to_byte (v : Z) : Z := v mod 256.

(** The output buffer; [buf_pos] is the length of the list. *)
Definition buffer : Type := list Z.

(** [wr_byte]: append unless the 1024-byte buffer is full. *)
Definition wr_byte (v : Z) (b : buffer) : buffer :=
  if Z.of_nat (length b) <? 1024 then b ++ [v] else b.

(** The locals of [wr_dungeon_sim] together with the buffer. *)
Record wr_state : Type := mk_wr {
  buf : buffer;
  count : Z;
  prev_char : Z
}.

(** The flush that the writer performs on a change of value and, with the
    fix, once more after the scan. *)
Definition flush (s : wr_state) : buffer :=
  if count s =? 0 then buf s
  else wr_byte (prev_char s) (wr_byte (count s) (buf s)).

(** The body of the inner loop for one cell holding [tmp8u]. *)
Definition wr_cell (s : wr_state) (tmp8u : Z) : wr_state :=
  if negb (tmp8u =? prev_char s) || (count s =? MAX_UCHAR)
  then {| buf := flush s; count := 1; prev_char := tmp8u |}
  else {| buf := buf s; count := to_byte (count s + 1);
          prev_char := prev_char s |}.

(** The cells in the order of the two nested loops (row-major). *)
Definition scan_order (cave_info : grid Z) : list Z :=
  flat_map (fun y => map (cave_info y) (zupto 0 DUNGEON_WID))
           (zupto 0 DUNGEON_HGT).

(** The two nested loops, written as the loops are. *)
Definition wr_scan (cave_info : grid Z) (s0 : wr_state) : wr_state :=
  fold_left
    (fun s y => fold_left (fun s' x => wr_cell s' (cave_info y x))
                          (zupto 0 DUNGEON_WID) s)
    (zupto 0 DUNGEON_HGT) s0.

(** [wr_dungeon_sim(fix)]: reset the buffer, scan, and flush the pending
    run only when [fix] is non-zero.  The result is the buffer. *)
Definition wr_dungeon_sim (fix_ : Z) (cave_info : grid Z) : buffer :=
  let s := wr_scan cave_info {| buf := []; count := 0; prev_char := 0 |} in
  if fix_ =? 0 then buf s else flush s.

End RLE.

(** ** defines.h and tables.c: constants of the engine

    The header that gives the feature codes, the cover tiers, the grid
    size and the direction tables is not among the sources, so the codes
    are the fields of a class and every statement below holds for every
    table of codes that satisfies the hypotheses it names. *)

Class Defines : Type := {
  DUNGEON_HGT : Z;
  DUNGEON_WID : Z;
  MAX_DEPTH : Z;
  (* terrain features *)
  FEAT_NONE : Z;
  FEAT_FLOOR : Z;
  FEAT_LESS : Z;
  FEAT_MORE : Z;
  FEAT_SHAFT : Z;
  FEAT_DREAM_EXIT : Z;
  FEAT_UNSEEN : Z;
  FEAT_OPEN : Z;
  FEAT_BROKEN : Z;
  FEAT_DOOR_HEAD : Z;
  FEAT_SECRET : Z;
  FEAT_RUBBLE : Z;
  FEAT_WALL_EXTRA : Z;
  FEAT_WALL_INNER : Z;
  FEAT_WALL_OUTER : Z;
  FEAT_WALL_SOLID : Z;
  FEAT_PERM_INNER : Z;
  FEAT_PERM_OUTER : Z;
  FEAT_PERM_SOLID : Z;
  FEAT_TREES : Z;
  FEAT_FALLEN_TREE : Z;
  FEAT_TALL_GRASS : Z;
  FEAT_REEDS : Z;
  FEAT_SHRUB : Z;
  FEAT_FOG : Z;
  FEAT_FOG_DENSE : Z;
  FEAT_SMOKE : Z;
  FEAT_CHAOS_FOG : Z;
  FEAT_BOULDER : Z;
  FEAT_CRATE : Z;
  FEAT_BARREL : Z;
  FEAT_STONE_PILLAR : Z;
  (* cave_info flags *)
  CAVE_ROOM : Z;
  (* p_ptr->inside_special *)
  SPECIAL_WILD : Z;
  SPECIAL_QUEST : Z;
  SPECIAL_DREAM : Z;
  (* cover tiers and tuning *)
  COVER_NONE : Z;
  COVER_LIGHT : Z;
  COVER_MEDIUM : Z;
  COVER_HEAVY : Z;
  COVER_TOTAL : Z;
  COVER_ABSORB_LIGHT : Z;
  COVER_ABSORB_MEDIUM : Z;
  COVER_ABSORB_HEAVY : Z;
  COVER_ABSORB_TOTAL : Z;
  COVER_DURABILITY_BOULDER : Z;
  COVER_DURABILITY_WALL : Z;
  COVER_DURABILITY_TREE : Z;
  COVER_STEALTH_LIGHT : Z;
  COVER_STEALTH_MEDIUM : Z;
  COVER_STEALTH_HEAVY : Z;
  (* race flags, patrol tuning *)
  RF1_FRIENDS : Z;
  RF2_SMART : Z;
  GUARD_CHASE_TIMEOUT : Z;
  GUARD_ALERT_RADIUS : Z;
  PATROL_RADIUS : Z;
  PATROL_REST_TURNS : Z;
  (* tables.c: the eight directions, indexed 0..7 *)
  ddy_ddd : Z -> Z;
  ddx_ddd : Z -> Z;
  (* cave.c *)
  distance : Z -> Z -> Z -> Z -> Z
}.

(** ** z-rand.c: the random number generator *)

(** Modelled from the spec: z-rand.c is not among the sources.  The spec
    describes one stream with two modes: [quick] draws from the
    caller-provided [Rand_value], [stable] continues a long-lived stream.
    The two generators themselves are fields of the class. *)
Class ZRand : Type := {
  stable : Type;
  Rand_div_stable : stable -> Z -> Z * stable;
  Rand_div_quick : Z -> Z -> Z * Z
}.

Record rand_state `{ZRand} : Type := mk_rand {
  Rand_quick : bool;
  Rand_value : Z;
  Rand_state : stable
}.

Section Level.
Context {D : Defines} {R : ZRand}.

(** Modelled from the spec: [Rand_div] dispatches on the mode flag. *)
Definition Rand_div (m : Z) (s : rand_state) : Z * rand_state :=
  if Rand_quick s then
    let (r, v) := Rand_div_quick (Rand_value s) m in
    (r, {| Rand_quick := true; Rand_value := v;
           Rand_state := Rand_state s |})
  else
    let (r, t) := Rand_div_stable (Rand_state s) m in
    (r, {| Rand_quick := false; Rand_value := Rand_value s;
           Rand_state := t |}).

(** The record attached to a grid that carries destructible cover. *)
Record cover_data : Type := mk_cover {
  durability : Z;
  max_durability : Z;
  cover_type : Z;
  terrain_feat : Z
}.

(** The ambient state of a level: the cave arrays, the generator state and
    the two fields of [p_ptr] that the generator reads. *)
Record level : Type := mk_level {
  cave_feat : grid Z;
  cave_info : grid Z;
  cave_o_idx : grid Z;
  cave_m_idx : grid Z;
  cave_cover : grid (option cover_data);
  rand : rand_state;
  depth : Z;
  inside_special : Z
}.

Definition with_feat (L : level) (f : grid Z) : level :=
  {| cave_feat := f; cave_info := cave_info L; cave_o_idx := cave_o_idx L;
     cave_m_idx := cave_m_idx L; cave_cover := cave_cover L;
     rand := rand L; depth := depth L;
     inside_special := inside_special L |}.

Definition with_cover (L : level) (c : grid (option cover_data)) : level :=
  {| cave_feat := cave_feat L; cave_info := cave_info L;
     cave_o_idx := cave_o_idx L; cave_m_idx := cave_m_idx L;
     cave_cover := c; rand := rand L; depth := depth L;
     inside_special := inside_special L |}.

Definition with_rand (L : level) (r : rand_state) : level :=
  {| cave_feat := cave_feat L; cave_info := cave_info L;
     cave_o_idx := cave_o_idx L; cave_m_idx := cave_m_idx L;
     cave_cover := cave_cover L; rand := r; depth := depth L;
     inside_special := inside_special L |}.

(** [cave_feat[y][x] = f] *)
Definition put_feat (L : level) (y x f : Z) : level :=
  with_feat L (gset (cave_feat L) y x f).

(** Modelled from the spec: the macros of z-rand.h.  [rand_int(M)] is a
    draw in [0, M); [randint], [rand_range] and [rand_spread] shift it. *)
Definition rand_int (m : Z) (L : level) : Z * level :=
  if m <=? 1 then (0, L)
  else let (r, s) := Rand_div m (rand L) in (r, with_rand L s).

Definition randint (m : Z) (L : level) : Z * level :=
  let (r, L') := rand_int m L in (r + 1, L').

Definition rand_range (a b : Z) (L : level) : Z * level :=
  let (r, L') := rand_int (1 + b - a) L in (a + r, L').

Definition rand_spread (a d : Z) (L : level) : Z * level :=
  let (r, L') := rand_int (1 + d + d) L in (a + r - d, L').

(** Modelled from the spec: the bounds predicates of the grid model;
    [in_bounds_fully] excludes the outer ring. *)
Definition in_bounds (y x : Z) : bool :=
  (0 <=? y) && (0 <=? x) && (y <? DUNGEON_HGT) && (x <? DUNGEON_WID).

Definition in_bounds_fully (y x : Z) : bool :=
  (0 <? y) && (0 <? x) && (y <? DUNGEON_HGT - 1) && (x <? DUNGEON_WID - 1).

(** The outer ring: [y = 0], [y = H-1], [x = 0] or [x = W-1]. *)
Definition on_ring (y x : Z) : bool :=
  in_bounds y x &&
  ((y =? 0) || (y =? DUNGEON_HGT - 1) || (x =? 0) || (x =? DUNGEON_WID - 1)).

(** Modelled from the spec: [is_naked] is a floor grid with no object and
    no monster. *)
Definition cave_naked_bold (L : level) (y x : Z) : bool :=
  (cave_feat L y x =? FEAT_FLOOR) && (cave_o_idx L y x =? 0) &&
  (cave_m_idx L y x =? 0).

(** [cave_info[y][x] & flag] as a truth value. *)
Definition has_flag (L : level) (y x flag : Z) : bool :=
  negb (Z.land (cave_info L y x) flag =? 0).

(** The number of grids of the level whose feature is [f], counted by
    the two nested loops over the rows and the columns. *)
Definition count_feat (f : Z) (L : level) : Z :=
  zsum (fun y => zsum (fun x => if cave_feat L y x =? f then 1 else 0)
                      (zupto 0 DUNGEON_WID))
       (zupto 0 DUNGEON_HGT).

(** Two levels with the same cave arrays and the same [p_ptr] fields:
    they differ at most in the state of the generator. *)
Definition same_cave (L L' : level) : Prop :=
  cave_feat L' = cave_feat L /\ cave_info L' = cave_info L /\
  cave_o_idx L' = cave_o_idx L /\ cave_m_idx L' = cave_m_idx L /\
  cave_cover L' = cave_cover L /\ depth L' = depth L /\
  inside_special L' = inside_special L.

End Level.

(** ** generate.c: stairs *)

Section Stairs.
Context {D : Defines} {R : ZRand}.

(** [next_to_walls]: the number of the four neighbours that are granite
    or permanent walls. *)
Definition next_to_walls (L : level) (y x : Z) : Z :=
  (if cave_feat L (y + 1) x >=? FEAT_WALL_EXTRA then 1 else 0) +
  (if cave_feat L (y - 1) x >=? FEAT_WALL_EXTRA then 1 else 0) +
  (if cave_feat L y (x + 1) >=? FEAT_WALL_EXTRA then 1 else 0) +
  (if cave_feat L y (x - 1) >=? FEAT_WALL_EXTRA then 1 else 0).

(** The feature that [alloc_stairs] writes at an accepted grid: down in
    the town, up on quest levels and at the last depth, else the one
    asked for. *)
Definition stairs_feat (L : level) (feat : Z) : Z :=
  if depth L =? 0 then
    (if inside_special L =? SPECIAL_WILD then FEAT_SHAFT else FEAT_MORE)
  else if (inside_special L =? SPECIAL_QUEST) || (depth L >=? MAX_DEPTH - 1)
  then FEAT_LESS
  else feat.

(** The bound [j < 3000] of the innermost loop of [alloc_stairs]. *)
Definition stairs_round : nat := 3000.

(** The innermost loop of [alloc_stairs]: at most [j] tries for one
    staircase.  The result tells whether [flag] was set. *)
Fixpoint stairs_tries (j : nat) (feat walls : Z) (force_room : bool)
    (L : level) : bool * level :=
  match j with
  | O => (false, L)
  | S j' =>
      let (y, L1) := rand_int DUNGEON_HGT L in
      let (x, L2) := rand_int DUNGEON_WID L1 in
      if negb (cave_naked_bold L2 y x) then
        stairs_tries j' feat walls force_room L2
      else if force_room && negb (has_flag L2 y x CAVE_ROOM) then
        stairs_tries j' feat walls force_room L2
      else if next_to_walls L2 y x <? walls then
        stairs_tries j' feat walls force_room L2
      else (true, put_feat L2 y x (stairs_feat L2 feat))
  end.

(** The loop [for (flag = FALSE; !flag;)]: rounds of [round] tries, each
    followed by [if (walls) walls--].  The loop has no bound of its own,
    hence the fuel; the new value of [walls] is returned with the level. *)
Fixpoint stairs_one (fuel round : nat) (feat walls : Z) (force_room : bool)
    (L : level) : option (Z * level) :=
  match fuel with
  | O => None
  | S fuel' =>
      let (flag, L1) := stairs_tries round feat walls force_room L in
      let walls' := if walls =? 0 then walls else walls - 1 in
      if flag then Some (walls', L1)
      else stairs_one fuel' round feat walls' force_room L1
  end.

(** The loop over the [num] staircases. *)
Fixpoint stairs_loop (n : nat) (fuel round : nat) (feat walls : Z)
    (force_room : bool) (L : level) : option level :=
  match n with
  | O => Some L
  | S n' =>
      match stairs_one fuel round feat walls force_room L with
      | None => None
      | Some (walls', L1) =>
          stairs_loop n' fuel round feat walls' force_room L1
      end
  end.

(** [alloc_stairs(feat, num, walls, force_room)] *)
Definition alloc_stairs (fuel : nat) (feat num walls : Z)
    (force_room : bool) (L : level) : option level :=
  if inside_special L =? SPECIAL_DREAM then
    if feat =? FEAT_LESS then Some L
    else if feat =? FEAT_MORE then
      stairs_loop (Z.to_nat (if num >? 1 then 1 else num)) fuel stairs_round
                  FEAT_DREAM_EXIT walls force_room L
    else stairs_loop (Z.to_nat num) fuel stairs_round feat walls
                     force_room L
  else stairs_loop (Z.to_nat num) fuel stairs_round feat walls force_room L.

(** The two calls of [cave_gen] that place the stairs; [level_bg] is the
    background feature chosen at the start of [cave_gen]. *)
Definition cave_gen_stairs (fuel : nat) (level_bg : Z) (L : level)
    : option level :=
  let force := (level_bg =? FEAT_FOG) || (level_bg =? FEAT_CHAOS_FOG) in
  let (n_down, L1) := rand_range 100 120 L in
  match alloc_stairs fuel FEAT_MORE n_down 3 force L1 with
  | None => None
  | Some L2 =>
      let (n_up, L3) := rand_range 40 60 L2 in
      alloc_stairs fuel FEAT_LESS n_up 3 force L3
  end.

(** Draws of the generator lie in the range asked for. *)
Definition zrand_ok : Prop :=
  (forall s m, 1 < m -> 0 <= fst (Rand_div_stable s m) < m) /\
  (forall v m, 1 < m -> 0 <= fst (Rand_div_quick v m) < m).

(** A dungeon level that is neither the town, nor a quest or dream level,
    nor the last depth. *)
Definition standard_level (L : level) : Prop :=
  depth L <> 0 /\ inside_special L <> SPECIAL_QUEST /\
  inside_special L <> SPECIAL_DREAM /\ depth L < MAX_DEPTH - 1.

End Stairs.

(** ** generate.c: corridors *)

Section Tunnels.
Context {D : Defines} {R : ZRand}.

(** The arrays of [dun_data] that the tunnelers fill; each array is a
    list, its counter the length of the list. *)
Record dun_data : Type := mk_dun {
  cent : list (Z * Z);
  door : list (Z * Z);
  wall : list (Z * Z);
  tunn : list (Z * Z)
}.

Definition DOOR_MAX : Z := 1000.
Definition WALL_MAX : Z := 2000.
Definition TUNN_MAX : Z := 9000.
Definition DUN_TUN_RND : Z := 10.
Definition DUN_TUN_CHG : Z := 30.
Definition DUN_TUN_CON : Z := 15.
Definition DUN_TUN_PEN : Z := 25.

(** [if (n < MAX) { a[n] = (y, x); n++; }] *)
Definition push (max : Z) (a : list (Z * Z)) (y x : Z) : list (Z * Z) :=
  if Z.of_nat (length a) <? max then a ++ [(y, x)] else a.

Definition with_door (d : dun_data) (l : list (Z * Z)) : dun_data :=
  {| cent := cent d; door := l; wall := wall d; tunn := tunn d |}.
Definition with_wall (d : dun_data) (l : list (Z * Z)) : dun_data :=
  {| cent := cent d; door := door d; wall := l; tunn := tunn d |}.
Definition with_tunn (d : dun_data) (l : list (Z * Z)) : dun_data :=
  {| cent := cent d; door := door d; wall := wall d; tunn := l |}.

(** [correct_dir]: towards the target, never diagonally. *)
Definition correct_dir (y1 x1 y2 x2 : Z) (L : level) : Z * Z * level :=
  let rdir := if y1 =? y2 then 0 else if y1 <? y2 then 1 else -1 in
  let cdir := if x1 =? x2 then 0 else if x1 <? x2 then 1 else -1 in
  if negb (rdir =? 0) && negb (cdir =? 0) then
    let (r, L1) := rand_int 100 L in
    if r <? 50 then (0, cdir, L1) else (rdir, 0, L1)
  else (rdir, cdir, L).

(** [rand_dir]: one of the first four directions of the table. *)
Definition rand_dir (L : level) : Z * Z * level :=
  let (i, L1) := rand_int 4 L in (ddy_ddd i, ddx_ddd i, L1).

(** [place_random_door] *)
Definition place_random_door (y x : Z) (L : level) : level :=
  let (tmp, L1) := rand_int 1000 L in
  if tmp <? 300 then put_feat L1 y x FEAT_OPEN
  else if tmp <? 400 then put_feat L1 y x FEAT_BROKEN
  else if tmp <? 600 then put_feat L1 y x FEAT_SECRET
  else if tmp <? 900 then put_feat L1 y x (FEAT_DOOR_HEAD + 0)
  else if tmp <? 999 then
    let (r, L2) := randint 7 L1 in put_feat L2 y x (FEAT_DOOR_HEAD + r)
  else
    let (r, L2) := rand_int 8 L1 in put_feat L2 y x (FEAT_DOOR_HEAD + 8 + r).

(** The variables of a tunneler: the level, the arrays, the current grid
    and the door flag. *)
Record tunneler : Type := mk_tunneler {
  t_lev : level;
  t_dun : dun_data;
  t_row : Z;
  t_col : Z;
  t_door_flag : bool
}.

(** How the body of a loop ends: at its end or by [continue] ([Next]), or
    by [break] ([Stop]). *)
Inductive flow : Type :=
| Next (t : tunneler)
| Stop (t : tunneler).

(** "Forbid re-entry near this piercing": the outer walls among the nine
    grids around [(row1, col1)] become solid walls. *)
Definition solidify_around (row1 col1 : Z) (L : level) : level :=
  fold_left
    (fun L0 y =>
       fold_left
         (fun L1 x =>
            if cave_feat L1 y x =? FEAT_WALL_OUTER
            then put_feat L1 y x FEAT_WALL_SOLID else L1)
         (zupto (col1 - 1) (col1 + 2)) L0)
    (zupto (row1 - 1) (row1 + 2)) L.

(** The part of the loop of [build_tunnel] that looks at the next grid
    [(tmp_row, tmp_col)], one step from the current grid in the direction
    [(row_dir, col_dir)]. *)
Definition tunnel_cell (start_row start_col row_dir col_dir : Z)
    (t : tunneler) : flow :=
  let L := t_lev t in
  let tmp_row := t_row t + row_dir in
  let tmp_col := t_col t + col_dir in
  let f := cave_feat L tmp_row tmp_col in
  if f =? FEAT_PERM_SOLID then Next t
  else if f =? FEAT_PERM_OUTER then Next t
  else if f =? FEAT_WALL_SOLID then Next t
  else if f =? FEAT_WALL_OUTER then
    let y := tmp_row + row_dir in
    let x := tmp_col + col_dir in
    if cave_feat L y x =? FEAT_PERM_SOLID then Next t
    else if cave_feat L y x =? FEAT_PERM_OUTER then Next t
    else if cave_feat L y x =? FEAT_WALL_OUTER then Next t
    else if cave_feat L y x =? FEAT_WALL_SOLID then Next t
    else
      Next {| t_lev := solidify_around tmp_row tmp_col L;
              t_dun := with_wall (t_dun t)
                         (push WALL_MAX (wall (t_dun t)) tmp_row tmp_col);
              t_row := tmp_row; t_col := tmp_col;
              t_door_flag := t_door_flag t |}
  else if has_flag L tmp_row tmp_col CAVE_ROOM then
    Next {| t_lev := L; t_dun := t_dun t; t_row := tmp_row; t_col := tmp_col;
            t_door_flag := t_door_flag t |}
  else if f >=? FEAT_WALL_EXTRA then
    Next {| t_lev := L;
            t_dun := with_tunn (t_dun t)
                       (push TUNN_MAX (tunn (t_dun t)) tmp_row tmp_col);
            t_row := tmp_row; t_col := tmp_col; t_door_flag := false |}
  else
    let d1 := if t_door_flag t then t_dun t
              else with_door (t_dun t)
                     (push DOOR_MAX (door (t_dun t)) tmp_row tmp_col) in
    let (r, L1) := rand_int 100 L in
    let t1 := {| t_lev := L1; t_dun := d1; t_row := tmp_row;
                 t_col := tmp_col; t_door_flag := true |} in
    if r >=? DUN_TUN_CON then
      if (Z.abs (tmp_row - start_row) >? 10) ||
         (Z.abs (tmp_col - start_col) >? 10)
      then Stop t1 else Next t1
    else Next t1.

(** The loop "Do not leave the dungeon": pick directions until the next
    grid is fully in bounds.  The loop has no bound of its own. *)
Fixpoint tunnel_redirect (fuel : nat) (row2 col2 row_dir col_dir : Z)
    (t : tunneler) : option (Z * Z * level) :=
  if in_bounds_fully (t_row t + row_dir) (t_col t + col_dir)
  then Some (row_dir, col_dir, t_lev t)
  else match fuel with
  | O => None
  | S fuel' =>
      let '(rd, cd, L1) := correct_dir (t_row t) (t_col t) row2 col2
                             (t_lev t) in
      let (r, L2) := rand_int 100 L1 in
      let '(rd, cd, L3) :=
        if r <? DUN_TUN_RND then rand_dir L2 else (rd, cd, L2) in
      tunnel_redirect fuel' row2 col2 rd cd
        {| t_lev := L3; t_dun := t_dun t; t_row := t_row t;
           t_col := t_col t; t_door_flag := t_door_flag t |}
  end.

(** The main loop of [build_tunnel], [n] being the number of iterations
    that the count of 2000 still allows. *)
Fixpoint tunnel_loop (n fuel : nat) (start_row start_col row2 col2 : Z)
    (row_dir col_dir : Z) (t : tunneler) : option tunneler :=
  if negb (t_row t =? row2) || negb (t_col t =? col2) then
    match n with
    | O => Some t
    | S n' =>
        let L := t_lev t in
        let (r, L1) := rand_int 100 L in
        let '(rd, cd, L2) :=
          if r <? DUN_TUN_CHG then
            let '(rd, cd, La) := correct_dir (t_row t) (t_col t) row2 col2
                                   L1 in
            let (r', Lb) := rand_int 100 La in
            if r' <? DUN_TUN_RND then rand_dir Lb else (rd, cd, Lb)
          else (row_dir, col_dir, L1) in
        let t1 := {| t_lev := L2; t_dun := t_dun t; t_row := t_row t;
                     t_col := t_col t; t_door_flag := t_door_flag t |} in
        match tunnel_redirect fuel row2 col2 rd cd t1 with
        | None => None
        | Some (rd, cd, L3) =>
            let t2 := {| t_lev := L3; t_dun := t_dun t; t_row := t_row t;
                         t_col := t_col t;
                         t_door_flag := t_door_flag t |} in
            match tunnel_cell start_row start_col rd cd t2 with
            | Stop t3 => Some t3
            | Next t3 =>
                tunnel_loop n' fuel start_row start_col row2 col2 rd cd t3
            end
        end
    end
  else Some t.

(** "Turn the tunnel into corridor" *)
Definition apply_tunn (l : list (Z * Z)) (L : level) : level :=
  fold_left (fun L0 p => put_feat L0 (fst p) (snd p) FEAT_FLOOR) l L.

(** "Apply the piercings that we found" *)
Definition apply_wall (l : list (Z * Z)) (L : level) : level :=
  fold_left
    (fun L0 p =>
       let L1 := put_feat L0 (fst p) (snd p) FEAT_FLOOR in
       let (r, L2) := rand_int 100 L1 in
       if r <? DUN_TUN_PEN then place_random_door (fst p) (snd p) L2
       else L2)
    l L.

(** The number of iterations of the main loop of [build_tunnel]. *)
Definition tunnel_rounds : nat := 2001.

(** [build_tunnel(row1, col1, row2, col2)] *)
Definition build_tunnel (fuel : nat) (row1 col1 row2 col2 : Z)
    (dun : dun_data) (L : level) : option (dun_data * level) :=
  let dun0 := with_wall (with_tunn dun []) [] in
  let '(row_dir, col_dir, L0) := correct_dir row1 col1 row2 col2 L in
  match tunnel_loop tunnel_rounds fuel row1 col1 row2 col2 row_dir col_dir
          {| t_lev := L0; t_dun := dun0; t_row := row1; t_col := col1;
             t_door_flag := false |} with
  | None => None
  | Some t =>
      let L1 := apply_tunn (tunn (t_dun t)) (t_lev t) in
      Some (t_dun t, apply_wall (wall (t_dun t)) L1)
  end.

(** The choice of a step in [build_tunnel_winding]. *)
Definition winding_dir (row2 col2 : Z) (t : tunneler) : Z * Z * level :=
  let y := t_row t in
  let x := t_col t in
  let (r, L1) := rand_int 100 (t_lev t) in
  if r <? 60 then
    let dir_y := if y <? row2 then 1 else if y >? row2 then -1 else 0 in
    let dir_x := if x <? col2 then 1 else if x >? col2 then -1 else 0 in
    if negb (dir_y =? 0) && negb (dir_x =? 0) then
      let (c, L2) := rand_int 2 L1 in
      if c =? 0 then (dir_y, 0, L2) else (0, dir_x, L2)
    else (dir_y, dir_x, L1)
  else
    let (d, L2) := rand_int 4 L1 in (ddy_ddd d, ddx_ddd d, L2).

(** The part of the loop of [build_tunnel_winding] that comes after the
    move: the walker already stands on the grid it looks at. *)
Definition winding_cell (t : tunneler) : tunneler :=
  let L := t_lev t in
  let y := t_row t in
  let x := t_col t in
  let f := cave_feat L y x in
  if f =? FEAT_PERM_SOLID then t
  else if f =? FEAT_PERM_OUTER then t
  else if f =? FEAT_WALL_SOLID then t
  else if f =? FEAT_WALL_OUTER then
    {| t_lev := L;
       t_dun := with_wall (t_dun t) (push WALL_MAX (wall (t_dun t)) y x);
       t_row := y; t_col := x; t_door_flag := t_door_flag t |}
  else if has_flag L y x CAVE_ROOM then t
  else if f >=? FEAT_WALL_EXTRA then
    {| t_lev := L;
       t_dun := with_tunn (t_dun t) (push TUNN_MAX (tunn (t_dun t)) y x);
       t_row := y; t_col := x; t_door_flag := false |}
  else if t_door_flag t then t
  else
    {| t_lev := L;
       t_dun := with_door (t_dun t) (push DOOR_MAX (door (t_dun t)) y x);
       t_row := y; t_col := x; t_door_flag := true |}.

(** One iteration of the loop of [build_tunnel_winding]. *)
Definition winding_iter (row2 col2 : Z) (t : tunneler) : tunneler :=
  let '(dir_y, dir_x, L1) := winding_dir row2 col2 t in
  let t1 := {| t_lev := L1; t_dun := t_dun t; t_row := t_row t;
               t_col := t_col t; t_door_flag := t_door_flag t |} in
  if negb (in_bounds (t_row t + dir_y) (t_col t + dir_x)) then t1
  else
    winding_cell {| t_lev := L1; t_dun := t_dun t;
                    t_row := t_row t + dir_y; t_col := t_col t + dir_x;
                    t_door_flag := t_door_flag t |}.

(** The loop of [build_tunnel_winding]; the second component is the
    number of iterations left when the loop ends. *)
Fixpoint winding_loop (n : nat) (row2 col2 : Z) (t : tunneler)
    : tunneler * nat :=
  if negb (t_row t =? row2) || negb (t_col t =? col2) then
    match n with
    | O => (t, O)
    | S n' => winding_loop n' row2 col2 (winding_iter row2 col2 t)
    end
  else (t, n).

(** [loop_max] *)
Definition winding_rounds : nat := Z.to_nat 20000.

(** [build_tunnel_winding(row1, col1, row2, col2)] *)
Definition build_tunnel_winding (fuel : nat) (row1 col1 row2 col2 : Z)
    (dun : dun_data) (L : level) : option (dun_data * level) :=
  let dun0 := with_door (with_wall (with_tunn dun []) []) [] in
  let (t, left) :=
    winding_loop winding_rounds row2 col2
      {| t_lev := L; t_dun := dun0; t_row := row1; t_col := col1;
         t_door_flag := false |} in
  match left with
  | O => build_tunnel fuel row1 col1 row2 col2 (t_dun t) (t_lev t)
  | S _ =>
      let L1 := apply_tunn (tunn (t_dun t)) (t_lev t) in
      Some (t_dun t, apply_wall (wall (t_dun t)) L1)
  end.

(** "Outer/solid": the four features that the straight tunneler refuses
    to find behind the outer wall it is about to pierce. *)
Definition outer_or_solid (f : Z) : bool :=
  (f =? FEAT_PERM_SOLID) || (f =? FEAT_PERM_OUTER) ||
  (f =? FEAT_WALL_OUTER) || (f =? FEAT_WALL_SOLID).

(** The outer wall has a code of its own among the walls that the
    tunnelers tell apart. *)
Definition wall_codes_distinct : Prop :=
  FEAT_WALL_OUTER <> FEAT_WALL_SOLID /\ FEAT_WALL_OUTER <> FEAT_PERM_SOLID /\
  FEAT_WALL_OUTER <> FEAT_PERM_OUTER.

(** The walker moved onto the grid [(y, x)]. *)
Definition moved_to (t : tunneler) (y x : Z) : tunneler :=
  {| t_lev := t_lev t; t_dun := t_dun t; t_row := y; t_col := x;
     t_door_flag := t_door_flag t |}.

End Tunnels.

(** ** generate.c: the boundary of the level *)

Section Boundary.
Context {D : Defines} {R : ZRand}.




(** The double loop that gives every grid of the level the feature [f]. *)
Definition fill_cave (f : Z) (L : level) : level :=
  with_feat L
    (fold_left
       (fun g y => fold_left (fun g' x => gset g' y x f)
                             (zupto 0 DUNGEON_WID) g)
       (zupto 0 DUNGEON_HGT) (cave_feat L)).





End Boundary.

(** ** generate.c: the corners of a wilderness tile *)

Section Wilderness.
Context {D : Defines} {R : ZRand}.

(** Conversion to [u32b]. *)
Definition u32 (v : Z) : Z := v mod 4294967296.


(** [#define HASH_LEVEL(X, Y) (((Y) - (X)) ^ ((Y) & ((X) + seed_wild)))] *)
Definition HASH_LEVEL (seed_wild X Y : Z) : Z :=
  Z.lxor (u32 (Y - X)) (Z.land (u32 Y) (u32 (u32 X + seed_wild))).








End Wilderness.

(** ** cover.c: the cover engine *)

(** The two spell routines that an exploding barrel calls are not among
    the sources; they act on the level in a way the cover engine does not
    look into. *)
Class Spells {D : Defines} {R : ZRand} : Type := {
  fire_ball : Z -> Z -> Z -> Z -> level -> level;
  fire_explosion : Z -> Z -> Z -> Z -> Z -> level -> level;
  GF_FIRE : Z
}.

Section Cover.
Context {D : Defines} {R : ZRand} {S : Spells}.

(** Modelled from the spec: [cave_set_feat] of cave.c changes the feature
    of a grid (and redraws it, which the model does not show). *)
Definition cave_set_feat (L : level) (y x feat : Z) : level :=
  put_feat L y x feat.

(** [cave_cover[y][x] = c] *)
Definition put_cover (L : level) (y x : Z) (c : option cover_data) : level :=
  with_cover L (gset (cave_cover L) y x c).

(** [create_cover_at]: replace the record of the grid by a fresh one and
    set the feature. *)
Definition create_cover_at (L : level) (y x cover_type durability feat : Z)
    : level :=
  if negb (in_bounds y x) then L
  else
    let L1 := put_cover L y x
                (Some {| durability := durability;
                         max_durability := durability;
                         cover_type := cover_type;
                         terrain_feat := feat |}) in
    cave_set_feat L1 y x feat.

(** [destroy_cover]: release the record and leave bare floor. *)
Definition destroy_cover (L : level) (y x : Z) : level :=
  if negb (in_bounds y x) then L
  else cave_set_feat (put_cover L y x None) y x FEAT_FLOOR.

(** The [switch] of [get_cover_at] on the feature of the grid. *)
Definition feat_cover (feat : Z) : Z :=
  if (feat =? FEAT_WALL_INNER) || (feat =? FEAT_WALL_OUTER) ||
     (feat =? FEAT_WALL_SOLID) || (feat =? FEAT_PERM_INNER) ||
     (feat =? FEAT_PERM_OUTER) || (feat =? FEAT_PERM_SOLID) ||
     (feat =? FEAT_STONE_PILLAR)
  then COVER_HEAVY
  else if (feat =? FEAT_TREES) || (feat =? FEAT_BOULDER) ||
          (feat =? FEAT_RUBBLE)
  then COVER_MEDIUM
  else if (feat =? FEAT_FALLEN_TREE) || (feat =? FEAT_CRATE) ||
          (feat =? FEAT_TALL_GRASS) || (feat =? FEAT_REEDS) ||
          (feat =? FEAT_SHRUB)
  then COVER_LIGHT
  else if (feat =? FEAT_FOG) || (feat =? FEAT_FOG_DENSE) ||
          (feat =? FEAT_SMOKE) || (feat =? FEAT_CHAOS_FOG)
  then COVER_LIGHT
  else if feat =? FEAT_BARREL then COVER_LIGHT
  else COVER_NONE.

(** [get_cover_at]: the cover of a grid, whatever the direction. *)
Definition get_cover_at (L : level) (y x : Z) : Z :=
  if negb (in_bounds y x) then COVER_NONE
  else match cave_cover L y x with
       | Some c => if durability c >? 0 then cover_type c else COVER_NONE
       | None => feat_cover (cave_feat L y x)
       end.

(** The outcome of a loop that may [return] from the function. *)
Inductive scan : Type :=
| Returned (v : Z)
| Running (best_cover : Z).

(** The grid of the traced line at step [i]: [a + (d * i) / dist], the
    division truncating. *)
Definition line_y (ay dy dist i : Z) : Z := ay + Z.quot (dy * i) dist.
Definition line_x (ax dx dist i : Z) : Z := ax + Z.quot (dx * i) dist.

(** The body of the loop of [get_cover_vs_direction] at step [i]. *)
Definition cover_step (L : level) (ay ax dy dx dist : Z) (best_cover i : Z)
    : scan :=
  let y := line_y ay dy dist i in
  let x := line_x ax dx dist i in
  if negb (in_bounds y x) then Running best_cover
  else
    let cover := get_cover_at L y x in
    if (cave_feat L y x =? FEAT_FOG) || (cave_feat L y x =? FEAT_FOG_DENSE) ||
       (cave_feat L y x =? FEAT_SMOKE)
    then Running best_cover
    else
      let best_cover := if cover >? best_cover then cover else best_cover in
      if best_cover >=? COVER_TOTAL then Returned COVER_TOTAL
      else Running best_cover.

(** The loop over the steps. *)
Fixpoint cover_loop (L : level) (ay ax dy dx dist : Z) (steps : list Z)
    (best_cover : Z) : scan :=
  match steps with
  | [] => Running best_cover
  | i :: rest =>
      match cover_step L ay ax dy dx dist best_cover i with
      | Returned v => Returned v
      | Running b => cover_loop L ay ax dy dx dist rest b
      end
  end.

(** [get_cover_vs_direction(ty, tx, ay, ax)] *)
Definition get_cover_vs_direction (L : level) (ty tx ay ax : Z) : Z :=
  let dy := ty - ay in
  let dx := tx - ax in
  let dist := distance ay ax ty tx in
  match cover_loop L ay ax dy dx dist (zupto 1 dist) COVER_NONE with
  | Returned v => v
  | Running best_cover =>
      let target_cover := get_cover_at L ty tx in
      if (target_cover >? best_cover) && (target_cover <=? COVER_MEDIUM)
      then target_cover else best_cover
  end.

(** [get_directional_cover]: one bit for each of the eight neighbours that
    holds a solid feature.  The result is a [byte]. *)
Definition get_directional_cover (L : level) (y x : Z) : Z :=
  fold_left
    (fun cover_dirs dir =>
       let ny := y + ddy_ddd dir in
       let nx := x + ddx_ddd dir in
       if negb (in_bounds ny nx) then cover_dirs
       else
         let feat := cave_feat L ny nx in
         if (feat >=? FEAT_WALL_EXTRA) || (feat =? FEAT_TREES) ||
            (feat =? FEAT_BOULDER) || (feat =? FEAT_STONE_PILLAR)
         then (Z.lor cover_dirs (Z.shiftl 1 dir)) mod 256
         else cover_dirs)
    (zupto 0 8) 0.

(** The conversion of the offset target -> attacker "to 8-direction";
    [None] when the two are on the same grid. *)
Definition attack_dir (dy dx : Z) : option Z :=
  if (dy <? 0) && (dx <? 0) then Some 7
  else if (dy <? 0) && (dx =? 0) then Some 0
  else if (dy <? 0) && (dx >? 0) then Some 1
  else if (dy =? 0) && (dx >? 0) then Some 2
  else if (dy >? 0) && (dx >? 0) then Some 3
  else if (dy >? 0) && (dx =? 0) then Some 4
  else if (dy >? 0) && (dx <? 0) then Some 5
  else if (dy =? 0) && (dx <? 0) then Some 6
  else None.

(** [is_attack_blocked_by_cover(ty, tx, ay, ax)] *)
Definition is_attack_blocked_by_cover (L : level) (ty tx ay ax : Z) : bool :=
  let dir_cover := get_directional_cover L ty tx in
  match attack_dir (ay - ty) (ax - tx) with
  | None => false
  | Some dir =>
      if negb (Z.land dir_cover (Z.shiftl 1 dir) =? 0) then
        let cover :=
          get_cover_at L (ty + ddy_ddd dir) (tx + ddx_ddd dir) in
        if cover >=? COVER_HEAVY then true else false
      else false
  end.

(** The body of [damage_cover]; [self] stands for the call the function
    makes to itself once a crate has received its record. *)
Definition damage_cover_body (self : level -> Z -> Z -> Z -> level)
    (L : level) (y x damage : Z) : level :=
  if negb (in_bounds y x) then L
  else
    let feat := cave_feat L y x in
    if feat =? FEAT_BARREL then
      let L1 := fire_ball GF_FIRE 0 30 2 L in
      let L2 := fire_explosion y x GF_FIRE 2 30 L1 in
      cave_set_feat L2 y x FEAT_FLOOR
    else
      match cave_cover L y x with
      | Some c =>
          let c' := {| durability := durability c - damage;
                       max_durability := max_durability c;
                       cover_type := cover_type c;
                       terrain_feat := terrain_feat c |} in
          let L1 := put_cover L y x (Some c') in
          if durability c' <=? 0 then destroy_cover L1 y x else L1
      | None =>
          let L1 :=
            if (feat =? FEAT_TREES) && (damage >? 20) then
              let (r, La) := rand_int 100 L in
              if r <? damage then
                let Lb := cave_set_feat La y x FEAT_FALLEN_TREE in
                create_cover_at Lb y x COVER_LIGHT
                  (Z.quot COVER_DURABILITY_TREE 2) FEAT_FALLEN_TREE
              else La
            else L in
          if feat =? FEAT_CRATE then
            let L2 := put_cover L1 y x
                        (Some {| durability := 20; max_durability := 20;
                                 cover_type := COVER_LIGHT;
                                 terrain_feat := FEAT_CRATE |}) in
            self L2 y x damage
          else L1
      end.

(** [damage_cover]: the inner call finds the record just made (or a
    barrel) and returns before it could call itself again. *)
Definition damage_cover : level -> Z -> Z -> Z -> level :=
  damage_cover_body (damage_cover_body (fun L _ _ _ => L)).

(** The first step of the list whose grid has cover at least [cover]. *)
Fixpoint find_cover (L : level) (ay ax dy dx dist cover : Z) (steps : list Z)
    : option (Z * Z) :=
  match steps with
  | [] => None
  | i :: rest =>
      let cy := line_y ay dy dist i in
      let cx := line_x ax dx dist i in
      if get_cover_at L cy cx >=? cover then Some (cy, cx)
      else find_cover L ay ax dy dx dist cover rest
  end.

(** What [attack_through_cover] hands back: the truth value it returns,
    [*damage], [*cover_damage_out] and the level. *)
Record attack_result : Type := mk_attack {
  hit : bool;
  damage_out : Z;
  cover_damage_out : Z;
  level_out : level
}.

(** The [switch] on the cover tier: absorbed percentage and miss chance. *)
Definition cover_odds (cover : Z) : Z * Z :=
  if cover =? COVER_LIGHT then (COVER_ABSORB_LIGHT, 25)
  else if cover =? COVER_MEDIUM then (COVER_ABSORB_MEDIUM, 40)
  else if cover =? COVER_HEAVY then (COVER_ABSORB_HEAVY, 60)
  else if cover =? COVER_TOTAL then (COVER_ABSORB_TOTAL, 100)
  else (0, 0).

(** [attack_through_cover(ay, ax, ty, tx, &damage, &cover_damage_out)] *)
Definition attack_through_cover (L : level) (ay ax ty tx damage : Z)
    : attack_result :=
  let cover := get_cover_vs_direction L ty tx ay ax in
  let original_damage := damage in
  if cover =? COVER_NONE then
    {| hit := true; damage_out := damage; cover_damage_out := 0;
       level_out := L |}
  else if is_attack_blocked_by_cover L ty tx ay ax then
    {| hit := false; damage_out := 0; cover_damage_out := 0;
       level_out := L |}
  else
    let (absorb_percent, miss_chance) := cover_odds cover in
    let dy := ty - ay in
    let dx := tx - ax in
    let dist := distance ay ax ty tx in
    let (roll, L1) := rand_int 100 L in
    if roll <? miss_chance then
      let cover_damage := original_damage in
      match find_cover L1 ay ax dy dx dist cover (zupto 1 (dist + 1)) with
      | Some (cy, cx) =>
          {| hit := false; damage_out := 0;
             cover_damage_out := cover_damage;
             level_out := damage_cover L1 cy cx cover_damage |}
      | None =>
          if get_cover_at L1 ty tx >=? cover then
            {| hit := false; damage_out := 0;
               cover_damage_out := cover_damage;
               level_out := damage_cover L1 ty tx cover_damage |}
          else
            {| hit := false; damage_out := 0; cover_damage_out := 0;
               level_out := L1 |}
      end
    else
      let cover_damage := Z.quot (original_damage * absorb_percent) 100 in
      let damage' := original_damage - cover_damage in
      let L2 :=
        if cover_damage >? 0 then
          match find_cover L1 ay ax dy dx dist cover (zupto 1 (dist + 1)) with
          | Some (cy, cx) => damage_cover L1 cy cx cover_damage
          | None =>
              if get_cover_at L1 ty tx >=? cover
              then damage_cover L1 ty tx cover_damage else L1
          end
        else L1 in
      {| hit := damage' >? 0; damage_out := damage';
         cover_damage_out := cover_damage; level_out := L2 |}.

(** The tiers of cover are ordered as the spec orders them. *)
Definition cover_ordered : Prop :=
  COVER_NONE < COVER_LIGHT /\ COVER_LIGHT <= COVER_MEDIUM /\
  COVER_MEDIUM <= COVER_HEAVY /\ COVER_HEAVY <= COVER_TOTAL.

(** What the whole loop hands back, as a tier. *)
Definition scan_value (s : scan) : Z :=
  match s with Returned v => v | Running b => b end.

End Cover.

(** ** generate.c: seeding, and the cover pass of the level director *)

Section Director.
Context {D : Defines} {R : ZRand} {S : Spells}.



(** The body of the inner loop of [populate_cover_features]: one item of
    cover near the centre [(y, x)]. *)
Definition cover_item (y x : Z) (L : level) : level :=
  let (ty, L1) := rand_spread y 4 L in
  let (tx, L2) := rand_spread x 4 L1 in
  if negb (in_bounds ty tx) then L2
  else if cave_naked_bold L2 ty tx then
    let (roll, L3) := rand_int 100 L2 in
    if roll <? 30 then create_cover_at L3 ty tx COVER_LIGHT 20 FEAT_CRATE
    else if roll <? 50 then
      create_cover_at L3 ty tx COVER_LIGHT 20 FEAT_BARREL
    else if roll <? 70 then
      create_cover_at L3 ty tx COVER_HEAVY COVER_DURABILITY_WALL
                      FEAT_STONE_PILLAR
    else
      create_cover_at L3 ty tx COVER_MEDIUM COVER_DURABILITY_BOULDER
                      FEAT_BOULDER
  else L2.

(** The body of the outer loop: the room centred at [(y, x)]. *)
Definition cover_room (L : level) (c : Z * Z) : level :=
  let (r, L1) := rand_int 100 L in
  if r <? 50 then
    let (n, L2) := rand_int 4 L1 in
    fold_left (fun L0 _ => cover_item (fst c) (snd c) L0)
              (zupto 0 (2 + n)) L2
  else L1.

(** [populate_cover_features] *)
Definition populate_cover_features (dun : dun_data) (L : level) : level :=
  fold_left cover_room (cent dun) L.





End Director.

(** ** patrol.c: the patrol and guard state machine *)

Inductive guard_state_t : Type :=
| GUARD_STATE_PATROL
| GUARD_STATE_GUARD
| GUARD_STATE_SLEEP
| GUARD_STATE_ALERT
| GUARD_STATE_CHASE
| GUARD_STATE_RETURN.

Inductive patrol_type_t : Type :=
| PATROL_TYPE_RANDOM
| PATROL_TYPE_CIRCUIT
| PATROL_TYPE_BACKFORTH
| PATROL_TYPE_STATIONARY.

Record patrol_waypoint : Type := mk_waypoint {
  wp_y : Z;
  wp_x : Z;
  wait_turns : Z
}.

(** The guard record of a monster; the array of waypoints is a function of
    the index. *)
Record monster_guard_data : Type := mk_guard {
  guard_state : guard_state_t;
  patrol_type : patrol_type_t;
  home_y : Z;
  home_x : Z;
  alert_y : Z;
  alert_x : Z;
  chase_timer : Z;
  waypoints : Z -> patrol_waypoint;
  num_waypoints : Z;
  current_waypoint : Z
}.

Record monster_type : Type := mk_monster {
  r_idx : Z;
  fy : Z;
  fx : Z
}.

Record monster_race : Type := mk_race {
  flags1 : Z;
  flags2 : Z;
  aaf : Z
}.

Section Patrol.
Context {D : Defines} {R : ZRand}.

(** The level together with the monster list, the guard records and the
    fields of the player that the state machine reads. *)
Record world : Type := mk_world {
  lev : level;
  m_list : Z -> monster_type;
  m_max : Z;
  m_guard : Z -> option monster_guard_data;
  r_info : Z -> monster_race;
  py : Z;
  px : Z;
  skill_stl : Z
}.

(** The three routines of cave.c and monster2.c that the state machine
    calls: the line-of-sight flag of a grid, the floor test, and the move
    of a monster from one grid to another. *)
Variable player_has_los_bold : world -> Z -> Z -> bool.
Variable cave_floor_bold : world -> Z -> Z -> bool.
Variable monster_swap : world -> Z -> Z -> Z -> Z -> world.

Definition with_lev (w : world) (L : level) : world :=
  {| lev := L; m_list := m_list w; m_max := m_max w; m_guard := m_guard w;
     r_info := r_info w; py := py w; px := px w; skill_stl := skill_stl w |}.

(** [*m_guard[m_idx] = g] *)
Definition put_guard (w : world) (m_idx : Z) (g : monster_guard_data)
    : world :=
  {| lev := lev w; m_list := m_list w; m_max := m_max w;
     m_guard := fun i => if i =? m_idx then Some g else m_guard w i;
     r_info := r_info w; py := py w; px := px w; skill_stl := skill_stl w |}.

Definition set_state (g : monster_guard_data) (st : guard_state_t)
    : monster_guard_data :=
  {| guard_state := st; patrol_type := patrol_type g; home_y := home_y g;
     home_x := home_x g; alert_y := alert_y g; alert_x := alert_x g;
     chase_timer := chase_timer g; waypoints := waypoints g;
     num_waypoints := num_waypoints g;
     current_waypoint := current_waypoint g |}.

Definition set_alert (g : monster_guard_data) (y x : Z)
    : monster_guard_data :=
  {| guard_state := guard_state g; patrol_type := patrol_type g;
     home_y := home_y g; home_x := home_x g; alert_y := y; alert_x := x;
     chase_timer := chase_timer g; waypoints := waypoints g;
     num_waypoints := num_waypoints g;
     current_waypoint := current_waypoint g |}.

Definition set_timer (g : monster_guard_data) (t : Z) : monster_guard_data :=
  {| guard_state := guard_state g; patrol_type := patrol_type g;
     home_y := home_y g; home_x := home_x g; alert_y := alert_y g;
     alert_x := alert_x g; chase_timer := t; waypoints := waypoints g;
     num_waypoints := num_waypoints g;
     current_waypoint := current_waypoint g |}.

Definition set_current (g : monster_guard_data) (c : Z)
    : monster_guard_data :=
  {| guard_state := guard_state g; patrol_type := patrol_type g;
     home_y := home_y g; home_x := home_x g; alert_y := alert_y g;
     alert_x := alert_x g; chase_timer := chase_timer g;
     waypoints := waypoints g; num_waypoints := num_waypoints g;
     current_waypoint := c |}.

(** [guard->waypoints[i] = p] *)
Definition set_waypoint (g : monster_guard_data) (i : Z) (p : patrol_waypoint)
    : monster_guard_data :=
  {| guard_state := guard_state g; patrol_type := patrol_type g;
     home_y := home_y g; home_x := home_x g; alert_y := alert_y g;
     alert_x := alert_x g; chase_timer := chase_timer g;
     waypoints := fun j => if j =? i then p else waypoints g j;
     num_waypoints := num_waypoints g;
     current_waypoint := current_waypoint g |}.

(** [get_stealth_bonus_from_cover] *)
Definition get_stealth_bonus_from_cover (L : level) (y x : Z) : Z :=
  let cover := get_cover_at L y x in
  if cover =? COVER_LIGHT then COVER_STEALTH_LIGHT
  else if cover =? COVER_MEDIUM then COVER_STEALTH_MEDIUM
  else if cover =? COVER_HEAVY then COVER_STEALTH_HEAVY
  else if cover =? COVER_TOTAL then COVER_STEALTH_HEAVY
  else 0.

(** The body of the loop of [alert_nearby_guards] for the monster
    [m_idx]. *)
Definition alert_guard (y x radius : Z) (w : world) (m_idx : Z) : world :=
  let m_ptr := m_list w m_idx in
  if r_idx m_ptr =? 0 then w
  else match m_guard w m_idx with
  | None => w
  | Some guard =>
      if distance y x (fy m_ptr) (fx m_ptr) >? radius then w
      else
        let r_ptr := r_info w (r_idx m_ptr) in
        if (Z.land (flags2 r_ptr) RF2_SMART =? 0) &&
           (Z.land (flags1 r_ptr) RF1_FRIENDS =? 0) then w
        else
          match guard_state guard with
          | GUARD_STATE_PATROL | GUARD_STATE_GUARD | GUARD_STATE_SLEEP =>
              put_guard w m_idx
                (set_alert (set_state guard GUARD_STATE_ALERT) y x)
          | _ => w
          end
  end.

(** [alert_nearby_guards(y, x, radius)] *)
Definition alert_nearby_guards (y x radius : Z) (w : world) : world :=
  fold_left (alert_guard y x radius) (zupto 1 (m_max w)) w.

(** [advance_patrol_waypoint]; the draws of the RANDOM case go through
    the generator of the level. *)
Definition advance_patrol_waypoint (guard : monster_guard_data) (L : level)
    : monster_guard_data * level :=
  if num_waypoints guard =? 0 then (guard, L)
  else match patrol_type guard with
  | PATROL_TYPE_CIRCUIT =>
      let c := current_waypoint guard + 1 in
      (set_current guard (if c >=? num_waypoints guard then 0 else c), L)
  | PATROL_TYPE_BACKFORTH =>
      if negb (Z.land (current_waypoint guard) 128 =? 0) then
        let wp := Z.land (current_waypoint guard) 127 - 1 in
        if wp <? 0 then (set_current guard 1, L)
        else (set_current guard (Z.lor wp 128), L)
      else
        let c := current_waypoint guard + 1 in
        if c >=? num_waypoints guard
        then (set_current guard (Z.lor (num_waypoints guard - 2) 128), L)
        else (set_current guard c, L)
  | PATROL_TYPE_RANDOM =>
      let (r1, L1) := rand_int (PATROL_RADIUS * 2) L in
      let g1 := set_waypoint guard 0
                  {| wp_y := home_y guard + r1 - PATROL_RADIUS;
                     wp_x := wp_x (waypoints guard 0);
                     wait_turns := wait_turns (waypoints guard 0) |} in
      let (r2, L2) := rand_int (PATROL_RADIUS * 2) L1 in
      let g2 := set_waypoint g1 0
                  {| wp_y := wp_y (waypoints g1 0);
                     wp_x := home_x guard + r2 - PATROL_RADIUS;
                     wait_turns := wait_turns (waypoints g1 0) |} in
      (set_current g2 0, L2)
  | PATROL_TYPE_STATIONARY => (guard, L)
  end.

(** The sign of [t - f]: one step from [f] towards [t]. *)
Definition step_toward (t f : Z) : Z :=
  if t >? f then 1 else if t <? f then -1 else 0.

(** "Move toward": swap the monster one grid towards [(ty, tx)] when that
    grid is floor. *)
Definition move_toward (w : world) (m_idx ty tx : Z) : world :=
  let m_ptr := m_list w m_idx in
  let dy := step_toward ty (fy m_ptr) in
  let dx := step_toward tx (fx m_ptr) in
  if cave_floor_bold w (fy m_ptr + dy) (fx m_ptr + dx)
  then monster_swap w (fy m_ptr) (fx m_ptr) (fy m_ptr + dy) (fx m_ptr + dx)
  else w.

(** [guard_state = CHASE; alert = player; chase_timer = TIMEOUT] *)
Definition start_chase (w : world) (guard : monster_guard_data)
    : monster_guard_data :=
  set_timer (set_alert (set_state guard GUARD_STATE_CHASE) (py w) (px w))
            GUARD_CHASE_TIMEOUT.

(** [execute_patrol_behavior(m_idx)]: the truth value returned and the
    world after the call.  The search for a cover grid that a smart
    chaser makes is left out: its result is not used. *)
Definition execute_patrol_behavior (w : world) (m_idx : Z) : bool * world :=
  let m_ptr := m_list w m_idx in
  let r_ptr := r_info w (r_idx m_ptr) in
  match m_guard w m_idx with
  | None => (false, w)
  | Some guard =>
    match guard_state guard with
    | GUARD_STATE_SLEEP =>
        if player_has_los_bold w (fy m_ptr) (fx m_ptr) &&
           (skill_stl w + get_stealth_bonus_from_cover (lev w) (py w) (px w)
              <? aaf r_ptr)
        then
          let w1 := put_guard w m_idx (start_chase w guard) in
          (false,
           alert_nearby_guards (fy m_ptr) (fx m_ptr) GUARD_ALERT_RADIUS w1)
        else (true, w)
    | GUARD_STATE_GUARD =>
        if player_has_los_bold w (fy m_ptr) (fx m_ptr) then
          let w1 := put_guard w m_idx (start_chase w guard) in
          (false,
           alert_nearby_guards (fy m_ptr) (fx m_ptr) GUARD_ALERT_RADIUS w1)
        else (true, w)
    | GUARD_STATE_ALERT =>
        let ty := alert_y guard in
        let tx := alert_x guard in
        if (fy m_ptr =? ty) && (fx m_ptr =? tx) then
          (true, put_guard w m_idx (set_state guard GUARD_STATE_RETURN))
        else if player_has_los_bold w (fy m_ptr) (fx m_ptr) then
          (false,
           put_guard w m_idx
             (set_timer (set_state guard GUARD_STATE_CHASE)
                        GUARD_CHASE_TIMEOUT))
        else (true, move_toward w m_idx ty tx)
    | GUARD_STATE_CHASE =>
        let guard1 := set_timer guard (chase_timer guard - 1) in
        if player_has_los_bold w (fy m_ptr) (fx m_ptr) then
          (false,
           put_guard w m_idx
             (set_timer (set_alert guard1 (py w) (px w))
                        GUARD_CHASE_TIMEOUT))
        else
          let ty := alert_y guard1 in
          let tx := alert_x guard1 in
          if (fy m_ptr =? ty) && (fx m_ptr =? tx) &&
             (chase_timer guard1 <=? 0)
          then (true,
                put_guard w m_idx (set_state guard1 GUARD_STATE_RETURN))
          else (false, put_guard w m_idx guard1)
    | GUARD_STATE_RETURN =>
        let '(ty, tx) :=
          match patrol_type guard with
          | PATROL_TYPE_STATIONARY => (home_y guard, home_x guard)
          | _ =>
              if num_waypoints guard >? 0
              then (wp_y (waypoints guard (current_waypoint guard)),
                    wp_x (waypoints guard (current_waypoint guard)))
              else (home_y guard, home_x guard)
          end in
        if (fy m_ptr =? ty) && (fx m_ptr =? tx) then
          match patrol_type guard with
          | PATROL_TYPE_STATIONARY =>
              (true, put_guard w m_idx (set_state guard GUARD_STATE_GUARD))
          | _ =>
              (true, put_guard w m_idx (set_state guard GUARD_STATE_PATROL))
          end
        else (true, move_toward w m_idx ty tx)
    | GUARD_STATE_PATROL =>
        if player_has_los_bold w (fy m_ptr) (fx m_ptr) then
          let w1 := put_guard w m_idx (start_chase w guard) in
          (false,
           alert_nearby_guards (fy m_ptr) (fx m_ptr) GUARD_ALERT_RADIUS w1)
        else if num_waypoints guard =? 0 then
          let (r, L1) := rand_int 100 (lev w) in
          if r <? 30 then
            let (r1, L2) := rand_int 3 L1 in
            let (r2, L3) := rand_int 3 L2 in
            let w3 := with_lev w L3 in
            let dy := r1 - 1 in
            let dx := r2 - 1 in
            if cave_floor_bold w3 (fy m_ptr + dy) (fx m_ptr + dx)
            then (true, monster_swap w3 (fy m_ptr) (fx m_ptr)
                                     (fy m_ptr + dy) (fx m_ptr + dx))
            else (true, w3)
          else (true, with_lev w L1)
        else
          let i := current_waypoint guard in
          let wp := waypoints guard i in
          if (fy m_ptr =? wp_y wp) && (fx m_ptr =? wp_x wp) then
            let wp1 := {| wp_y := wp_y wp; wp_x := wp_x wp;
                          wait_turns := wait_turns wp - 1 |} in
            if wait_turns wp1 <=? 0 then
              let (r, L1) := rand_int PATROL_REST_TURNS (lev w) in
              let wp2 := {| wp_y := wp_y wp; wp_x := wp_x wp;
                            wait_turns := 5 + r |} in
              let (g2, L2) :=
                advance_patrol_waypoint (set_waypoint guard i wp2) L1 in
              (true, put_guard (with_lev w L2) m_idx g2)
            else (true, put_guard w m_idx (set_waypoint guard i wp1))
          else (true, move_toward w m_idx (wp_y wp) (wp_x wp))
    end
  end.

(** The state of the guard record of a monster, if it has one. *)
Definition state_of (w : world) (m_idx : Z) : option guard_state_t :=
  match m_guard w m_idx with
  | Some g => Some (guard_state g)
  | None => None
  end.

End Patrol.

(** ** repro_rle.c: the buffer as its reader takes it *)

(** The cells that a buffer of pairs (count, value) stands for: each pair
    is a run of [count] cells holding [value]. *)
Fixpoint rle_expand (b : list Z) : list Z :=
  match b with
  | c :: v :: rest => repeat v (Z.to_nat c) ++ rle_expand rest
  | _ => []
  end.

(** The bytes of a list of runs, in the order the writer emits them. *)
Definition rle_bytes (runs : list (Z * Z)) : list Z :=
  flat_map (fun p => [fst p; snd p]) runs.

(** The cells of a list of runs. *)
Definition rle_cells (runs : list (Z * Z)) : list Z :=
  flat_map (fun p => repeat (snd p) (Z.to_nat (fst p))) runs.

(** ** cover.c: the solid features of [get_directional_cover] *)

Section Cover_solid.
Context {D : Defines} {R : ZRand}.



End Cover_solid.

(** ** patrol.c: alerts, routes and the set-up of a patrol *)

Section Patrol_setup.
Context {D : Defines} {R : ZRand}.

(** The floor test and the move of a monster, as in the state machine. *)
Variable cave_floor_bold : world -> Z -> Z -> bool.
Variable monster_swap : world -> Z -> Z -> Z -> Z -> world.

(** [sind] and [cosd] scale the [sin] and [cos] of the C library, which
    work on floating-point numbers; they are left as parameters and
    nothing below depends on their values. *)
Variable sind : Z -> Z.
Variable cosd : Z -> Z.

(** The test that [alert_nearby_guards] makes before it alerts the guard
    [guard] of the monster [m_idx]: a live monster, within the radius, of
    a smart race or one that comes with friends, on patrol, on guard or
    asleep. *)
Definition alertable (y x radius : Z) (w : world) (m_idx : Z)
    (guard : monster_guard_data) : bool :=
  let m_ptr := m_list w m_idx in
  let r_ptr := r_info w (r_idx m_ptr) in
  negb (r_idx m_ptr =? 0) &&
  (distance y x (fy m_ptr) (fx m_ptr) <=? radius) &&
  (negb (Z.land (flags2 r_ptr) RF2_SMART =? 0) ||
   negb (Z.land (flags1 r_ptr) RF1_FRIENDS =? 0)) &&
  match guard_state guard with
  | GUARD_STATE_PATROL | GUARD_STATE_GUARD | GUARD_STATE_SLEEP => true
  | _ => false
  end.

(** Modelled from the conventions of z-virt.h: [ZNEW] hands back a
    record whose bytes are zero; [alloc_guard_data] then sets the
    defaults. *)
Definition fresh_guard : monster_guard_data :=
  {| guard_state := GUARD_STATE_PATROL; patrol_type := PATROL_TYPE_RANDOM;
     home_y := 0; home_x := 0; alert_y := 0; alert_x := 0; chase_timer := 0;
     waypoints := fun _ => {| wp_y := 0; wp_x := 0; wait_turns := 0 |};
     num_waypoints := 0; current_waypoint := 0 |}.

(** [alloc_guard_data]: the record of the monster, made first when there
    is none. *)
Definition alloc_guard_data (w : world) (m_idx : Z)
    : world * monster_guard_data :=
  match m_guard w m_idx with
  | Some g => (w, g)
  | None => (put_guard w m_idx fresh_guard, fresh_guard)
  end.

Definition set_type (g : monster_guard_data) (t : patrol_type_t)
    : monster_guard_data :=
  {| guard_state := guard_state g; patrol_type := t; home_y := home_y g;
     home_x := home_x g; alert_y := alert_y g; alert_x := alert_x g;
     chase_timer := chase_timer g; waypoints := waypoints g;
     num_waypoints := num_waypoints g;
     current_waypoint := current_waypoint g |}.

Definition set_home (g : monster_guard_data) (y x : Z)
    : monster_guard_data :=
  {| guard_state := guard_state g; patrol_type := patrol_type g;
     home_y := y; home_x := x; alert_y := alert_y g; alert_x := alert_x g;
     chase_timer := chase_timer g; waypoints := waypoints g;
     num_waypoints := num_waypoints g;
     current_waypoint := current_waypoint g |}.

Definition set_num (g : monster_guard_data) (n : Z) : monster_guard_data :=
  {| guard_state := guard_state g; patrol_type := patrol_type g;
     home_y := home_y g; home_x := home_x g; alert_y := alert_y g;
     alert_x := alert_x g; chase_timer := chase_timer g;
     waypoints := waypoints g; num_waypoints := n;
     current_waypoint := current_waypoint g |}.

(** The body of the loop of [setup_monster_patrol] for the waypoint [i]:
    a point at a random distance in the direction [i * 256 / n], or home
    when that point is out of bounds or not floor. *)
Definition route_step (w : world) (m_idx : Z)
    (st : level * monster_guard_data) (i : Z) : level * monster_guard_data :=
  let (L, guard) := st in
  let angle := Z.quot (i * 256) (num_waypoints guard) in
  let (r, L1) := rand_int (PATROL_RADIUS - 2) L in
  let dist := 3 + r in
  let y := home_y guard + Z.quot (dist * sind angle) 256 in
  let x := home_x guard + Z.quot (dist * cosd angle) 256 in
  let (r', L2) := rand_int PATROL_REST_TURNS L1 in
  let g1 := set_waypoint guard i
              {| wp_y := y; wp_x := x; wait_turns := 5 + r' |} in
  if negb (in_bounds y x) ||
     negb (cave_floor_bold (put_guard (with_lev w L2) m_idx g1) y x)
  then (L2, set_waypoint g1 i
              {| wp_y := home_y guard; wp_x := home_x guard;
                 wait_turns := 5 + r' |})
  else (L2, g1).

(** [setup_monster_patrol(m_idx, type)] *)
Definition setup_monster_patrol (w : world) (m_idx : Z) (type : patrol_type_t)
    : world :=
  let m_ptr := m_list w m_idx in
  let (w0, guard0) := alloc_guard_data w m_idx in
  let guard :=
    set_state (set_home (set_type guard0 type) (fy m_ptr) (fx m_ptr))
              GUARD_STATE_PATROL in
  match type with
  | PATROL_TYPE_CIRCUIT | PATROL_TYPE_BACKFORTH =>
      let (r, L1) := rand_int 4 (lev w0) in
      let g1 := set_num guard (4 + r) in
      let (L2, g2) :=
        fold_left (route_step w0 m_idx) (zupto 0 (num_waypoints g1))
                  (L1, g1) in
      put_guard (with_lev w0 L2) m_idx g2
  | PATROL_TYPE_RANDOM => put_guard w0 m_idx (set_num guard 0)
  | PATROL_TYPE_STATIONARY =>
      put_guard w0 m_idx
        (set_state
           (set_waypoint (set_num guard 1) 0
              {| wp_y := home_y guard; wp_x := home_x guard;
                 wait_turns := 0 |})
           GUARD_STATE_GUARD)
  end.

(** [monster_is_guarding] *)
Definition monster_is_guarding (w : world) (m_idx : Z) : bool :=
  match m_guard w m_idx with
  | None => false
  | Some guard =>
      match guard_state guard with
      | GUARD_STATE_GUARD | GUARD_STATE_SLEEP => true
      | _ => false
      end
  end.

(** [monster_spotted_target(m_idx, ty, tx)] *)
Definition monster_spotted_target (w : world) (m_idx ty tx : Z) : world :=
  match m_guard w m_idx with
  | None => w
  | Some guard =>
      let g := set_timer (set_alert (set_state guard GUARD_STATE_CHASE) ty tx)
                         GUARD_CHASE_TIMEOUT in
      alert_nearby_guards (fy (m_list w m_idx)) (fx (m_list w m_idx))
                          GUARD_ALERT_RADIUS (put_guard w m_idx g)
  end.

(** A waypoint of a route is in order when it is the home of the guard or
    a floor grid in bounds. *)
Definition waypoint_ok (w : world) (g : monster_guard_data) (i : Z) : Prop :=
  (wp_y (waypoints g i) = home_y g /\ wp_x (waypoints g i) = home_x g) \/
  (in_bounds (wp_y (waypoints g i)) (wp_x (waypoints g i)) = true /\
   cave_floor_bold w (wp_y (waypoints g i)) (wp_x (waypoints g i)) = true).

(** The floor test looks at the features of the level only. *)
Definition floor_by_feat : Prop :=
  forall w w' y x,
    cave_feat (lev w') = cave_feat (lev w) ->
    cave_floor_bold w' y x = cave_floor_bold w y x.


End Patrol_setup.

(** ** generate.c: what the tunnelers keep *)

Section Tunnel_keep.
Context {D : Defines} {R : ZRand}.

(** The three features that both tunnelers refuse to enter: the border
    of the dungeon, the border of a vault and the solid walls of rooms. *)
Definition protected_feat (f : Z) : bool :=
  (f =? FEAT_PERM_SOLID) || (f =? FEAT_PERM_OUTER) || (f =? FEAT_WALL_SOLID).

(** Every grid that holds a protected feature in [L0] holds the same
    feature in [L]. *)
Definition keeps_protected (L0 L : level) : Prop :=
  forall y x,
    protected_feat (cave_feat L0 y x) = true ->
    cave_feat L y x = cave_feat L0 y x.

(** The grid [(y, x)] is an entry of the array [l]. *)
Definition listed (l : list (Z * Z)) (y x : Z) : bool :=
  existsb (fun p => (fst p =? y) && (snd p =? x)) l.

(** The tunneler a step of the loop ends with. *)
Definition flow_tunneler (f : flow) : tunneler :=
  match f with Next t => t | Stop t => t end.

(** What holds of the straight tunneler all along its loop, [L0] being
    the level it started from: protected grids are as they were, so are
    the grids off the inner area that were no outer wall, and the grids
    recorded for the corridor and the piercings were not protected, lie
    in the inner area, and fit their arrays. *)
Definition tunnel_inv (L0 : level) (t : tunneler) : Prop :=
  keeps_protected L0 (t_lev t) /\
  (forall y x, in_bounds_fully y x = false ->
     cave_feat L0 y x <> FEAT_WALL_OUTER ->
     cave_feat (t_lev t) y x = cave_feat L0 y x) /\
  (forall p, In p (tunn (t_dun t)) \/ In p (wall (t_dun t)) ->
     protected_feat (cave_feat L0 (fst p) (snd p)) = false /\
     in_bounds_fully (fst p) (snd p) = true) /\
  Z.of_nat (length (tunn (t_dun t))) <= TUNN_MAX /\
  Z.of_nat (length (wall (t_dun t))) <= WALL_MAX.

(** What holds of the winding tunneler all along its loop: the features
    are those of the start, and the grids recorded hold no protected
    feature. *)
Definition winding_inv (L0 : level) (t : tunneler) : Prop :=
  cave_feat (t_lev t) = cave_feat L0 /\
  (forall p, In p (tunn (t_dun t)) \/ In p (wall (t_dun t)) ->
     protected_feat (cave_feat L0 (fst p) (snd p)) = false).

End Tunnel_keep.

(** ** generate.c: the grids a pass may write *)

Section Pass_frames.
Context {D : Defines} {R : ZRand}.

(** No grid of the level is a naked floor grid. *)
Definition no_naked_floor (L : level) : Prop :=
  forall y x, in_bounds y x = true -> cave_naked_bold L y x = false.

(** What a pass that only adds cover has done to the grid [(y, x)]:
    nothing, or, the grid having been naked floor, given it a record at
    full durability together with the feature of the record. *)
Definition covered_or_same (L L' : level) (y x : Z) : Prop :=
  (cave_feat L' y x = cave_feat L y x /\
   cave_cover L' y x = cave_cover L y x) \/
  (cave_naked_bold L y x = true /\ in_bounds y x = true /\
   exists c, cave_cover L' y x = Some c /\
             durability c = max_durability c /\
             cave_feat L' y x = terrain_feat c).

End Pass_frames.

(** ** generate.c: the place of the player, streamers and the plasma *)

Section Passes.
Context {D : Defines} {R : ZRand}.

(** The flag of the grids of a vault, and the three direction tables of
    tables.c that [build_streamer] reads, indexed as the arrays are. *)
Variable CAVE_ICKY : Z.
Variable ddd : Z -> Z.
Variable ddy : Z -> Z.
Variable ddx : Z -> Z.





Definition DUN_STR_DEN : Z := 5.
Definition DUN_STR_RNG : Z := 2.

(** "Pick a nearby grid": draws until the grid is in bounds. *)
Fixpoint streamer_pick (fuel : nat) (y x d : Z) (L : level)
    : option (Z * Z * level) :=
  match fuel with
  | O => None
  | S fuel' =>
      let (ty, L1) := rand_spread y d L in
      let (tx, L2) := rand_spread x d L1 in
      if negb (in_bounds ty tx) then streamer_pick fuel' y x d L2
      else Some (ty, tx, L2)
  end.

(** The body of the loop "One grid per density" of [build_streamer]. *)
Definition streamer_grid (fuel : nat) (feat chance y x : Z)
    (o : option level) (i : Z) : option level :=
  match o with
  | None => None
  | Some L =>
      match streamer_pick fuel y x DUN_STR_RNG L with
      | None => None
      | Some (ty, tx, L1) =>
          if cave_feat L1 ty tx <? FEAT_WALL_EXTRA then Some L1
          else if cave_feat L1 ty tx >? FEAT_WALL_SOLID then Some L1
          else
            let L2 := put_feat L1 ty tx feat in
            let (r, L3) := rand_int chance L2 in
            if r =? 0
            then Some (put_feat L3 ty tx (cave_feat L3 ty tx + 4))
            else Some L3
      end
  end.

(** The loop "Place streamer into dungeon", [n] being the number of
    steps that [max_len] still allows. *)
Fixpoint streamer_loop (n fuel : nat) (feat chance dir y x : Z) (L : level)
    : option level :=
  match n with
  | O => Some L
  | S n' =>
      match fold_left (streamer_grid fuel feat chance y x)
                      (zupto 0 DUN_STR_DEN) (Some L) with
      | None => None
      | Some L1 =>
          let y' := y + ddy dir in
          let x' := x + ddx dir in
          if negb (in_bounds y' x') then Some L1
          else streamer_loop n' fuel feat chance dir y' x' L1
      end
  end.

(** [build_streamer(feat, chance, max_len)] *)
Definition build_streamer (fuel : nat) (feat chance max_len : Z) (L : level)
    : option level :=
  let (y, L1) := rand_range 1 (DUNGEON_HGT - 2) L in
  let (x, L2) := rand_range 1 (DUNGEON_WID - 2) L1 in
  let (i, L3) := rand_int 8 L2 in
  streamer_loop (Z.to_nat max_len) fuel feat chance (ddd i) y x L3.

(** The granite walls, which are the grids a streamer converts. *)
Definition granite (f : Z) : bool :=
  (FEAT_WALL_EXTRA <=? f) && (f <=? FEAT_WALL_SOLID).

(** "Normalize": a height is kept between 0 and [depth_max]. *)
Definition normalize (depth_max avg : Z) : Z :=
  let avg := if avg <? 0 then 0 else avg in
  if avg >? depth_max then depth_max else avg.

(** [perturb_point_mid]: the mean of four heights, rounded and moved by
    a random amount of at most [rough]. *)
Definition perturb_point_mid (x1 x2 x3 x4 xmid ymid rough depth_max : Z)
    (L : level) : level :=
  let tmp2 := rough * 2 + 1 in
  let (r, L1) := randint tmp2 L in
  let tmp := r - (rough + 1) in
  let avg := Z.quot (x1 + x2 + x3 + x4) 4 + tmp in
  let avg := if Z.rem (x1 + x2 + x3 + x4) 4 >? 1 then avg + 1 else avg in
  put_feat L1 ymid xmid (normalize depth_max avg).

(** [perturb_point_end]: the same for three heights. *)
Definition perturb_point_end (x1 x2 x3 xmid ymid rough depth_max : Z)
    (L : level) : level :=
  let tmp2 := rough * 2 + 1 in
  let (r, L1) := randint tmp2 L in
  let tmp := r - (rough + 1) in
  let avg := Z.quot (x1 + x2 + x3) 3 + tmp in
  let avg := if negb (Z.rem (x1 + x2 + x3) 3 =? 0) then avg + 1 else avg in
  put_feat L1 ymid xmid (normalize depth_max avg).

(** [plasma_recursive]; the fuel bounds the depth of the recursion, for
    which the C function has no bound of its own. *)
Fixpoint plasma_recursive (fuel : nat) (x1 y1 x2 y2 depth_max rough : Z)
    (L : level) : option level :=
  match fuel with
  | O => None
  | S fuel' =>
      let xmid := Z.quot (x2 - x1) 2 + x1 in
      let ymid := Z.quot (y2 - y1) 2 + y1 in
      if x1 + 1 =? x2 then Some L
      else
        let L1 := perturb_point_mid (cave_feat L y1 x1) (cave_feat L y2 x1)
                    (cave_feat L y1 x2) (cave_feat L y2 x2) xmid ymid rough
                    depth_max L in
        let L2 := perturb_point_end (cave_feat L1 y1 x1) (cave_feat L1 y1 x2)
                    (cave_feat L1 ymid xmid) xmid y1 rough depth_max L1 in
        let L3 := perturb_point_end (cave_feat L2 y1 x2) (cave_feat L2 y2 x2)
                    (cave_feat L2 ymid xmid) x2 ymid rough depth_max L2 in
        let L4 := perturb_point_end (cave_feat L3 y2 x2) (cave_feat L3 y2 x1)
                    (cave_feat L3 ymid xmid) xmid y2 rough depth_max L3 in
        let L5 := perturb_point_end (cave_feat L4 y2 x1) (cave_feat L4 y1 x1)
                    (cave_feat L4 ymid xmid) x1 ymid rough depth_max L4 in
        match plasma_recursive fuel' x1 y1 xmid ymid depth_max rough L5 with
        | None => None
        | Some L6 =>
            match plasma_recursive fuel' xmid y1 x2 ymid depth_max rough L6
            with
            | None => None
            | Some L7 =>
                match plasma_recursive fuel' x1 ymid xmid y2 depth_max rough
                        L7 with
                | None => None
                | Some L8 =>
                    plasma_recursive fuel' xmid ymid x2 y2 depth_max rough L8
                end
            end
        end
  end.

(** What the plasma may have done to a level: a grid is as it was, or it
    lies in the rectangle and holds a height between 0 and
    [depth_max]. *)
Definition plasma_ok (x1 y1 x2 y2 depth_max : Z) (L L' : level) : Prop :=
  cave_info L' = cave_info L /\
  forall y x,
    cave_feat L' y x = cave_feat L y x \/
    (x1 <= x <= x2 /\ y1 <= y <= y2 /\ 0 <= cave_feat L' y x <= depth_max).

End Passes.

(** ** generate.c: the terrain tables *)

Section Terrain_tables.
Context {D : Defines}.

(** The codes of the wilderness terrains that defines.h gives besides
    FEAT_SHRUB and FEAT_TREES. *)
Variable FEAT_DEEP_WATER : Z.
Variable FEAT_SHAL_WATER : Z.
Variable FEAT_MUD : Z.
Variable FEAT_SWAMP : Z.
Variable FEAT_GRASS : Z.
Variable FEAT_ROCKY_HILL : Z.
Variable FEAT_MOUNTAIN : Z.

(** [terrain_table[type][i]]: the normal table and the watery one. *)
Definition terrain_table (type i : Z) : Z :=
  nth (Z.to_nat i)
    (if type =? 0 then
       [FEAT_DEEP_WATER; FEAT_DEEP_WATER; FEAT_DEEP_WATER; FEAT_DEEP_WATER;
        FEAT_SHAL_WATER; FEAT_SHAL_WATER; FEAT_SHAL_WATER; FEAT_SHAL_WATER;
        FEAT_SHAL_WATER;
        FEAT_MUD; FEAT_MUD;
        FEAT_SWAMP; FEAT_SWAMP;
        FEAT_GRASS; FEAT_GRASS; FEAT_GRASS;
        FEAT_SHRUB; FEAT_SHRUB;
        FEAT_TREES; FEAT_TREES;
        FEAT_ROCKY_HILL;
        FEAT_MOUNTAIN]
     else
       [FEAT_DEEP_WATER; FEAT_DEEP_WATER; FEAT_DEEP_WATER; FEAT_DEEP_WATER;
        FEAT_DEEP_WATER; FEAT_DEEP_WATER; FEAT_DEEP_WATER; FEAT_DEEP_WATER;
        FEAT_DEEP_WATER;
        FEAT_SHAL_WATER; FEAT_SHAL_WATER; FEAT_SHAL_WATER; FEAT_SHAL_WATER;
        FEAT_MUD; FEAT_MUD; FEAT_MUD;
        FEAT_SWAMP; FEAT_SWAMP; FEAT_SWAMP;
        FEAT_GRASS; FEAT_GRASS;
        FEAT_SHRUB]) 0.

(** [table_backwards(feat, type)] *)
Definition table_backwards (feat type : Z) : Z :=
  if type =? 0 then
    if feat =? FEAT_DEEP_WATER then 0
    else if feat =? FEAT_SHAL_WATER then 4
    else if feat =? FEAT_MUD then 9
    else if feat =? FEAT_SWAMP then 11
    else if feat =? FEAT_GRASS then 13
    else if feat =? FEAT_SHRUB then 16
    else if feat =? FEAT_TREES then 18
    else if feat =? FEAT_ROCKY_HILL then 20
    else if feat =? FEAT_MOUNTAIN then 21
    else 11
  else if type =? 1 then
    if feat =? FEAT_DEEP_WATER then 0
    else if feat =? FEAT_SHAL_WATER then 9
    else if feat =? FEAT_MUD then 13
    else if feat =? FEAT_SWAMP then 16
    else if feat =? FEAT_GRASS then 19
    else if feat =? FEAT_SHRUB then 21
    else 11
  else 11.

(** The nine terrains have nine codes, as the labels of a [switch]
    must. *)
Definition terrain_codes_distinct : Prop :=
  NoDup [FEAT_DEEP_WATER; FEAT_SHAL_WATER; FEAT_MUD; FEAT_SWAMP; FEAT_GRASS;
         FEAT_SHRUB; FEAT_TREES; FEAT_ROCKY_HILL; FEAT_MOUNTAIN].

End Terrain_tables.

(** ** generate.c: the blocks of the rooms and the sector map *)

(** [room_data]: the size of a room in blocks, and its minimum level. *)
Record room_data : Type := mk_room {
  dy1 : Z;
  dy2 : Z;
  dx1 : Z;
  dx2 : Z;
  r_level : Z
}.

(** The fields of [dun_data] that [room_build] reads and writes besides
    the centres: the numbers of blocks, the blocks in use, and the flag
    of a pit or nest. *)
Record blocks : Type := mk_blocks {
  row_rooms : Z;
  col_rooms : Z;
  room_map : grid bool;
  crowded : bool
}.

(** The sectors of defines.h, by their names. *)
Inductive sector : Type :=
  | SECTOR_RUINS | SECTOR_CAVERN | SECTOR_PLAZA | SECTOR_DARK
  | SECTOR_HILL | SECTOR_PIT | SECTOR_CLIFF.

Section Rooms.
Context {D : Defines} {R : ZRand}.

(** The size of a block, of defines.h, and the builders of the rooms:
    [build_room typ y x] is the [build_type] function that the [switch]
    of [room_build] calls for [typ]. *)
Variable BLOCK_HGT : Z.
Variable BLOCK_WID : Z.
Variable build_room : Z -> Z -> Z -> level -> level.

Definition CENT_MAX : Z := 1000.

(** [room[ROOM_MAX]], "Array of room types (assumes 11x11 blocks)" *)
Definition room (typ : Z) : room_data :=
  nth (Z.to_nat typ)
    [ mk_room 0 0 0 0 0;
      mk_room 0 0 (-1) 1 1;
      mk_room 0 0 (-1) 1 1;
      mk_room 0 0 (-1) 1 3;
      mk_room 0 0 (-1) 1 3;
      mk_room 0 0 (-1) 1 5;
      mk_room 0 0 (-1) 1 5;
      mk_room 0 1 (-1) 1 5;
      mk_room (-1) 2 (-2) 3 10;
      mk_room (-1) 2 (-2) 3 5;
      mk_room (-1) 2 (-2) 3 40;
      mk_room (-1) 3 (-3) 3 30;
      mk_room (-2) 2 (-2) 2 1;
      mk_room (-2) 2 (-2) 2 1;
      mk_room (-2) 2 (-2) 2 1;
      mk_room 0 0 0 0 0;
      mk_room 0 0 0 0 0;
      mk_room 0 0 (-1) 1 10;
      mk_room 0 0 (-1) 1 10;
      mk_room 0 0 0 0 0 ]
    (mk_room 0 0 0 0 0).

(** The types for which the [switch] of [room_build] has a builder; the
    others take the [default] and return FALSE. *)
Definition buildable (typ : Z) : bool :=
  existsb (Z.eqb typ) [18; 17; 14; 13; 12; 11; 10; 8; 7; 9; 6; 5; 4; 3; 2; 1].

Definition with_cent (d : dun_data) (l : list (Z * Z)) : dun_data :=
  {| cent := l; door := door d; wall := wall d; tunn := tunn d |}.

(** "Verify open space": some block of the rectangle is in use. *)
Definition blocks_used (m : grid bool) (y1 y2 x1 x2 : Z) : bool :=
  existsb (fun y => existsb (fun x => m y x) (zupto x1 (x2 + 1)))
          (zupto y1 (y2 + 1)).

(** "Reserve some blocks" *)
Definition reserve (m : grid bool) (y1 y2 x1 x2 : Z) : grid bool :=
  fold_left
    (fun m1 y => fold_left (fun m2 x => gset m2 y x true)
                           (zupto x1 (x2 + 1)) m1)
    (zupto y1 (y2 + 1)) m.

(** [room_build(y0, x0, typ)]: the result, and the level, the arrays and
    the blocks after the call. *)
Definition room_build (y0 x0 typ : Z) (st : level * dun_data * blocks)
    : bool * (level * dun_data * blocks) :=
  let '(L, d, b) := st in
  if depth L <? r_level (room typ) then (false, st)
  else if crowded b && ((typ =? 5) || (typ =? 6)) then (false, st)
  else
    let y1 := y0 + dy1 (room typ) in
    let y2 := y0 + dy2 (room typ) in
    let x1 := x0 + dx1 (room typ) in
    let x2 := x0 + dx2 (room typ) in
    if (y1 <? 0) || (y2 >=? row_rooms b) then (false, st)
    else if (x1 <? 0) || (x2 >=? col_rooms b) then (false, st)
    else if blocks_used (room_map b) y1 y2 x1 x2 then (false, st)
    else
      let y := Z.quot ((y1 + y2 + 1) * BLOCK_HGT) 2 in
      let x := Z.quot ((x1 + x2 + 1) * BLOCK_WID) 2 in
      if negb (buildable typ) then (false, st)
      else
        let L1 := build_room typ y x L in
        let d1 := with_cent d (push CENT_MAX (cent d) y x) in
        let b1 := {| row_rooms := row_rooms b;
                     col_rooms := col_rooms b;
                     room_map := reserve (room_map b) y1 y2 x1 x2;
                     crowded := if (typ =? 5) || (typ =? 6) then true
                                else crowded b |} in
        (true, (L1, d1, b1)).

(** [for (y = 0; y < hi; y += 2)] *)
Definition zstep2 (hi : Z) : list Z := filter Z.even (zupto 0 hi).

(** The chain of tests of [cave_gen] on the roll of a sector. *)
Definition sector_of_roll (dep roll : Z) : sector :=
  if roll <? Z.quot dep 2 then SECTOR_CAVERN
  else if roll <? 10 then SECTOR_PLAZA
  else if roll <? 20 then SECTOR_DARK
  else if roll <? 40 + Z.quot dep 4 then SECTOR_HILL
  else if roll <? 45 + Z.quot dep 5 then SECTOR_PIT
  else if roll <? 50 + Z.quot dep 6 then SECTOR_CLIFF
  else SECTOR_RUINS.

(** "Assign to 2x2 block": the block at [(y, x)] and those of its three
    neighbours that exist. *)
Definition assign_block {A : Type} (rr cc y x : Z) (v : A) (g : grid A)
    : grid A :=
  let g1 := gset g y x v in
  let g2 := if y + 1 <? rr then gset g1 (y + 1) x v else g1 in
  let g3 := if x + 1 <? cc then gset g2 y (x + 1) v else g2 in
  if (y + 1 <? rr) && (x + 1 <? cc) then gset g3 (y + 1) (x + 1) v else g3.

(** The body of the loops "Initialize Sector Map"; [cave_sector] is
    carried beside the level. *)
Definition sector_block (rr cc y : Z) (st : level * grid sector) (x : Z)
    : level * grid sector :=
  let (L, cs) := st in
  let (roll, L1) := rand_int 100 L in
  let sect_type := sector_of_roll (depth L1) roll in
  (L1, assign_block rr cc y x sect_type cs).

Definition init_sector_map (rr cc : Z) (st : level * grid sector)
    : level * grid sector :=
  fold_left (fun st1 y => fold_left (sector_block rr cc y) (zstep2 cc) st1)
            (zstep2 rr) st.

(** The state of the sector map while it is filled: the level is the
    cave [L0], and in every 2x2 group of blocks whose corner is in
    [done] the blocks hold the sector of the corner, which is no plaza
    from depth 20 and no dark sector from depth 40. *)
Definition sectors_inv (rr cc : Z) (L0 : level) (done : Z -> Z -> Prop)
    (st : level * grid sector) : Prop :=
  same_cave L0 (fst st) /\
  forall y x, 0 <= y < rr -> 0 <= x < cc ->
    done (y - Z.rem y 2) (x - Z.rem x 2) ->
    snd st y x = snd st (y - Z.rem y 2) (x - Z.rem x 2) /\
    (20 <= depth L0 -> snd st y x <> SECTOR_PLAZA) /\
    (40 <= depth L0 -> snd st y x <> SECTOR_DARK).

End Rooms.

(** ** Concrete tables and levels on which the model is run *)

(** A table of codes for running the model.  The classical features carry
    the codes of Angband 2.8 (floor 1, stairs 6 and 7, rubble 49, granite
    56..59, permanent rock 60..63); the features, tiers and tunables this
    game adds were given codes of their own.  The direction table is the
    one of Angband (S, N, E, W, SE, SW, NE, NW), whose first four entries
    are the cardinal directions that [rand_dir] draws from, and
    [distance] is the larger offset plus half the smaller. *)
Definition sample_defines : Defines := {|
  DUNGEON_HGT := 66;
  DUNGEON_WID := 198;
  MAX_DEPTH := 128;
  FEAT_NONE := 0;
  FEAT_FLOOR := 1;
  FEAT_LESS := 6;
  FEAT_MORE := 7;
  FEAT_SHAFT := 8;
  FEAT_DREAM_EXIT := 9;
  FEAT_UNSEEN := 10;
  FEAT_OPEN := 4;
  FEAT_BROKEN := 5;
  FEAT_DOOR_HEAD := 32;
  FEAT_SECRET := 48;
  FEAT_RUBBLE := 49;
  FEAT_WALL_EXTRA := 56;
  FEAT_WALL_INNER := 57;
  FEAT_WALL_OUTER := 58;
  FEAT_WALL_SOLID := 59;
  FEAT_PERM_INNER := 61;
  FEAT_PERM_OUTER := 62;
  FEAT_PERM_SOLID := 63;
  FEAT_TREES := 20;
  FEAT_FALLEN_TREE := 21;
  FEAT_TALL_GRASS := 22;
  FEAT_REEDS := 23;
  FEAT_SHRUB := 24;
  FEAT_FOG := 25;
  FEAT_FOG_DENSE := 26;
  FEAT_SMOKE := 27;
  FEAT_CHAOS_FOG := 28;
  FEAT_BOULDER := 29;
  FEAT_CRATE := 30;
  FEAT_BARREL := 31;
  FEAT_STONE_PILLAR := 32;
  CAVE_ROOM := 2;
  SPECIAL_WILD := 1;
  SPECIAL_QUEST := 2;
  SPECIAL_DREAM := 3;
  COVER_NONE := 0;
  COVER_LIGHT := 1;
  COVER_MEDIUM := 2;
  COVER_HEAVY := 3;
  COVER_TOTAL := 4;
  COVER_ABSORB_LIGHT := 25;
  COVER_ABSORB_MEDIUM := 50;
  COVER_ABSORB_HEAVY := 75;
  COVER_ABSORB_TOTAL := 100;
  COVER_DURABILITY_BOULDER := 100;
  COVER_DURABILITY_WALL := 200;
  COVER_DURABILITY_TREE := 60;
  COVER_STEALTH_LIGHT := 1;
  COVER_STEALTH_MEDIUM := 2;
  COVER_STEALTH_HEAVY := 3;
  RF1_FRIENDS := 128;
  RF2_SMART := 2;
  GUARD_CHASE_TIMEOUT := 20;
  GUARD_ALERT_RADIUS := 10;
  PATROL_RADIUS := 8;
  PATROL_REST_TURNS := 10;
  ddy_ddd := fun d =>
    nth (Z.to_nat d) [1; -1; 0; 0; 1; 1; -1; -1] 0;
  ddx_ddd := fun d =>
    nth (Z.to_nat d) [0; 0; 1; -1; 1; -1; 1; -1] 0;
  distance := fun y1 x1 y2 x2 =>
    let dy := Z.abs (y1 - y2) in
    let dx := Z.abs (x1 - x2) in
    if dy >? dx then dy + dx / 2 else dx + dy / 2
|}.

(** A generator for running the model: both modes step a linear
    congruence on 32 bits and take the high bits of the new value. *)
Definition sample_lcg (v : Z) : Z := (v * 1103515245 + 12345) mod 4294967296.

Definition sample_zrand : ZRand := {|
  stable := Z;
  Rand_div_stable := fun s m => ((sample_lcg s / 65536) mod m, sample_lcg s);
  Rand_div_quick := fun v m => ((sample_lcg v / 65536) mod m, sample_lcg v)
|}.

Section Samples.
#[local] Existing Instance sample_defines.
#[local] Existing Instance sample_zrand.

(** A level of depth 5: the ring is permanent rock and, inside it, the
    grids with both coordinates odd are floor in a field of granite.  The
    generator is in stable mode at state [seed]. *)
Definition sample_level (seed : Z) : level := {|
  cave_feat := fun y x =>
    if on_ring y x then FEAT_PERM_SOLID
    else if Z.odd y && Z.odd x then FEAT_FLOOR else FEAT_WALL_EXTRA;
  cave_info := fun _ _ => 0;
  cave_o_idx := fun _ _ => 0;
  cave_m_idx := fun _ _ => 0;
  cave_cover := fun _ _ => None;
  rand := {| Rand_quick := false; Rand_value := 0; Rand_state := seed |};
  depth := 5;
  inside_special := 0
|}.

(** The spell routines of the sample leave the level as it is. *)
Definition sample_spells : Spells := {|
  fire_ball := fun _ _ _ _ L => L;
  fire_explosion := fun _ _ _ _ _ L => L;
  GF_FIRE := 5
|}.

(** An open floor with the listed features [(y, x, feat)] put on it. *)
Definition sample_floor (cells : list (Z * Z * Z)) : level := {|
  cave_feat := fun y x =>
    match find (fun c => (fst (fst c) =? y) && (snd (fst c) =? x)) cells with
    | Some c => snd c
    | None => FEAT_FLOOR
    end;
  cave_info := fun _ _ => 0;
  cave_o_idx := fun _ _ => 0;
  cave_m_idx := fun _ _ => 0;
  cave_cover := fun _ _ => None;
  rand := {| Rand_quick := false; Rand_value := 0; Rand_state := 1 |};
  depth := 5;
  inside_special := 0
|}.

(** The target stands at (10,5) inside a ring of eight stone pillars; the
    attacker shoots from (0,5). *)
Definition sample_pillars : level :=
  sample_floor [(9, 4, FEAT_STONE_PILLAR); (9, 5, FEAT_STONE_PILLAR);
                (9, 6, FEAT_STONE_PILLAR); (10, 4, FEAT_STONE_PILLAR);
                (10, 6, FEAT_STONE_PILLAR); (11, 4, FEAT_STONE_PILLAR);
                (11, 5, FEAT_STONE_PILLAR); (11, 6, FEAT_STONE_PILLAR)].

(** One grid of [feat] at (5,5), half way between (0,5) and (10,5). *)
Definition sample_cloud (feat : Z) : level := sample_floor [(5, 5, feat)].

(** A room under granite: row 5 is the outer wall of the room, rows 6 to
    10 are its floor, flagged ROOM, and the rest inside the ring is
    granite.  The generator is in stable mode at state [seed]. *)
Definition sample_room (seed : Z) : level := {|
  cave_feat := fun y x =>
    if on_ring y x then FEAT_PERM_SOLID
    else if y =? 5 then FEAT_WALL_OUTER
    else if (6 <=? y) && (y <=? 10) then FEAT_FLOOR
    else FEAT_WALL_EXTRA;
  cave_info := fun y x =>
    if (6 <=? y) && (y <=? 10) && negb (on_ring y x) then CAVE_ROOM else 0;
  cave_o_idx := fun _ _ => 0;
  cave_m_idx := fun _ _ => 0;
  cave_cover := fun _ _ => None;
  rand := {| Rand_quick := false; Rand_value := 0; Rand_state := seed |};
  depth := 5;
  inside_special := 0
|}.

Definition empty_dun : dun_data :=
  {| cent := []; door := []; wall := []; tunn := [] |}.

(** A guard in state CHASE whose timer has run out: monster 1 stands at
    (3,3), the player was last seen at [(ay, ax)]. *)
Definition sample_chaser (ay ax : Z) : world := {|
  lev := sample_floor [];
  m_list := fun _ => {| r_idx := 1; fy := 3; fx := 3 |};
  m_max := 2;
  m_guard := fun i =>
    if i =? 1 then
      Some {| guard_state := GUARD_STATE_CHASE;
              patrol_type := PATROL_TYPE_CIRCUIT;
              home_y := 3; home_x := 3; alert_y := ay; alert_x := ax;
              chase_timer := 0;
              waypoints := fun _ => {| wp_y := 3; wp_x := 3;
                                       wait_turns := 5 |};
              num_waypoints := 4; current_waypoint := 0 |}
    else None;
  r_info := fun _ => {| flags1 := 0; flags2 := 0; aaf := 20 |};
  py := 20; px := 20; skill_stl := 3
|}.

(** The player is out of sight of every grid. *)
Definition sample_no_los : world -> Z -> Z -> bool := fun _ _ _ => false.

Definition sample_floor_bold : world -> Z -> Z -> bool :=
  fun w y x => cave_feat (lev w) y x =? FEAT_FLOOR.

(** The move of a monster, for the sample: the monster that stands on the
    first grid gets the coordinates of the second. *)
Definition sample_swap : world -> Z -> Z -> Z -> Z -> world :=
  fun w y1 x1 y2 x2 =>
    {| lev := lev w;
       m_list := fun i =>
         if (fy (m_list w i) =? y1) && (fx (m_list w i) =? x1)
         then {| r_idx := r_idx (m_list w i); fy := y2; fx := x2 |}
         else m_list w i;
       m_max := m_max w; m_guard := m_guard w; r_info := r_info w;
       py := py w; px := px w; skill_stl := skill_stl w |}.

(** The walker at (4,5) of the sample room, heading down. *)
Definition sample_walker : tunneler :=
  {| t_lev := sample_room 3; t_dun := empty_dun; t_row := 4; t_col := 5;
     t_door_flag := false |}.

(** One room centre, at (8,9). *)
Definition sample_dun : dun_data :=
  {| cent := [(8, 9)]; door := []; wall := []; tunn := [] |}.

End Samples.

Section Cover_more_samples.
#[local] Existing Instance sample_defines.
#[local] Existing Instance sample_zrand.

(** A boulder record worn down to 30 of 100 points, on the grid (3,4). *)
Definition sample_worn : level :=
  put_cover (sample_floor [(3, 4, FEAT_BOULDER)]) 3 4
    (Some {| durability := 30; max_durability := 100;
             cover_type := COVER_MEDIUM; terrain_feat := FEAT_BOULDER |}).

End Cover_more_samples.

Section Patrol_more_samples.
#[local] Existing Instance sample_defines.
#[local] Existing Instance sample_zrand.

(** Sine and cosine of the sample: the four cardinal directions only. *)
Definition sample_sind (angle : Z) : Z :=
  if angle <? 32 then 0 else if angle <? 96 then 256
  else if angle <? 160 then 0 else if angle <? 224 then -256 else 0.

Definition sample_cosd (angle : Z) : Z :=
  if angle <? 32 then 256 else if angle <? 96 then 0
  else if angle <? 160 then -256 else if angle <? 224 then 0 else 256.

(** A guard in the given state and with the given route type, monster 1
    at (3,3) on open floor; the player stands at (20,20). *)
Definition sample_guard (st : guard_state_t) (ty : patrol_type_t)
    (current : Z) : world := {|
  lev := sample_floor [];
  m_list := fun _ => {| r_idx := 1; fy := 3; fx := 3 |};
  m_max := 3;
  m_guard := fun i =>
    if (i =? 1) || (i =? 2) then
      Some {| guard_state := st; patrol_type := ty;
              home_y := 3; home_x := 3; alert_y := 7; alert_x := 7;
              chase_timer := 5;
              waypoints := fun _ => {| wp_y := 5; wp_x := 5;
                                       wait_turns := 5 |};
              num_waypoints := 4; current_waypoint := current |}
    else None;
  r_info := fun _ => {| flags1 := 0; flags2 := 2; aaf := 20 |};
  py := 20; px := 20; skill_stl := 3
|}.

(** A guard record with a route of four waypoints, the index of the
    current one being [current]. *)
Definition sample_route (ty : patrol_type_t) (current : Z)
    : monster_guard_data :=
  {| guard_state := GUARD_STATE_PATROL; patrol_type := ty;
     home_y := 3; home_x := 3; alert_y := 0; alert_x := 0; chase_timer := 0;
     waypoints := fun _ => {| wp_y := 3; wp_x := 3; wait_turns := 5 |};
     num_waypoints := 4; current_waypoint := current |}.


End Patrol_more_samples.

Section Stairs_more_samples.
#[local] Existing Instance sample_defines.
#[local] Existing Instance sample_zrand.

(** The sample level at another depth and with another value of
    [inside_special]. *)
Definition sample_at (d special : Z) : level := {|
  cave_feat := cave_feat (sample_level 1);
  cave_info := cave_info (sample_level 1);
  cave_o_idx := cave_o_idx (sample_level 1);
  cave_m_idx := cave_m_idx (sample_level 1);
  cave_cover := cave_cover (sample_level 1);
  rand := rand (sample_level 1);
  depth := d;
  inside_special := special
|}.

End Stairs_more_samples.

Section Rooms_samples.
#[local] Existing Instance sample_defines.
#[local] Existing Instance sample_zrand.

(** The blocks of an empty level of 66x198 grids with blocks of 11x11. *)
Definition sample_blocks : blocks :=
  {| row_rooms := 6; col_rooms := 18; room_map := fun _ _ => false;
     crowded := false |}.

(** A builder that leaves the level alone. *)
Definition sample_builder (typ y x : Z) (L : level) : level := L.

End Rooms_samples.

(** ** Theorems *)

Section RLE_facts.
Import RLE.

Lemma zrange_In lo n i : In i (zrange lo n) <-> lo <= i < lo + Z.of_nat n.
Proof.
  revert lo; induction n as [|n IH]; intros lo.
  - simpl. lia.
  - cbn [zrange In]. rewrite IH. lia.
Qed.

Lemma zupto_In lo hi i : In i (zupto lo hi) <-> lo <= i < hi.
Proof. unfold zupto. rewrite zrange_In. lia. Qed.

Lemma wr_row_map (row : Z -> Z) xs s0 :
  fold_left (fun s' x => wr_cell s' (row x)) xs s0 =
  fold_left wr_cell (map row xs) s0.
Proof.
  revert s0; induction xs as [|x xs IHx]; intros s0; cbn [fold_left map];
    [reflexivity|].
  apply IHx.
Qed.

(** The nested loops visit the cells in row-major order. *)
Lemma wr_scan_scan_order cave_info s0 :
  wr_scan cave_info s0 = fold_left wr_cell (scan_order cave_info) s0.
Proof.
  unfold wr_scan, scan_order.
  generalize (zupto 0 DUNGEON_HGT) as ys. intros ys. revert s0.
  induction ys as [|y ys IH]; intros s0; cbn [fold_left flat_map];
    [reflexivity|].
  rewrite fold_left_app, IH. now rewrite (wr_row_map (cave_info y)).
Qed.

Lemma scan_order_zero cave_info :
  (forall y x, 0 <= y < DUNGEON_HGT -> 0 <= x < DUNGEON_WID ->
               cave_info y x = 0) ->
  scan_order cave_info = repeat 0 100.
Proof.
  intros H. unfold scan_order.
  assert (E : forall y, In y (zupto 0 DUNGEON_HGT) ->
            map (cave_info y) (zupto 0 DUNGEON_WID) = repeat 0 10).
  { intros y Hy. apply zupto_In in Hy.
    transitivity (map (fun _ : Z => 0) (zupto 0 DUNGEON_WID)).
    - apply map_ext_in. intros x Hx. apply zupto_In in Hx. auto.
    - reflexivity. }
  transitivity (flat_map (fun _ : Z => repeat 0 10) (zupto 0 DUNGEON_HGT)).
  - revert E. generalize (zupto 0 DUNGEON_HGT) as ys.
    induction ys as [|y ys IH]; intros E; cbn [flat_map]; [reflexivity|].
    rewrite E by (left; reflexivity). f_equal. apply IH.
    intros y' Hy'. apply E. right; assumption.
  - reflexivity.
Qed.

(** C1. On the 10x10 grid whose cells are all zero, [wr_dungeon_sim] with
    the terminal flush enabled (fix = 1) writes exactly the two bytes
    (100, 0), and without it (fix = 0) writes no byte at all. *)
Theorem wr_dungeon_sim_all_zero (cave_info : grid Z) :
  (forall y x, 0 <= y < DUNGEON_HGT -> 0 <= x < DUNGEON_WID ->
               cave_info y x = 0) ->
  wr_dungeon_sim 1 cave_info = [100; 0] /\
  length (wr_dungeon_sim 1 cave_info) = 2%nat /\
  wr_dungeon_sim 0 cave_info = [] /\
  length (wr_dungeon_sim 0 cave_info) = 0%nat.
Proof.
  intros H. unfold wr_dungeon_sim.
  rewrite wr_scan_scan_order, (scan_order_zero _ H).
  vm_compute. repeat split.
Qed.

Lemma wr_dungeon_sim_all_zero_witness :
  let cave_info : grid Z := fun _ _ => 0 in
  wr_dungeon_sim 1 cave_info = [100; 0] /\
  length (wr_dungeon_sim 1 cave_info) = 2%nat /\
  wr_dungeon_sim 0 cave_info = [] /\
  length (wr_dungeon_sim 0 cave_info) = 0%nat.
Proof.
  intros cave_info. apply (wr_dungeon_sim_all_zero cave_info).
  intros; reflexivity.
Defined.

End RLE_facts.

(** ** The stair pass of cave_gen *)

Section Stairs_facts.
Context {D : Defines} {R : ZRand}.

Lemma zsum_ext f f' l :
  (forall i, In i l -> f' i = f i) -> zsum f' l = zsum f l.
Proof.
  induction l as [|a l IH]; intros E; simpl; [reflexivity|].
  rewrite E by (left; reflexivity). rewrite IH; [reflexivity|].
  intros i Hi. apply E. right; exact Hi.
Qed.

Lemma zsum_zrange_update f f' a d lo n :
  (forall i, i <> a -> f' i = f i) -> f' a = f a + d ->
  zsum f' (zrange lo n) =
  zsum f (zrange lo n) +
  (if (lo <=? a) && (a <? lo + Z.of_nat n) then d else 0).
Proof.
  intros Hne Ha. revert lo. induction n as [|n IH]; intros lo.
  - simpl. destruct (lo <=? a) eqn:E1, (a <? lo + 0) eqn:E2; simpl; lia.
  - cbn [zrange zsum fold_right]. fold (zsum f' (zrange (lo + 1) n)).
    fold (zsum f (zrange (lo + 1) n)). rewrite IH.
    destruct (Z.eq_dec lo a) as [->|Hlo].
    + rewrite Ha.
      replace ((a + 1 <=? a) && (a <? a + 1 + Z.of_nat n)) with false
        by (symmetry; apply andb_false_iff; left; lia).
      replace ((a <=? a) && (a <? a + Z.of_nat (S n))) with true
        by (symmetry; apply andb_true_iff; split; lia).
      lia.
    + rewrite (Hne lo Hlo).
      replace ((lo <=? a) && (a <? lo + Z.of_nat (S n)))
        with ((lo + 1 <=? a) && (a <? lo + 1 + Z.of_nat n)).
      * lia.
      * apply eq_true_iff_eq. rewrite !andb_true_iff. lia.
Qed.

Lemma in_bounds_spec y x :
  in_bounds y x = true <->
  0 <= y < DUNGEON_HGT /\ 0 <= x < DUNGEON_WID.
Proof. unfold in_bounds. rewrite !andb_true_iff. lia. Qed.

(** Writing [v] over a grid that does not hold [g] adds one to the count
    of [g] when [v] is [g] and the grid is in bounds, and nothing
    otherwise. *)
Lemma count_feat_put g L y x v :
  cave_feat L y x <> g ->
  count_feat g (put_feat L y x v) =
  count_feat g L + (if in_bounds y x && (v =? g) then 1 else 0).
Proof.
  intros Hold. unfold count_feat, put_feat, zupto. cbn [cave_feat with_feat].
  set (row := fun (c : grid Z) (y0 : Z) =>
    zsum (fun x0 => if c y0 x0 =? g then 1 else 0)
         (zrange 0 (Z.to_nat (DUNGEON_WID - 0)))).
  set (d := if (0 <=? x) && (x <? 0 + Z.of_nat (Z.to_nat (DUNGEON_WID - 0)))
            then (if v =? g then 1 else 0) else 0).
  rewrite (zsum_zrange_update (row (cave_feat L))
             (row (gset (cave_feat L) y x v)) y d).
  - subst d row. cbv beta. unfold in_bounds.
    destruct (0 <=? y) eqn:E1, (0 <=? x) eqn:E2, (y <? DUNGEON_HGT) eqn:E3,
             (x <? DUNGEON_WID) eqn:E4, (v =? g) eqn:E5; cbn [andb];
    repeat match goal with
    | |- context [if ?b then _ else _] =>
        let E := fresh in destruct b eqn:E; cbn [andb]
    end; try lia.
  - intros i Hi. subst row. cbv beta. apply zsum_ext. intros x0 _.
    unfold gset. replace (i =? y) with false by (symmetry; lia).
    reflexivity.
  - subst row d. cbv beta.
    rewrite (zsum_zrange_update (fun x0 => if cave_feat L y x0 =? g then 1 else 0)
               (fun x0 => if gset (cave_feat L) y x v y x0 =? g then 1 else 0)
               x (if v =? g then 1 else 0)).
    + reflexivity.
    + intros i Hi. unfold gset. rewrite Z.eqb_refl. cbn [andb].
      replace (i =? x) with false by (symmetry; lia). reflexivity.
    + unfold gset. rewrite !Z.eqb_refl. cbn [andb].
      replace (cave_feat L y x =? g) with false by (symmetry; lia).
      destruct (v =? g); reflexivity.
Qed.

Lemma same_cave_refl L : same_cave L L.
Proof. repeat split. Qed.

Lemma rand_int_same_cave m L : same_cave L (snd (rand_int m L)).
Proof.
  unfold rand_int. destruct (m <=? 1); [apply same_cave_refl|].
  destruct (Rand_div m (rand L)) as [r s]. repeat split.
Qed.

Lemma Rand_div_range m s :
  zrand_ok -> 1 < m -> 0 <= fst (Rand_div m s) < m.
Proof.
  intros [Hs Hq] Hm. unfold Rand_div. destruct (Rand_quick s).
  - specialize (Hq (Rand_value s) m Hm).
    destruct (Rand_div_quick (Rand_value s) m); exact Hq.
  - specialize (Hs (Rand_state s) m Hm).
    destruct (Rand_div_stable (Rand_state s) m); exact Hs.
Qed.

Lemma rand_int_range m L :
  zrand_ok -> 0 < m -> 0 <= fst (rand_int m L) < m.
Proof.
  intros Hok Hm. unfold rand_int. destruct (m <=? 1) eqn:E.
  - simpl. lia.
  - pose proof (Rand_div_range m (rand L) Hok ltac:(lia)) as Hr.
    destruct (Rand_div m (rand L)); exact Hr.
Qed.

Lemma rand_range_bounds a b L :
  zrand_ok -> a <= b -> a <= fst (rand_range a b L) <= b.
Proof.
  intros Hok Hab. unfold rand_range.
  pose proof (rand_int_range (1 + b - a) L Hok ltac:(lia)) as Hr.
  destruct (rand_int (1 + b - a) L); cbn [fst] in *. lia.
Qed.

Lemma rand_range_same_cave a b L : same_cave L (snd (rand_range a b L)).
Proof.
  unfold rand_range. pose proof (rand_int_same_cave (1 + b - a) L) as Hs.
  destruct (rand_int (1 + b - a) L); exact Hs.
Qed.

Lemma count_feat_same_cave g L L' :
  same_cave L L' -> count_feat g L' = count_feat g L.
Proof. intros [E _]. unfold count_feat. rewrite E. reflexivity. Qed.

Lemma stairs_feat_same_cave L L' feat :
  same_cave L L' -> stairs_feat L' feat = stairs_feat L feat.
Proof.
  intros (_ & _ & _ & _ & _ & Ed & Ei). unfold stairs_feat.
  rewrite Ed, Ei. reflexivity.
Qed.

Lemma put_feat_fields L y x v :
  depth (put_feat L y x v) = depth L /\
  inside_special (put_feat L y x v) = inside_special L.
Proof. split; reflexivity. Qed.

(** One round of tries places at most one staircase, on a floor grid
    inside the level. *)
Lemma stairs_tries_count g j feat walls fr L flag L' :
  zrand_ok -> 0 < DUNGEON_HGT -> 0 < DUNGEON_WID -> g <> FEAT_FLOOR ->
  stairs_tries j feat walls fr L = (flag, L') ->
  depth L' = depth L /\ inside_special L' = inside_special L /\
  count_feat g L' =
  count_feat g L + (if flag && (stairs_feat L feat =? g) then 1 else 0).
Proof.
  intros Hok HH HW Hg. revert L flag L'.
  induction j as [|j IH]; intros L flag L' Hrun; cbn [stairs_tries] in Hrun.
  - inversion Hrun; subst. cbn [andb]. repeat split; lia.
  - pose proof (rand_int_same_cave DUNGEON_HGT L) as S1.
    pose proof (rand_int_range DUNGEON_HGT L Hok HH) as R1.
    destruct (rand_int DUNGEON_HGT L) as [y L1]. cbn [fst snd] in S1, R1.
    pose proof (rand_int_same_cave DUNGEON_WID L1) as S2.
    pose proof (rand_int_range DUNGEON_WID L1 Hok HW) as R2.
    destruct (rand_int DUNGEON_WID L1) as [x L2]. cbn [fst snd] in S2, R2.
    assert (S12 : same_cave L L2).
    { destruct S1 as (a1 & a2 & a3 & a4 & a5 & a6 & a7).
      destruct S2 as (b1 & b2 & b3 & b4 & b5 & b6 & b7).
      repeat split; congruence. }
    assert (Hrec : forall fl Lr,
              stairs_tries j feat walls fr L2 = (fl, Lr) ->
              depth Lr = depth L /\ inside_special Lr = inside_special L /\
              count_feat g Lr =
              count_feat g L +
              (if fl && (stairs_feat L feat =? g) then 1 else 0)).
    { intros fl Lr Hr. destruct (IH L2 fl Lr Hr) as (Hd & Hi & Hc).
      rewrite Hd, Hi, Hc, (count_feat_same_cave g L L2 S12).
      rewrite (stairs_feat_same_cave L L2 feat S12).
      destruct S12 as (_ & _ & _ & _ & _ & Ed & Ei). auto. }
    destruct (cave_naked_bold L2 y x) eqn:Hnaked; cbn [negb] in Hrun;
      [|apply Hrec; exact Hrun].
    destruct (fr && negb (has_flag L2 y x CAVE_ROOM));
      [apply Hrec; exact Hrun|].
    destruct (next_to_walls L2 y x <? walls);
      [apply Hrec; exact Hrun|].
    inversion Hrun; subst flag L'. clear Hrun Hrec IH.
    destruct S12 as (_ & _ & _ & _ & _ & Ed & Ei).
    split; [exact Ed|]. split; [exact Ei|].
    unfold cave_naked_bold in Hnaked.
    apply andb_true_iff in Hnaked. destruct Hnaked as [Hn _].
    apply andb_true_iff in Hn. destruct Hn as [Hn _].
    rewrite count_feat_put by lia.
    assert (S12 : same_cave L L2).
    { destruct S1 as (a1 & a2 & a3 & a4 & a5 & a6 & a7).
      destruct S2 as (b1 & b2 & b3 & b4 & b5 & b6 & b7).
      repeat split; congruence. }
    rewrite (count_feat_same_cave g L L2 S12).
    rewrite (stairs_feat_same_cave L L2 feat S12).
    replace (in_bounds y x) with true
      by (symmetry; apply in_bounds_spec; lia).
    reflexivity.
Qed.

Lemma stairs_one_count g fuel round feat walls fr L walls' L' :
  zrand_ok -> 0 < DUNGEON_HGT -> 0 < DUNGEON_WID -> g <> FEAT_FLOOR ->
  stairs_one fuel round feat walls fr L = Some (walls', L') ->
  depth L' = depth L /\ inside_special L' = inside_special L /\
  count_feat g L' =
  count_feat g L + (if stairs_feat L feat =? g then 1 else 0).
Proof.
  intros Hok HH HW Hg. revert walls L walls' L'.
  induction fuel as [|fuel IH]; intros walls L walls' L' Hrun;
    cbn [stairs_one] in Hrun; [discriminate|].
  destruct (stairs_tries round feat walls fr L) as [flag L1] eqn:Ht.
  destruct (stairs_tries_count g _ _ _ _ _ _ _ Hok HH HW Hg Ht)
    as (Hd & Hi & Hc).
  destruct flag.
  - inversion Hrun; subst. cbn [andb] in Hc. auto.
  - cbn [andb] in Hc. destruct (IH _ _ _ _ Hrun) as (Hd' & Hi' & Hc').
    rewrite Hd', Hi', Hc', Hc, Hd, Hi.
    unfold stairs_feat. rewrite Hd, Hi. clear. repeat split; lia.
Qed.

Lemma stairs_loop_count g n fuel round feat walls fr L L' :
  zrand_ok -> 0 < DUNGEON_HGT -> 0 < DUNGEON_WID -> g <> FEAT_FLOOR ->
  stairs_loop n fuel round feat walls fr L = Some L' ->
  depth L' = depth L /\ inside_special L' = inside_special L /\
  count_feat g L' =
  count_feat g L + (if stairs_feat L feat =? g then Z.of_nat n else 0).
Proof.
  intros Hok HH HW Hg. revert walls L L'.
  induction n as [|n IH]; intros walls L L' Hrun; cbn [stairs_loop] in Hrun.
  - inversion Hrun; subst. destruct (stairs_feat L' feat =? g);
      repeat split; lia.
  - destruct (stairs_one fuel round feat walls fr L) as [[w1 L1]|] eqn:H1;
      [|discriminate].
    destruct (stairs_one_count g _ _ _ _ _ _ _ _ Hok HH HW Hg H1)
      as (Hd & Hi & Hc).
    destruct (IH _ _ _ Hrun) as (Hd' & Hi' & Hc').
    rewrite Hd', Hi', Hc', Hc, Hd, Hi.
    replace (stairs_feat L1 feat) with (stairs_feat L feat)
      by (unfold stairs_feat; rewrite Hd, Hi; reflexivity).
    destruct (stairs_feat L feat =? g); repeat split; lia.
Qed.

Lemma stairs_feat_standard L feat :
  standard_level L -> stairs_feat L feat = feat.
Proof.
  intros (Hd & Hq & _ & Hm). unfold stairs_feat.
  replace (depth L =? 0) with false by (symmetry; lia).
  replace (inside_special L =? SPECIAL_QUEST) with false by (symmetry; lia).
  replace (depth L >=? MAX_DEPTH - 1) with false by (symmetry; lia).
  reflexivity.
Qed.

(** On a standard level [alloc_stairs], when it returns, has added to the
    count of [g] one grid for each of the [num] staircases if it was
    asked for [g], and none if it was asked for another feature. *)
Lemma alloc_stairs_count g fuel feat num walls fr L L' :
  zrand_ok -> 0 < DUNGEON_HGT -> 0 < DUNGEON_WID -> g <> FEAT_FLOOR ->
  standard_level L ->
  alloc_stairs fuel feat num walls fr L = Some L' ->
  standard_level L' /\
  count_feat g L' =
  count_feat g L + (if feat =? g then Z.max 0 num else 0).
Proof.
  intros Hok HH HW Hg Hstd Hrun. unfold alloc_stairs in Hrun.
  destruct Hstd as (Hd & Hq & Hdr & Hm).
  replace (inside_special L =? SPECIAL_DREAM) with false in Hrun
    by (symmetry; lia).
  destruct (stairs_loop_count g _ _ _ _ _ _ _ _ Hok HH HW Hg Hrun)
    as (Hd' & Hi' & Hc).
  rewrite stairs_feat_standard in Hc by (repeat split; assumption).
  split.
  - unfold standard_level. rewrite Hd', Hi'. repeat split; assumption.
  - rewrite Hc. destruct (feat =? g); lia.
Qed.

Lemma count_feat_nonneg g L : 0 <= count_feat g L.
Proof.
  unfold count_feat.
  assert (Hs : forall f l, (forall i, 0 <= f i) -> 0 <= zsum f l).
  { intros f l Hf. induction l as [|a l IH]; simpl; [lia|].
    specialize (Hf a). lia. }
  apply Hs. intros y. apply Hs. intros x.
  destruct (cave_feat L y x =? g); lia.
Qed.

(** C2. The specification bounds the number of up-stair grids of a
    standard level by 3.  The stair pass of [cave_gen] does otherwise:
    whenever it returns, it has turned between 40 and 60 floor grids into
    up-stairs, one for each unit of [rand_range(40, 60)], on top of the
    up-stairs the level already had; the comment above the call announces
    1 or 2. *)
Theorem cave_gen_stairs_up_count fuel level_bg L L' :
  zrand_ok -> 0 < DUNGEON_HGT -> 0 < DUNGEON_WID ->
  FEAT_LESS <> FEAT_FLOOR -> FEAT_MORE <> FEAT_LESS ->
  standard_level L ->
  cave_gen_stairs fuel level_bg L = Some L' ->
  count_feat FEAT_LESS L + 40 <= count_feat FEAT_LESS L'
    <= count_feat FEAT_LESS L + 60 /\
  3 < count_feat FEAT_LESS L'.
Proof.
  intros Hok HH HW Hlf Hml Hstd Hrun. unfold cave_gen_stairs in Hrun.
  pose proof (rand_range_same_cave 100 120 L) as S1.
  destruct (rand_range 100 120 L) as [n_down L1]. cbn [snd] in S1.
  destruct (alloc_stairs fuel FEAT_MORE n_down 3 _ L1) as [L2|] eqn:Hdown;
    [|discriminate].
  assert (Hstd1 : standard_level L1).
  { destruct S1 as (_ & _ & _ & _ & _ & Ed & Ei).
    unfold standard_level. rewrite Ed, Ei. exact Hstd. }
  destruct (alloc_stairs_count FEAT_LESS _ _ _ _ _ _ _ Hok HH HW Hlf Hstd1
              Hdown) as (Hstd2 & Hc2).
  replace (FEAT_MORE =? FEAT_LESS) with false in Hc2 by (symmetry; lia).
  pose proof (rand_range_same_cave 40 60 L2) as S3.
  pose proof (rand_range_bounds 40 60 L2 Hok ltac:(lia)) as B3.
  destruct (rand_range 40 60 L2) as [n_up L3]. cbn [fst snd] in S3, B3.
  assert (Hstd3 : standard_level L3).
  { destruct S3 as (_ & _ & _ & _ & _ & Ed & Ei).
    unfold standard_level. rewrite Ed, Ei. exact Hstd2. }
  destruct (alloc_stairs_count FEAT_LESS _ _ _ _ _ _ _ Hok HH HW Hlf Hstd3
              Hrun) as (_ & Hc4).
  rewrite Z.eqb_refl in Hc4.
  rewrite (count_feat_same_cave FEAT_LESS L2 L3 S3) in Hc4.
  rewrite (count_feat_same_cave FEAT_LESS L L1 S1) in Hc2.
  pose proof (count_feat_nonneg FEAT_LESS L) as Hnn.
  clear Hrun Hdown. lia.
Qed.

End Stairs_facts.

Section Stairs_samples.
#[local] Existing Instance sample_defines.
#[local] Existing Instance sample_zrand.

Lemma sample_zrand_ok : zrand_ok.
Proof.
  split; intros s m Hm; cbn [Rand_div_stable Rand_div_quick sample_zrand fst];
    apply Z.mod_pos_bound; lia.
Defined.

(** On the sample level the pass returns with five rounds of fuel, and
    leaves more than forty up-stairs. *)
Lemma cave_gen_stairs_up_count_witness :
  exists L',
    cave_gen_stairs 5 FEAT_WALL_EXTRA (sample_level 1) = Some L' /\
    3 < count_feat FEAT_LESS L'.
Proof.
  destruct (cave_gen_stairs 5 FEAT_WALL_EXTRA (sample_level 1))
    as [L'|] eqn:E.
  - exists L'. split; [reflexivity|].
    apply (cave_gen_stairs_up_count 5 FEAT_WALL_EXTRA (sample_level 1) L').
    + exact sample_zrand_ok.
    + reflexivity.
    + reflexivity.
    + discriminate.
    + discriminate.
    + repeat split; discriminate.
    + exact E.
  - exfalso.
    assert (H : match cave_gen_stairs 5 FEAT_WALL_EXTRA (sample_level 1)
                with Some _ => true | None => false end = true)
      by (vm_compute; reflexivity).
    rewrite E in H. discriminate H.
Defined.

End Stairs_samples.

(** ** The outer ring *)

Section Boundary_facts.
Context {D : Defines} {R : ZRand}.

Lemma existsb_zrange x lo n :
  existsb (Z.eqb x) (zrange lo n) = (lo <=? x) && (x <? lo + Z.of_nat n).
Proof.
  revert lo. induction n as [|n IH]; intros lo; cbn [zrange existsb].
  - symmetry. apply andb_false_iff. lia.
  - rewrite IH. apply eq_true_iff_eq.
    rewrite orb_true_iff, !andb_true_iff. lia.
Qed.

Lemma existsb_zupto x lo hi :
  existsb (Z.eqb x) (zupto lo hi) = (lo <=? x) && (x <? hi).
Proof.
  unfold zupto. rewrite existsb_zrange. apply eq_true_iff_eq.
  rewrite !andb_true_iff. lia.
Qed.

(** A loop that writes [f] along the row [c]. *)
Lemma paint_row f c l (g : grid Z) y x :
  fold_left (fun g' i => gset g' c i f) l g y x =
  if (y =? c) && existsb (Z.eqb x) l then f else g y x.
Proof.
  revert g. induction l as [|a l IH]; intros g; cbn [fold_left existsb].
  - rewrite andb_false_r. reflexivity.
  - rewrite IH. unfold gset.
    destruct (y =? c), (x =? a), (existsb (Z.eqb x) l); reflexivity.
Qed.



Lemma fill_cave_spec f L y x :
  cave_feat (fill_cave f L) y x =
  if in_bounds y x then f else cave_feat L y x.
Proof.
  unfold fill_cave, in_bounds. cbn [cave_feat with_feat].
  assert (Hrows : forall ys (g : grid Z),
    fold_left (fun g0 y0 => fold_left (fun g' x0 => gset g' y0 x0 f)
                                      (zupto 0 DUNGEON_WID) g0) ys g y x =
    if existsb (Z.eqb y) ys && ((0 <=? x) && (x <? DUNGEON_WID))
    then f else g y x).
  { induction ys as [|a ys IH]; intros g; cbn [fold_left existsb].
    - reflexivity.
    - rewrite IH, paint_row, existsb_zupto.
      destruct (y =? a), (existsb (Z.eqb y) ys),
               ((0 <=? x) && (x <? DUNGEON_WID)); reflexivity. }
  rewrite Hrows, existsb_zupto.
  destruct (0 <=? y), (0 <=? x), (y <? DUNGEON_HGT), (x <? DUNGEON_WID);
    reflexivity.
Qed.







End Boundary_facts.

Section Boundary_samples.
#[local] Existing Instance sample_defines.
#[local] Existing Instance sample_zrand.



End Boundary_samples.

(** ** Wilderness tiles *)

Section Wilderness_facts.
Context {D : Defines} {R : ZRand}.




End Wilderness_facts.

Section Wilderness_samples.
#[local] Existing Instance sample_defines.
#[local] Existing Instance sample_zrand.


End Wilderness_samples.

(** ** The cover engine *)

Section Cover_facts.
Context {D : Defines} {R : ZRand} {S : Spells}.

(** C10. [get_cover_at] answers for every pair of coordinates: outside
    the level it returns [COVER_NONE]; inside, when the grid carries a
    cover record, it returns the tier of the record if the durability is
    strictly positive and [COVER_NONE] if it is zero or less, without
    looking at the feature of the grid. *)
Theorem get_cover_at_guarded L y x :
  (in_bounds y x = false -> get_cover_at L y x = COVER_NONE) /\
  (forall c, in_bounds y x = true -> cave_cover L y x = Some c ->
     (0 < durability c -> get_cover_at L y x = cover_type c) /\
     (durability c <= 0 -> get_cover_at L y x = COVER_NONE)).
Proof.
  unfold get_cover_at. split.
  - intros ->. reflexivity.
  - intros c -> ->. cbn [negb]. split; intros Hd.
    + replace (durability c >? 0) with true by (symmetry; lia). reflexivity.
    + replace (durability c >? 0) with false by (symmetry; lia). reflexivity.
Qed.

(** When the attack is blocked, the grid next to the target in the
    direction computed from the offset towards the attacker has cover of
    tier HEAVY or better. *)
Lemma is_attack_blocked_by_cover_heavy L ty tx ay ax :
  is_attack_blocked_by_cover L ty tx ay ax = true ->
  exists dir, attack_dir (ay - ty) (ax - tx) = Some dir /\
    COVER_HEAVY <= get_cover_at L (ty + ddy_ddd dir) (tx + ddx_ddd dir).
Proof.
  unfold is_attack_blocked_by_cover.
  destruct (attack_dir (ay - ty) (ax - tx)) as [dir|]; [|discriminate].
  destruct (negb _); [|discriminate].
  destruct (_ >=? COVER_HEAVY) eqn:E; [|discriminate].
  intros _. exists dir. split; [reflexivity|lia].
Qed.

(** C6 (amended). When [get_cover_vs_direction] reports some cover and
    the attack is blocked by directional HEAVY cover, the attack misses,
    the target takes no damage, and [cover_damage_out] is 0: nothing is
    handed to the cover and the level is left as it was.  When no cover is
    reported the blocking test is not reached and the attack hits with the
    full damage. *)
Theorem attack_through_cover_blocked L ay ax ty tx damage :
  is_attack_blocked_by_cover L ty tx ay ax = true ->
  let r := attack_through_cover L ay ax ty tx damage in
  (get_cover_vs_direction L ty tx ay ax <> COVER_NONE ->
     hit r = false /\ damage_out r = 0 /\ cover_damage_out r = 0 /\
     level_out r = L) /\
  (get_cover_vs_direction L ty tx ay ax = COVER_NONE ->
     hit r = true /\ damage_out r = damage /\ cover_damage_out r = 0 /\
     level_out r = L).
Proof.
  intros Hb r. subst r. unfold attack_through_cover. rewrite Hb. split.
  - intros Hc.
    replace (get_cover_vs_direction L ty tx ay ax =? COVER_NONE) with false
      by (symmetry; lia).
    repeat split.
  - intros ->. rewrite Z.eqb_refl. repeat split.
Qed.

Lemma feat_cover_from_light feat :
  cover_ordered ->
  feat = FEAT_FOG \/ feat = FEAT_FOG_DENSE \/ feat = FEAT_SMOKE \/
  feat = FEAT_CHAOS_FOG ->
  COVER_LIGHT <= feat_cover feat.
Proof.
  intros (H0 & H1 & H2 & H3) Hf. unfold feat_cover.
  destruct (_ || _ || _ || _ || _ || _ || _); [lia|].
  destruct (_ || _ || _); [lia|].
  destruct (_ || _ || _ || _ || _); [lia|].
  replace ((feat =? FEAT_FOG) || (feat =? FEAT_FOG_DENSE) ||
           (feat =? FEAT_SMOKE) || (feat =? FEAT_CHAOS_FOG)) with true;
    [lia|].
  symmetry.
  destruct Hf as [ -> | [ -> | [ -> | -> ] ] ]; rewrite Z.eqb_refl;
    rewrite ?orb_true_r; reflexivity.
Qed.

(** A step of the loop never lowers the best cover. *)
Lemma cover_step_mono L ay ax dy dx dist b i b' :
  cover_step L ay ax dy dx dist b i = Running b' -> b <= b'.
Proof.
  unfold cover_step. destruct (negb _); [intros H; inversion H; lia|].
  destruct (_ || _); [intros H; inversion H; lia|].
  destruct (_ >=? COVER_TOTAL); [discriminate|].
  intros H; inversion H. destruct (_ >? b) eqn:E; lia.
Qed.

Lemma cover_step_returned L ay ax dy dx dist b i v :
  cover_step L ay ax dy dx dist b i = Returned v -> v = COVER_TOTAL.
Proof.
  unfold cover_step. destruct (negb _); [discriminate|].
  destruct (_ || _); [discriminate|].
  destruct (_ >=? COVER_TOTAL); [|discriminate].
  intros H; inversion H; reflexivity.
Qed.

Lemma cover_loop_mono L ay ax dy dx dist steps b :
  cover_ordered -> b <= COVER_TOTAL ->
  b <= scan_value (cover_loop L ay ax dy dx dist steps b).
Proof.
  intros Hord. revert b. induction steps as [|i steps IH]; intros b Hb;
    cbn [cover_loop scan_value]; [lia|].
  destruct (cover_step L ay ax dy dx dist b i) as [v|b1] eqn:E.
  - apply cover_step_returned in E. subst v. cbn [scan_value]. exact Hb.
  - pose proof (cover_step_mono _ _ _ _ _ _ _ _ _ E) as Hm.
    assert (Hb1 : b1 <= COVER_TOTAL).
    { revert E. unfold cover_step. destruct (negb _); [intros H; inversion H; lia|].
      destruct (_ || _); [intros H; inversion H; lia|].
      destruct (_ >=? COVER_TOTAL) eqn:Et; [discriminate|].
      intros H; inversion H as [Hb1]. rewrite Hb1 in Et. lia. }
    specialize (IH b1 Hb1). lia.
Qed.

(** A grid of chaos fog on the traced line, when it carries no record,
    raises the best cover of the loop to LIGHT at least. *)
Lemma cover_loop_chaos_fog L ay ax dy dx dist steps b i :
  cover_ordered -> b <= COVER_TOTAL ->
  FEAT_CHAOS_FOG <> FEAT_FOG -> FEAT_CHAOS_FOG <> FEAT_FOG_DENSE ->
  FEAT_CHAOS_FOG <> FEAT_SMOKE ->
  In i steps ->
  in_bounds (line_y ay dy dist i) (line_x ax dx dist i) = true ->
  cave_cover L (line_y ay dy dist i) (line_x ax dx dist i) = None ->
  cave_feat L (line_y ay dy dist i) (line_x ax dx dist i) = FEAT_CHAOS_FOG ->
  COVER_LIGHT <= scan_value (cover_loop L ay ax dy dx dist steps b).
Proof.
  intros Hord Hb N1 N2 N3 Hin Hbd Hrec Hfeat. revert b Hb.
  induction steps as [|j steps IH]; intros b Hb; [destruct Hin|].
  cbn [cover_loop].
  destruct (cover_step L ay ax dy dx dist b j) as [v|b1] eqn:E.
  - apply cover_step_returned in E. subst v. cbn [scan_value].
    destruct Hord as (? & ? & ? & ?). lia.
  - assert (Hb1 : b1 <= COVER_TOTAL).
    { revert E. unfold cover_step.
      destruct (negb _); [intros H; inversion H; lia|].
      destruct (_ || _); [intros H; inversion H; lia|].
      destruct (_ >=? COVER_TOTAL) eqn:Et; [discriminate|].
      intros H; inversion H as [Hb1]. rewrite Hb1 in Et. lia. }
    destruct Hin as [->|Hin]; [|apply IH; assumption].
    pose proof (cover_loop_mono L ay ax dy dx dist steps b1 Hord Hb1) as Hm.
    enough (COVER_LIGHT <= b1) by lia.
    revert E. unfold cover_step. rewrite Hbd. cbn [negb]. rewrite Hfeat.
    replace (FEAT_CHAOS_FOG =? FEAT_FOG) with false by (symmetry; lia).
    replace (FEAT_CHAOS_FOG =? FEAT_FOG_DENSE) with false by (symmetry; lia).
    replace (FEAT_CHAOS_FOG =? FEAT_SMOKE) with false by (symmetry; lia).
    cbn [orb]. unfold get_cover_at. rewrite Hbd, Hrec, Hfeat. cbn [negb].
    pose proof (feat_cover_from_light FEAT_CHAOS_FOG Hord
                  ltac:(right; right; right; reflexivity)) as Hl.
    destruct (_ >=? COVER_TOTAL); [discriminate|].
    intros H; inversion H. destruct (_ >? b) eqn:Egt; lia.
Qed.

(** C7. The specification has every fog-family grid on the traced line
    skipped.  The test of the loop names fog, dense fog and smoke but not
    chaos fog: a grid of chaos fog strictly between attacker and target,
    carrying no record, counts with the LIGHT tier that [get_cover_at]
    gives it, so the directional cover is LIGHT at least and not NONE. *)
Theorem get_cover_vs_direction_chaos_fog L ty tx ay ax i :
  cover_ordered ->
  FEAT_CHAOS_FOG <> FEAT_FOG -> FEAT_CHAOS_FOG <> FEAT_FOG_DENSE ->
  FEAT_CHAOS_FOG <> FEAT_SMOKE ->
  1 <= i < distance ay ax ty tx ->
  let y := line_y ay (ty - ay) (distance ay ax ty tx) i in
  let x := line_x ax (tx - ax) (distance ay ax ty tx) i in
  in_bounds y x = true -> cave_cover L y x = None ->
  cave_feat L y x = FEAT_CHAOS_FOG ->
  COVER_LIGHT <= get_cover_vs_direction L ty tx ay ax /\
  get_cover_vs_direction L ty tx ay ax <> COVER_NONE.
Proof.
  intros Hord N1 N2 N3 Hi y x Hbd Hrec Hfeat.
  enough (COVER_LIGHT <= get_cover_vs_direction L ty tx ay ax)
    by (destruct Hord; split; lia).
  unfold get_cover_vs_direction.
  assert (Hnone : COVER_NONE <= COVER_TOTAL)
    by (destruct Hord as (? & ? & ? & ?); lia).
  pose proof (cover_loop_chaos_fog L ay ax (ty - ay) (tx - ax)
                (distance ay ax ty tx) (zupto 1 (distance ay ax ty tx))
                COVER_NONE i Hord Hnone N1 N2 N3
                ltac:(apply zupto_In; lia) Hbd Hrec Hfeat) as Hl.
  destruct (cover_loop _ _ _ _ _ _ _ _) as [v|b]; cbn [scan_value] in Hl.
  - exact Hl.
  - destruct (_ && _) eqn:E; lia.
Qed.

(** What the loop does skip: a grid whose feature is
    fog, dense fog or smoke leaves the best cover of the loop as it is. *)
Lemma cover_step_fog_skipped L ay ax dy dx dist b i :
  let f := cave_feat L (line_y ay dy dist i) (line_x ax dx dist i) in
  f = FEAT_FOG \/ f = FEAT_FOG_DENSE \/ f = FEAT_SMOKE ->
  cover_step L ay ax dy dx dist b i = Running b.
Proof.
  intros f Hf. unfold cover_step. destruct (negb _); [reflexivity|].
  fold f.
  replace ((f =? FEAT_FOG) || (f =? FEAT_FOG_DENSE) || (f =? FEAT_SMOKE))
    with true; [reflexivity|].
  symmetry. rewrite !orb_true_iff. lia.
Qed.

End Cover_facts.

Section Cover_samples.
#[local] Existing Instance sample_defines.
#[local] Existing Instance sample_zrand.
#[local] Existing Instance sample_spells.

Lemma get_cover_at_guarded_witness :
  let L := put_cover (sample_floor []) 3 4
             (Some {| durability := 0; max_durability := 20;
                      cover_type := COVER_HEAVY;
                      terrain_feat := FEAT_STONE_PILLAR |}) in
  get_cover_at L 3 4 = COVER_NONE.
Proof.
  intros L.
  exact (proj2 (proj2 (get_cover_at_guarded L 3 4) _ eq_refl eq_refl)
           ltac:(discriminate)).
Defined.

Lemma sample_pillars_blocked :
  is_attack_blocked_by_cover sample_pillars 10 5 0 5 = true.
Proof. vm_compute. reflexivity. Defined.

Lemma sample_pillars_cover :
  get_cover_vs_direction sample_pillars 10 5 0 5 <> COVER_NONE.
Proof. vm_compute. discriminate. Defined.

Lemma attack_through_cover_blocked_witness :
  hit (attack_through_cover sample_pillars 0 5 10 5 100) = false /\
  damage_out (attack_through_cover sample_pillars 0 5 10 5 100) = 0 /\
  cover_damage_out (attack_through_cover sample_pillars 0 5 10 5 100) = 0 /\
  level_out (attack_through_cover sample_pillars 0 5 10 5 100)
    = sample_pillars.
Proof.
  exact (proj1 (attack_through_cover_blocked sample_pillars 0 5 10 5 100
                  sample_pillars_blocked)
           sample_pillars_cover).
Defined.

(** Counterexample to C6: with the target at (10,5) behind stone pillars
    and the attacker at (0,5), the attack of 100 points is blocked by
    directional HEAVY cover, and [cover_damage_out] is 0, not 100. *)
Lemma attack_through_cover_counterexample :
  let r := attack_through_cover sample_pillars 0 5 10 5 100 in
  is_attack_blocked_by_cover sample_pillars 10 5 0 5 = true /\
  hit r = false /\ damage_out r = 0 /\ cover_damage_out r <> 100.
Proof.
  vm_compute. repeat split; discriminate.
Qed.

Lemma get_cover_vs_direction_chaos_fog_witness :
  get_cover_vs_direction (sample_cloud FEAT_CHAOS_FOG) 10 5 0 5
    <> COVER_NONE.
Proof.
  apply (get_cover_vs_direction_chaos_fog
           (sample_cloud FEAT_CHAOS_FOG) 10 5 0 5 5).
  - unfold cover_ordered. cbn. lia.
  - discriminate.
  - discriminate.
  - discriminate.
  - cbn. lia.
  - reflexivity.
  - reflexivity.
  - reflexivity.
Defined.

(** With one grid of cloud half way between attacker and target, the
    directional cover is LIGHT with chaos fog, and NONE with each of the three kinds of fog the loop skips. *)
Lemma get_cover_vs_direction_fog_family :
  get_cover_vs_direction (sample_cloud FEAT_CHAOS_FOG) 10 5 0 5
    = COVER_LIGHT /\
  get_cover_vs_direction (sample_cloud FEAT_FOG) 10 5 0 5 = COVER_NONE /\
  get_cover_vs_direction (sample_cloud FEAT_FOG_DENSE) 10 5 0 5
    = COVER_NONE /\
  get_cover_vs_direction (sample_cloud FEAT_SMOKE) 10 5 0 5 = COVER_NONE.
Proof. vm_compute. repeat split. Qed.

End Cover_samples.

(** ** The patrol state machine *)

Section Patrol_facts.
Context {D : Defines} {R : ZRand}.
Variable player_has_los_bold : world -> Z -> Z -> bool.
Variable cave_floor_bold : world -> Z -> Z -> bool.
Variable monster_swap : world -> Z -> Z -> Z -> Z -> world.

Lemma state_of_put_guard w m_idx g :
  state_of (put_guard w m_idx g) m_idx = Some (guard_state g).
Proof.
  unfold state_of, put_guard. cbn [m_guard]. rewrite Z.eqb_refl.
  reflexivity.
Qed.

(** C8. The transition table sends every chasing monster that has lost
    sight of the player to RETURN once its timer has run out, wherever it
    stands.  The CHASE case does so only for a monster that stands on the
    last known position of the player: elsewhere the function returns
    before the timeout test at the end of the case, and the monster stays
    in CHASE with its timer one lower. *)
Theorem execute_patrol_behavior_chase_timeout w m_idx g :
  m_guard w m_idx = Some g ->
  guard_state g = GUARD_STATE_CHASE ->
  player_has_los_bold w (fy (m_list w m_idx)) (fx (m_list w m_idx)) = false ->
  chase_timer g <= 0 ->
  let r := execute_patrol_behavior player_has_los_bold cave_floor_bold
             monster_swap w m_idx in
  (fy (m_list w m_idx) = alert_y g /\ fx (m_list w m_idx) = alert_x g ->
     fst r = true /\ state_of (snd r) m_idx = Some GUARD_STATE_RETURN) /\
  (fy (m_list w m_idx) <> alert_y g \/ fx (m_list w m_idx) <> alert_x g ->
     fst r = false /\ state_of (snd r) m_idx = Some GUARD_STATE_CHASE /\
     m_guard (snd r) m_idx = Some (set_timer g (chase_timer g - 1))).
Proof.
  intros Hg Hst Hlos Ht r. subst r. unfold execute_patrol_behavior.
  rewrite Hg, Hst, Hlos. cbn [alert_y alert_x set_timer chase_timer].
  split.
  - intros [Ey Ex]. rewrite Ey, Ex, !Z.eqb_refl. cbn [andb].
    replace (chase_timer g - 1 <=? 0) with true by (symmetry; lia).
    cbn [fst snd]. split; [reflexivity|]. rewrite state_of_put_guard.
    reflexivity.
  - intros Hne.
    replace ((fy (m_list w m_idx) =? alert_y g) &&
             (fx (m_list w m_idx) =? alert_x g)) with false
      by (symmetry; apply andb_false_iff; lia).
    cbn [andb fst snd]. split; [reflexivity|]. split.
    + rewrite state_of_put_guard. cbn [guard_state set_timer]. rewrite Hst.
      reflexivity.
    + unfold put_guard. cbn [m_guard]. rewrite Z.eqb_refl. reflexivity.
Qed.

End Patrol_facts.

Section Patrol_samples.
#[local] Existing Instance sample_defines.
#[local] Existing Instance sample_zrand.

Lemma sample_chaser_guard ay ax :
  exists g, m_guard (sample_chaser ay ax) 1 = Some g /\
            guard_state g = GUARD_STATE_CHASE /\ chase_timer g = 0 /\
            alert_y g = ay /\ alert_x g = ax.
Proof. eexists. repeat split. Defined.

(** The case of C8 on the sample: the chaser at (3,3) last saw the player at
    (7,7), its timer is 0 and the player is out of sight.  After the turn
    the monster is still in CHASE. *)
Lemma execute_patrol_behavior_chase_timeout_witness :
  let r := execute_patrol_behavior sample_no_los sample_floor_bold
             sample_swap (sample_chaser 7 7) 1 in
  fst r = false /\ state_of (snd r) 1 = Some GUARD_STATE_CHASE.
Proof.
  intros r.
  destruct (proj2 (execute_patrol_behavior_chase_timeout
                     sample_no_los sample_floor_bold sample_swap
                     (sample_chaser 7 7) 1 _ eq_refl eq_refl eq_refl
                     ltac:(cbn; lia))
              ltac:(left; discriminate)) as (H1 & H2 & _).
  split; assumption.
Defined.

End Patrol_samples.

(** ** Wall piercing *)

Section Tunnel_facts.
Context {D : Defines} {R : ZRand}.

(** One row of the conversion. *)
Lemma solidify_row_spec y0 xs L y x :
  FEAT_WALL_OUTER <> FEAT_WALL_SOLID ->
  cave_feat
    (fold_left
       (fun L1 x0 =>
          if cave_feat L1 y0 x0 =? FEAT_WALL_OUTER
          then put_feat L1 y0 x0 FEAT_WALL_SOLID else L1) xs L) y x =
  if (y =? y0) && existsb (Z.eqb x) xs && (cave_feat L y x =? FEAT_WALL_OUTER)
  then FEAT_WALL_SOLID else cave_feat L y x.
Proof.
  intros Hne. revert L. induction xs as [|a xs IH]; intros L;
    cbn [fold_left existsb].
  - rewrite andb_false_r. reflexivity.
  - rewrite IH. clear IH.
    destruct (cave_feat L y0 a =? FEAT_WALL_OUTER) eqn:Ea.
    + cbn [put_feat cave_feat with_feat]. unfold gset.
      destruct (y =? y0) eqn:Ey, (x =? a) eqn:Ex,
               (existsb (Z.eqb x) xs) eqn:Ee; cbn [andb orb];
        try reflexivity;
        try (assert (y = y0) by lia; assert (x = a) by lia; subst;
             rewrite Ea;
             replace (FEAT_WALL_SOLID =? FEAT_WALL_OUTER) with false
               by (symmetry; lia);
             reflexivity).
    + destruct (y =? y0) eqn:Ey, (x =? a) eqn:Ex,
               (existsb (Z.eqb x) xs) eqn:Ee; cbn [andb orb];
        try reflexivity;
        try (assert (y = y0) by lia; assert (x = a) by lia; subst;
             rewrite Ea; reflexivity).
Qed.

Lemma solidify_rows_spec ys xs L y x :
  FEAT_WALL_OUTER <> FEAT_WALL_SOLID ->
  cave_feat
    (fold_left
       (fun L0 y0 =>
          fold_left
            (fun L1 x0 =>
               if cave_feat L1 y0 x0 =? FEAT_WALL_OUTER
               then put_feat L1 y0 x0 FEAT_WALL_SOLID else L1) xs L0)
       ys L) y x =
  if existsb (Z.eqb y) ys && existsb (Z.eqb x) xs &&
     (cave_feat L y x =? FEAT_WALL_OUTER)
  then FEAT_WALL_SOLID else cave_feat L y x.
Proof.
  intros Hne. revert L. induction ys as [|a ys IH]; intros L;
    cbn [fold_left existsb].
  - reflexivity.
  - rewrite IH, solidify_row_spec by exact Hne. clear IH.
    destruct (y =? a), (existsb (Z.eqb y) ys), (existsb (Z.eqb x) xs),
             (cave_feat L y x =? FEAT_WALL_OUTER) eqn:Ew;
      cbn [andb orb]; rewrite ?Ew; try reflexivity;
      replace (FEAT_WALL_SOLID =? FEAT_WALL_OUTER) with false
        by (symmetry; lia); reflexivity.
Qed.

(** The conversion turns the outer walls of the nine grids around the
    piercing into solid walls and changes no other feature. *)
Lemma solidify_around_spec row1 col1 L y x :
  FEAT_WALL_OUTER <> FEAT_WALL_SOLID ->
  cave_feat (solidify_around row1 col1 L) y x =
  if (Z.abs (y - row1) <=? 1) && (Z.abs (x - col1) <=? 1) &&
     (cave_feat L y x =? FEAT_WALL_OUTER)
  then FEAT_WALL_SOLID else cave_feat L y x.
Proof.
  intros Hne. unfold solidify_around.
  rewrite solidify_rows_spec, !existsb_zupto by exact Hne.
  replace ((row1 - 1 <=? y) && (y <? row1 + 2))
    with (Z.abs (y - row1) <=? 1)
    by (apply eq_true_iff_eq; rewrite andb_true_iff; lia).
  replace ((col1 - 1 <=? x) && (x <? col1 + 2))
    with (Z.abs (x - col1) <=? 1)
    by (apply eq_true_iff_eq; rewrite andb_true_iff; lia).
  reflexivity.
Qed.

(** The piercing step of the two tunnelers.  When the next grid is an
    outer wall, the straight-with-bends tunneler does not enter it if the
    grid one step further in the same direction is outer or solid;
    otherwise it enters, appends the grid to [walls[]], and turns every
    outer wall among the nine grids around the piercing into a solid
    wall.  The winding tunneler, once it stands on an outer wall, only
    appends the grid to [walls[]]: it looks at no grid beyond it and
    leaves every feature as it is. *)
Theorem wall_piercing_rule start_row start_col row_dir col_dir t :
  wall_codes_distinct ->
  let tmp_row := t_row t + row_dir in
  let tmp_col := t_col t + col_dir in
  cave_feat (t_lev t) tmp_row tmp_col = FEAT_WALL_OUTER ->
  (outer_or_solid (cave_feat (t_lev t) (tmp_row + row_dir)
                             (tmp_col + col_dir)) = true ->
   tunnel_cell start_row start_col row_dir col_dir t = Next t) /\
  (outer_or_solid (cave_feat (t_lev t) (tmp_row + row_dir)
                             (tmp_col + col_dir)) = false ->
   exists t',
     tunnel_cell start_row start_col row_dir col_dir t = Next t' /\
     t_row t' = tmp_row /\ t_col t' = tmp_col /\
     wall (t_dun t') = push WALL_MAX (wall (t_dun t)) tmp_row tmp_col /\
     (forall y x,
        cave_feat (t_lev t') y x =
        if (Z.abs (y - tmp_row) <=? 1) && (Z.abs (x - tmp_col) <=? 1) &&
           (cave_feat (t_lev t) y x =? FEAT_WALL_OUTER)
        then FEAT_WALL_SOLID else cave_feat (t_lev t) y x) /\
     (forall y x, Z.abs (y - tmp_row) <= 1 -> Z.abs (x - tmp_col) <= 1 ->
        cave_feat (t_lev t') y x <> FEAT_WALL_OUTER)) /\
  (let tw := winding_cell (moved_to t tmp_row tmp_col) in
   t_row tw = tmp_row /\ t_col tw = tmp_col /\
   wall (t_dun tw) = push WALL_MAX (wall (t_dun t)) tmp_row tmp_col /\
   t_lev tw = t_lev t).
Proof.
  intros (N1 & N2 & N3) tmp_row tmp_col Hf.
  split; [|split].
  - intros Hnext. unfold tunnel_cell. fold tmp_row tmp_col.
    rewrite Hf.
    replace (FEAT_WALL_OUTER =? FEAT_PERM_SOLID) with false
      by (symmetry; lia).
    replace (FEAT_WALL_OUTER =? FEAT_PERM_OUTER) with false
      by (symmetry; lia).
    replace (FEAT_WALL_OUTER =? FEAT_WALL_SOLID) with false
      by (symmetry; lia).
    rewrite Z.eqb_refl. unfold outer_or_solid in Hnext.
    destruct (_ =? FEAT_PERM_SOLID); [reflexivity|].
    destruct (_ =? FEAT_PERM_OUTER); [reflexivity|].
    destruct (_ =? FEAT_WALL_OUTER); [reflexivity|].
    destruct (_ =? FEAT_WALL_SOLID); [reflexivity|].
    discriminate Hnext.
  - intros Hnext. unfold tunnel_cell. fold tmp_row tmp_col.
    rewrite Hf.
    replace (FEAT_WALL_OUTER =? FEAT_PERM_SOLID) with false
      by (symmetry; lia).
    replace (FEAT_WALL_OUTER =? FEAT_PERM_OUTER) with false
      by (symmetry; lia).
    replace (FEAT_WALL_OUTER =? FEAT_WALL_SOLID) with false
      by (symmetry; lia).
    rewrite Z.eqb_refl. unfold outer_or_solid in Hnext.
    apply orb_false_iff in Hnext. destruct Hnext as [Hnext H4].
    apply orb_false_iff in Hnext. destruct Hnext as [Hnext H3].
    apply orb_false_iff in Hnext. destruct Hnext as [H1 H2].
    rewrite H1, H2, H3, H4.
    eexists. split; [reflexivity|]. cbn [t_row t_col t_dun t_lev wall with_wall].
    split; [reflexivity|]. split; [reflexivity|]. split; [reflexivity|].
    split.
    + intros y x. apply solidify_around_spec. exact N1.
    + intros y x Hy Hx. rewrite solidify_around_spec by exact N1.
      replace (Z.abs (y - tmp_row) <=? 1) with true by (symmetry; lia).
      replace (Z.abs (x - tmp_col) <=? 1) with true by (symmetry; lia).
      cbn [andb].
      destruct (cave_feat (t_lev t) y x =? FEAT_WALL_OUTER) eqn:E; lia.
  - unfold winding_cell, moved_to. cbn [t_lev t_row t_col t_dun t_door_flag].
    rewrite Hf.
    replace (FEAT_WALL_OUTER =? FEAT_PERM_SOLID) with false
      by (symmetry; lia).
    replace (FEAT_WALL_OUTER =? FEAT_PERM_OUTER) with false
      by (symmetry; lia).
    replace (FEAT_WALL_OUTER =? FEAT_WALL_SOLID) with false
      by (symmetry; lia).
    rewrite Z.eqb_refl. repeat split.
Qed.

End Tunnel_facts.

Section Tunnel_samples.
#[local] Existing Instance sample_defines.
#[local] Existing Instance sample_zrand.

Lemma wall_piercing_rule_witness :
  exists t',
    tunnel_cell 3 5 1 0 sample_walker = Next t' /\
    t_row t' = 5 /\ t_col t' = 5 /\ wall (t_dun t') = [(5, 5)] /\
    cave_feat (t_lev t') 5 4 <> FEAT_WALL_OUTER /\
    cave_feat (t_lev t') 5 6 <> FEAT_WALL_OUTER.
Proof.
  destruct (proj1 (proj2 (wall_piercing_rule 3 5 1 0 sample_walker
                            ltac:(repeat split; discriminate) eq_refl))
              eq_refl)
    as (t' & Hc & Hr & Hcol & Hw & _ & Hn).
  exists t'. split; [exact Hc|]. split; [exact Hr|]. split; [exact Hcol|].
  split; [exact Hw|]. split; apply Hn; cbn; lia.
Defined.

(** C5. The rule wants both tunnelers to turn the outer walls around a
    piercing into solid walls, so that no two corridors leave a room by
    adjacent grids, as the head of generate.c also states.  The winding
    tunneler does not: on the sample room a first winding corridor from
    (3,5) to (7,5) pierces the outer wall at (5,5) and leaves its two
    neighbours (5,4) and (5,6) outer walls; a second winding corridor from
    (3,6) to (7,6) then pierces (5,6).  The two exits are adjacent grids,
    both floor in the end. *)
Theorem winding_adjacent_piercings :
  exists d1 L1 d2 L2,
    build_tunnel_winding 10 3 5 7 5 empty_dun (sample_room 3)
      = Some (d1, L1) /\
    wall d1 = [(5, 5)] /\
    cave_feat L1 5 4 = FEAT_WALL_OUTER /\
    cave_feat L1 5 6 = FEAT_WALL_OUTER /\
    build_tunnel_winding 10 3 6 7 6 d1 L1 = Some (d2, L2) /\
    wall d2 = [(5, 6)] /\
    cave_feat L2 5 5 = FEAT_FLOOR /\ cave_feat L2 5 6 = FEAT_FLOOR.
Proof.
  assert (H : match build_tunnel_winding 10 3 5 7 5 empty_dun (sample_room 3)
              with
              | Some (d1, L1) =>
                  match build_tunnel_winding 10 3 6 7 6 d1 L1 with
                  | Some (d2, L2) =>
                      (wall d1, cave_feat L1 5 4, cave_feat L1 5 6,
                       wall d2, cave_feat L2 5 5, cave_feat L2 5 6)
                  | None => ([], 0, 0, [], 0, 0)
                  end
              | None => ([], 0, 0, [], 0, 0)
              end = ([(5, 5)], 58, 58, [(5, 6)], 1, 1))
    by (vm_compute; reflexivity).
  destruct (build_tunnel_winding 10 3 5 7 5 empty_dun (sample_room 3))
    as [[d1 L1]|] eqn:E1; [|discriminate H].
  destruct (build_tunnel_winding 10 3 6 7 6 d1 L1) as [[d2 L2]|] eqn:E2;
    [|discriminate H].
  injection H as H1 H2 H3 H4 H5 H6.
  exists d1, L1, d2, L2.
  repeat split; first [assumption | reflexivity].
Qed.

End Tunnel_samples.

(** ** Seeded generation *)

Section Director_facts.
Context {D : Defines} {R : ZRand} {S : Spells}.








End Director_facts.

Section Director_samples.
#[local] Existing Instance sample_defines.
#[local] Existing Instance sample_zrand.
#[local] Existing Instance sample_spells.



End Director_samples.

(** ** The run-length writer on every grid *)

Section RLE_runs.
Import RLE.

Lemma rle_expand_bytes runs rest :
  rle_expand (rle_bytes runs ++ rest) = rle_cells runs ++ rle_expand rest.
Proof.
  induction runs as [|[c v] runs IH]; [reflexivity|].
  cbn [rle_bytes rle_cells flat_map app fst snd rle_expand].
  fold (rle_bytes runs). fold (rle_cells runs).
  now rewrite IH, app_assoc.
Qed.

Lemma rle_bytes_length runs : length (rle_bytes runs) = (2 * length runs)%nat.
Proof.
  induction runs as [|p runs IH]; [reflexivity|].
  cbn [rle_bytes flat_map app length]. fold (rle_bytes runs). lia.
Qed.

Lemma rle_bytes_snoc runs c v :
  rle_bytes (runs ++ [(c, v)]) = rle_bytes runs ++ [c; v].
Proof. unfold rle_bytes. now rewrite flat_map_app. Qed.

Lemma rle_cells_snoc runs c v :
  rle_cells (runs ++ [(c, v)]) = rle_cells runs ++ repeat v (Z.to_nat c).
Proof.
  unfold rle_cells. rewrite flat_map_app. cbn [flat_map fst snd].
  now rewrite app_nil_r.
Qed.

Lemma repeat_snoc {A} (v : A) n : repeat v n ++ [v] = repeat v (S n).
Proof. induction n as [|n IH]; [reflexivity|]. cbn. now rewrite IH. Qed.

(** One cell: either the pending run grows, or it is written and a new
    run of one cell starts. *)
Lemma wr_cell_runs c s runs :
  buf s = rle_bytes runs ->
  (forall p, In p runs -> 1 <= fst p <= 255) ->
  0 <= count s <= 255 ->
  (2 * length runs + 2 <= 1022)%nat ->
  exists runs1,
    buf (wr_cell s c) = rle_bytes runs1 /\
    (forall p, In p runs1 -> 1 <= fst p <= 255) /\
    1 <= count (wr_cell s c) <= 255 /\
    prev_char (wr_cell s c) = c /\
    (length runs1 + 1 <=
     length runs + (if (count s =? 0)%Z then 0 else 1) + 1)%nat /\
    rle_cells runs1 ++
      repeat (prev_char (wr_cell s c)) (Z.to_nat (count (wr_cell s c))) =
    (rle_cells runs ++ repeat (prev_char s) (Z.to_nat (count s))) ++ [c].
Proof.
  intros Hb Hr Hc Hl. unfold wr_cell.
  destruct (negb (c =? prev_char s) || (count s =? MAX_UCHAR)) eqn:E.
  - cbn [buf count prev_char]. unfold flush.
    destruct (count s =? 0) eqn:E0.
    + exists runs. apply Z.eqb_eq in E0. rewrite E0.
      change (Z.to_nat 0) with 0%nat. change (Z.to_nat 1) with 1%nat.
      cbn [repeat]. rewrite app_nil_r.
      split; [assumption|]. split; [assumption|]. split; [lia|].
      split; [reflexivity|]. split; [cbn [Z.eqb]; lia|reflexivity].
    + exists (runs ++ [(count s, prev_char s)]).
      apply Z.eqb_neq in E0.
      unfold wr_byte. rewrite Hb.
      assert (L1 : (Z.of_nat (length (rle_bytes runs)) <? 1024) = true).
      { rewrite rle_bytes_length. lia. }
      rewrite L1.
      assert (L2 : (Z.of_nat (length (rle_bytes runs ++ [count s]))
                    <? 1024) = true).
      { rewrite length_app, rle_bytes_length. cbn [length]. lia. }
      rewrite L2. rewrite <- app_assoc. cbn [app].
      rewrite rle_bytes_snoc, rle_cells_snoc.
      split; [reflexivity|]. split.
      { intros p Hp. apply in_app_or in Hp. destruct Hp as [Hp|Hp].
        - apply Hr; assumption.
        - destruct Hp as [<-|[]]. cbn [fst]. lia. }
      split; [lia|]. split; [reflexivity|]. split.
      { rewrite length_app. cbn [length].
        replace (count s =? 0) with false by lia. lia. }
      reflexivity.
  - cbn [buf count prev_char].
    apply orb_false_iff in E. destruct E as [E1 E2].
    apply negb_false_iff, Z.eqb_eq in E1. apply Z.eqb_neq in E2.
    unfold MAX_UCHAR in E2. unfold to_byte.
    rewrite Z.mod_small by lia.
    exists runs.
    split; [assumption|]. split; [assumption|]. split; [lia|].
    split; [symmetry; assumption|].
    split; [destruct (count s =? 0); lia|].
    replace (Z.to_nat (count s + 1)) with (S (Z.to_nat (count s))) by lia.
    rewrite <- repeat_snoc, E1. now rewrite !app_assoc.
Qed.

(** The invariant of the scan: the runs written so far together with the
    pending run are the cells read so far. *)
Lemma wr_cells_runs cells s runs :
  buf s = rle_bytes runs ->
  (forall p, In p runs -> 1 <= fst p <= 255) ->
  0 <= count s <= 255 ->
  (2 * length runs + 2 * length cells <= 1022)%nat ->
  exists runs',
    buf (fold_left wr_cell cells s) = rle_bytes runs' /\
    (forall p, In p runs' -> 1 <= fst p <= 255) /\
    0 <= count (fold_left wr_cell cells s) <= 255 /\
    (cells <> [] -> 1 <= count (fold_left wr_cell cells s)) /\
    (cells <> [] ->
     prev_char (fold_left wr_cell cells s) = last cells 0) /\
    (length runs' +
       (if (count (fold_left wr_cell cells s) =? 0)%Z then 0 else 1) <=
     length runs + (if (count s =? 0)%Z then 0 else 1) + length cells)%nat /\
    rle_cells runs' ++
      repeat (prev_char (fold_left wr_cell cells s))
             (Z.to_nat (count (fold_left wr_cell cells s))) =
    (rle_cells runs ++ repeat (prev_char s) (Z.to_nat (count s))) ++ cells.
Proof.
  revert s runs.
  induction cells as [|c cells IH]; intros s runs Hb Hr Hc Hl.
  - exists runs. cbn [fold_left]. rewrite app_nil_r.
    split; [assumption|]. split; [assumption|]. split; [assumption|].
    split; [congruence|]. split; [congruence|].
    split; [cbn [length]; lia|reflexivity].
  - cbn [fold_left]. cbn [length] in Hl.
    destruct (wr_cell_runs c s runs Hb Hr Hc ltac:(lia))
      as (runs1 & Hb1 & Hr1 & Hc1 & Hp1 & Hl1 & He1).
    assert (Hl2 : (length runs1 <= length runs + 1)%nat)
      by (destruct (count s =? 0); lia).
    destruct (IH (wr_cell s c) runs1 Hb1 Hr1 ltac:(lia) ltac:(lia))
      as (runs' & Hb' & Hr' & Hc' & Hn' & Hlast & Hl' & He').
    exists runs'.
    split; [assumption|]. split; [assumption|]. split; [assumption|].
    split.
    { intros _. destruct cells as [|c' cells'].
      - cbn [fold_left]. lia.
      - apply Hn'. discriminate. }
    split.
    { intros _. destruct cells as [|c' cells'].
      - cbn [fold_left last]. assumption.
      - rewrite Hlast by discriminate. reflexivity. }
    split.
    { cbn [length]. replace (count (wr_cell s c) =? 0) with false in Hl'
        by lia.
      destruct (count s =? 0); destruct (count (fold_left _ _ _) =? 0);
        lia. }
    rewrite He', He1. rewrite <- !app_assoc. reflexivity.
Qed.

Lemma scan_order_length cave_info : length (scan_order cave_info) = 100%nat.
Proof. reflexivity. Qed.

Lemma scan_order_last cave_info : last (scan_order cave_info) 0 = cave_info 9 9.
Proof. reflexivity. Qed.

(** X1. With the terminal flush, the pairs (count, value) that
    [wr_dungeon_sim] writes stand, run by run, for the cells of the grid
    in row-major order, whatever the grid holds; every count lies in
    1..255 and the 1024-byte buffer is never full. *)
Theorem wr_dungeon_sim_round_trip (cave_info : grid Z) :
  rle_expand (wr_dungeon_sim 1 cave_info) = scan_order cave_info /\
  (exists runs, wr_dungeon_sim 1 cave_info = rle_bytes runs /\
                forall p, In p runs -> 1 <= fst p <= 255) /\
  (length (wr_dungeon_sim 1 cave_info) <= 200)%nat.
Proof.
  unfold wr_dungeon_sim. rewrite wr_scan_scan_order. cbn [Z.eqb].
  destruct (wr_cells_runs (scan_order cave_info)
              {| buf := []; count := 0; prev_char := 0 |} [])
    as (runs & Hb & Hr & Hc & Hn & Hlast & Hl & He).
  - reflexivity.
  - intros p [].
  - cbn [count]. lia.
  - rewrite scan_order_length. cbn [length]. lia.
  - set (s := fold_left wr_cell (scan_order cave_info) _) in *.
    assert (Hne : scan_order cave_info <> []).
    { intros E. pose proof (scan_order_length cave_info) as F.
      rewrite E in F. discriminate. }
    specialize (Hn Hne).
    assert (Hf : flush s = rle_bytes (runs ++ [(count s, prev_char s)])).
    { unfold flush. replace (count s =? 0) with false by lia.
      unfold wr_byte. rewrite Hb.
      rewrite scan_order_length in Hl. cbn [length count Z.eqb] in Hl.
      replace (count s =? 0) with false in Hl by lia.
      replace (Z.of_nat (length (rle_bytes runs)) <? 1024) with true
        by (rewrite rle_bytes_length; lia).
      replace (Z.of_nat (length (rle_bytes runs ++ [count s])) <? 1024)
        with true by (rewrite length_app, rle_bytes_length; cbn [length]; lia).
      rewrite rle_bytes_snoc, <- app_assoc. reflexivity. }
    rewrite Hf. split; [|split].
    + rewrite <- (app_nil_r (rle_bytes _)), rle_expand_bytes.
      cbn [rle_expand]. rewrite app_nil_r, rle_cells_snoc, He.
      reflexivity.
    + exists (runs ++ [(count s, prev_char s)]). split; [reflexivity|].
      intros p Hp. apply in_app_or in Hp. destruct Hp as [Hp|Hp].
      * apply Hr; assumption.
      * destruct Hp as [<-|[]]. cbn [fst]. lia.
    + rewrite rle_bytes_length, length_app. cbn [length].
      rewrite scan_order_length in Hl. cbn [length count Z.eqb] in Hl.
      replace (count s =? 0) with false in Hl by lia. lia.
Qed.

(** X2. Without the terminal flush [wr_dungeon_sim] writes, on every grid,
    the same bytes as with it less the last pair: the run that ends at the
    last cell, of 1 to 255 cells, is missing from the buffer, and what the
    buffer stands for is short of the grid by that run. *)
Theorem wr_dungeon_sim_last_run_lost (cave_info : grid Z) :
  exists c,
    1 <= c <= 255 /\
    wr_dungeon_sim 1 cave_info =
      wr_dungeon_sim 0 cave_info ++ [c; cave_info 9 9] /\
    scan_order cave_info =
      rle_expand (wr_dungeon_sim 0 cave_info) ++
      repeat (cave_info 9 9) (Z.to_nat c).
Proof.
  unfold wr_dungeon_sim. rewrite wr_scan_scan_order. cbn [Z.eqb].
  destruct (wr_cells_runs (scan_order cave_info)
              {| buf := []; count := 0; prev_char := 0 |} [])
    as (runs & Hb & Hr & Hc & Hn & Hlast & Hl & He).
  - reflexivity.
  - intros p [].
  - cbn [count]. lia.
  - rewrite scan_order_length. cbn [length]. lia.
  - set (s := fold_left wr_cell (scan_order cave_info) _) in *.
    assert (Hne : scan_order cave_info <> []).
    { intros E. pose proof (scan_order_length cave_info) as F.
      rewrite E in F. discriminate. }
    specialize (Hn Hne). specialize (Hlast Hne).
    rewrite scan_order_last in Hlast.
    exists (count s). split; [lia|]. split.
    + unfold flush. replace (count s =? 0) with false by lia.
      unfold wr_byte. rewrite Hb.
      rewrite scan_order_length in Hl. cbn [length count Z.eqb] in Hl.
      replace (count s =? 0) with false in Hl by lia.
      replace (Z.of_nat (length (rle_bytes runs)) <? 1024) with true
        by (rewrite rle_bytes_length; lia).
      replace (Z.of_nat (length (rle_bytes runs ++ [count s])) <? 1024)
        with true by (rewrite length_app, rle_bytes_length; cbn [length]; lia).
      rewrite <- app_assoc, Hlast. reflexivity.
    + rewrite Hb, <- (app_nil_r (rle_bytes runs)), rle_expand_bytes.
      cbn [rle_expand]. rewrite app_nil_r, <- Hlast, He. reflexivity.
Qed.

End RLE_runs.

(** ** The cover records *)

Section Cover_records.
Context {D : Defines} {R : ZRand} {S : Spells}.

Lemma gset_same {A} (g : grid A) y x v : gset g y x v y x = v.
Proof. unfold gset. now rewrite !Z.eqb_refl. Qed.

Lemma gset_other {A} (g : grid A) y x v y' x' :
  y' <> y \/ x' <> x -> gset g y x v y' x' = g y' x'.
Proof.
  intros H. unfold gset.
  destruct (y' =? y) eqn:Ey; destruct (x' =? x) eqn:Ex; try reflexivity.
  lia.
Qed.

(** X3. [create_cover_at] followed by [get_cover_at] on the same grid
    gives back the tier just stored when the durability is positive (and
    no cover when it is not); the grid gets the feature and a record at
    full durability, every other grid keeps its feature, its record and
    its cover, and out of bounds the call changes nothing. *)
Theorem create_cover_at_lookup L y x ct d f :
  in_bounds y x = true ->
  let L' := create_cover_at L y x ct d f in
  cave_feat L' y x = f /\
  cave_cover L' y x =
    Some {| durability := d; max_durability := d; cover_type := ct;
            terrain_feat := f |} /\
  (0 < d -> get_cover_at L' y x = ct) /\
  (d <= 0 -> get_cover_at L' y x = COVER_NONE) /\
  (forall y' x', y' <> y \/ x' <> x ->
     cave_feat L' y' x' = cave_feat L y' x' /\
     cave_cover L' y' x' = cave_cover L y' x' /\
     get_cover_at L' y' x' = get_cover_at L y' x') /\
  (forall y0 x0, in_bounds y0 x0 = false ->
     create_cover_at L y0 x0 ct d f = L).
Proof.
  intros Hb L'. subst L'. unfold create_cover_at. rewrite Hb. cbn [negb].
  unfold cave_set_feat, put_feat, put_cover, with_feat, with_cover.
  cbn [cave_feat cave_cover].
  split; [apply gset_same|]. split; [apply gset_same|].
  split; [|split; [|split]].
  - intros Hd. unfold get_cover_at. rewrite Hb. cbn [negb cave_cover].
    rewrite gset_same. cbn [durability cover_type].
    destruct (d >? 0) eqn:E; [reflexivity|lia].
  - intros Hd. unfold get_cover_at. rewrite Hb. cbn [negb cave_cover].
    rewrite gset_same. cbn [durability cover_type].
    destruct (d >? 0) eqn:E; [lia|reflexivity].
  - intros y' x' Hne. unfold get_cover_at. cbn [cave_feat cave_cover].
    rewrite !gset_other by assumption. auto.
  - intros y0 x0 H0. rewrite H0. reflexivity.
Qed.

(** What [damage_cover] does to a grid with a record that is not a
    barrel. *)
Lemma damage_cover_with_record L y x damage c :
  in_bounds y x = true ->
  cave_feat L y x <> FEAT_BARREL ->
  cave_cover L y x = Some c ->
  damage_cover L y x damage =
  let L1 := put_cover L y x
              (Some {| durability := durability c - damage;
                       max_durability := max_durability c;
                       cover_type := cover_type c;
                       terrain_feat := terrain_feat c |}) in
  if durability c - damage <=? 0 then destroy_cover L1 y x else L1.
Proof.
  intros Hb Hf Hc.
  unfold damage_cover, damage_cover_body at 1. rewrite Hb. cbn [negb].
  replace (cave_feat L y x =? FEAT_BARREL) with false by lia.
  rewrite Hc. reflexivity.
Qed.

Lemma damage_cover_on_record L y x damage c :
  in_bounds y x = true ->
  cave_feat L y x <> FEAT_BARREL ->
  cave_cover L y x = Some c ->
  let L' := damage_cover L y x damage in
  (durability c <= damage ->
     cave_cover L' y x = None /\ cave_feat L' y x = FEAT_FLOOR) /\
  (damage < durability c ->
     cave_cover L' y x =
       Some {| durability := durability c - damage;
               max_durability := max_durability c;
               cover_type := cover_type c;
               terrain_feat := terrain_feat c |} /\
     cave_feat L' y x = cave_feat L y x /\
     get_cover_at L' y x = cover_type c) /\
  (forall y' x', y' <> y \/ x' <> x ->
     cave_feat L' y' x' = cave_feat L y' x' /\
     cave_cover L' y' x' = cave_cover L y' x') /\
  rand L' = rand L.
Proof.
  intros Hb Hf Hc L'. subst L'.
  rewrite (damage_cover_with_record L y x damage c Hb Hf Hc). cbv zeta.
  unfold destroy_cover. rewrite Hb. cbn [negb].
  unfold cave_set_feat, put_feat, put_cover, with_feat, with_cover.
  cbn [cave_feat cave_cover rand].
  split; [|split; [|split]].
  - intros Hd. replace (durability c - damage <=? 0) with true by lia.
    cbn [cave_feat cave_cover]. now rewrite !gset_same.
  - intros Hd. replace (durability c - damage <=? 0) with false by lia.
    cbn [cave_feat cave_cover]. rewrite gset_same.
    split; [reflexivity|]. split; [reflexivity|].
    unfold get_cover_at. rewrite Hb. cbn [negb cave_cover].
    rewrite gset_same. cbn [durability cover_type].
    destruct (durability c - damage >? 0) eqn:E; [reflexivity|lia].
  - intros y' x' Hne.
    destruct (durability c - damage <=? 0); cbn [cave_feat cave_cover];
      rewrite ?gset_other by assumption; auto.
  - destruct (durability c - damage <=? 0); reflexivity.
Qed.

(** X4. [damage_cover] on a grid that carries a record and is not a
    barrel: when the damage reaches the durability the record is released
    and the grid becomes bare floor; otherwise the record stays with the
    durability lowered by the damage and the grid keeps its feature and
    its tier.  No other grid changes and no random number is drawn. *)
Theorem damage_cover_record L y x damage c :
  in_bounds y x = true ->
  cave_feat L y x <> FEAT_BARREL ->
  cave_cover L y x = Some c ->
  let L' := damage_cover L y x damage in
  (durability c <= damage ->
     cave_cover L' y x = None /\ cave_feat L' y x = FEAT_FLOOR) /\
  (damage < durability c ->
     cave_cover L' y x =
       Some {| durability := durability c - damage;
               max_durability := max_durability c;
               cover_type := cover_type c;
               terrain_feat := terrain_feat c |} /\
     cave_feat L' y x = cave_feat L y x /\
     get_cover_at L' y x = cover_type c) /\
  (forall y' x', y' <> y \/ x' <> x ->
     cave_feat L' y' x' = cave_feat L y' x' /\
     cave_cover L' y' x' = cave_cover L y' x') /\
  rand L' = rand L.
Proof. exact (damage_cover_on_record L y x damage c). Qed.

(** A crate without a record gets one of 20 points, to which the damage
    is then applied. *)
Lemma damage_cover_fresh_crate L y x damage :
  in_bounds y x = true ->
  FEAT_CRATE <> FEAT_BARREL -> FEAT_CRATE <> FEAT_TREES ->
  cave_feat L y x = FEAT_CRATE ->
  cave_cover L y x = None ->
  damage_cover L y x damage =
  damage_cover
    (put_cover L y x
       (Some {| durability := 20; max_durability := 20;
                cover_type := COVER_LIGHT; terrain_feat := FEAT_CRATE |}))
    y x damage.
Proof.
  intros Hb Hcb Hct Hf Hc.
  unfold damage_cover at 1. unfold damage_cover_body at 1.
  rewrite Hb. cbn [negb]. rewrite Hf, Hc.
  replace (FEAT_CRATE =? FEAT_BARREL) with false by lia.
  replace (FEAT_CRATE =? FEAT_TREES) with false by lia.
  cbn [andb]. rewrite Z.eqb_refl.
  set (L2 := put_cover L y x _).
  assert (Hf2 : cave_feat L2 y x = FEAT_CRATE) by exact Hf.
  assert (Hc2 : cave_cover L2 y x =
                Some {| durability := 20; max_durability := 20;
                        cover_type := COVER_LIGHT;
                        terrain_feat := FEAT_CRATE |}).
  { subst L2. unfold put_cover, with_cover. cbn [cave_cover].
    apply gset_same. }
  rewrite (damage_cover_with_record L2 y x damage _ Hb
             ltac:(rewrite Hf2; assumption) Hc2).
  unfold damage_cover_body. rewrite Hb. cbn [negb]. rewrite Hf2.
  replace (FEAT_CRATE =? FEAT_BARREL) with false by lia.
  rewrite Hc2. reflexivity.
Qed.

(** X5. [damage_cover] on a crate that has no record yet: the record of
    20 points is made on the spot and the damage applied to it by the
    call the function makes to itself, so 20 points or more leave bare
    floor without a record, and less leaves the crate with a LIGHT record
    of [20 - damage] points. *)
Theorem damage_cover_crate L y x damage :
  in_bounds y x = true ->
  FEAT_CRATE <> FEAT_BARREL -> FEAT_CRATE <> FEAT_TREES ->
  cave_feat L y x = FEAT_CRATE ->
  cave_cover L y x = None ->
  let L' := damage_cover L y x damage in
  (20 <= damage ->
     cave_cover L' y x = None /\ cave_feat L' y x = FEAT_FLOOR) /\
  (damage < 20 ->
     cave_cover L' y x =
       Some {| durability := 20 - damage; max_durability := 20;
               cover_type := COVER_LIGHT; terrain_feat := FEAT_CRATE |} /\
     cave_feat L' y x = FEAT_CRATE /\
     get_cover_at L' y x = COVER_LIGHT).
Proof.
  intros Hb Hcb Hct Hf Hc L'. subst L'.
  rewrite (damage_cover_fresh_crate L y x damage Hb Hcb Hct Hf Hc).
  set (L2 := put_cover L y x _).
  assert (Hf2 : cave_feat L2 y x = FEAT_CRATE) by exact Hf.
  assert (Hc2 : cave_cover L2 y x =
                Some {| durability := 20; max_durability := 20;
                        cover_type := COVER_LIGHT;
                        terrain_feat := FEAT_CRATE |}).
  { subst L2. unfold put_cover, with_cover. cbn [cave_cover].
    apply gset_same. }
  destruct (damage_cover_on_record L2 y x damage _ Hb
              ltac:(rewrite Hf2; assumption) Hc2) as (H1 & H2 & _).
  cbn [durability max_durability cover_type terrain_feat] in H1, H2.
  split.
  - intros Hd. apply H1. lia.
  - intros Hd. destruct (H2 Hd) as (A & B & C).
    split; [assumption|]. split; [congruence|assumption].
Qed.

End Cover_records.

(** ** The resolution of an attack *)

Section Cover_attack.
Context {D : Defines} {R : ZRand} {S : Spells}.




Lemma cover_loop_below L ay ax dy dx dist steps b b' :
  b < COVER_TOTAL ->
  cover_loop L ay ax dy dx dist steps b = Running b' -> b' < COVER_TOTAL.
Proof.
  revert b. induction steps as [|i steps IH]; intros b Hb H.
  - cbn [cover_loop] in H. injection H as <-. assumption.
  - cbn [cover_loop] in H.
    destruct (cover_step L ay ax dy dx dist b i) as [v|b1] eqn:E;
      [discriminate|].
    apply (IH b1); [|assumption].
    unfold cover_step in E.
    destruct (negb (in_bounds _ _)); [injection E as <-; assumption|].
    destruct (_ || _); [injection E as <-; assumption|].
    destruct (_ >=? COVER_TOTAL) eqn:F; [discriminate|].
    injection E as <-. lia.
Qed.

(** X7. With the tiers in their order, [get_cover_vs_direction] always
    answers a tier between COVER_NONE and COVER_TOTAL, whatever tier the
    records on the line carry; and what the target's own grid adds is
    never above COVER_MEDIUM. *)
Theorem get_cover_vs_direction_range L ty tx ay ax :
  cover_ordered ->
  COVER_NONE <= get_cover_vs_direction L ty tx ay ax <= COVER_TOTAL /\
  (get_cover_vs_direction L ty tx ay ax =
     scan_value (cover_loop L ay ax (ty - ay) (tx - ax)
                   (distance ay ax ty tx) (zupto 1 (distance ay ax ty tx))
                   COVER_NONE) \/
   get_cover_vs_direction L ty tx ay ax = get_cover_at L ty tx /\
   get_cover_at L ty tx <= COVER_MEDIUM).
Proof.
  intros Ho. pose proof Ho as (H1 & H2 & H3 & H4).
  unfold get_cover_vs_direction.
  assert (H0 : COVER_NONE <= COVER_TOTAL) by lia.
  pose proof (cover_loop_mono L ay ax (ty - ay) (tx - ax)
                (distance ay ax ty tx) (zupto 1 (distance ay ax ty tx))
                COVER_NONE Ho H0) as Hm.
  destruct (cover_loop _ _ _ _ _ _ _ _) as [v|b] eqn:E.
  - pose proof E as E'.
    assert (v = COVER_TOTAL).
    { clear Hm E'. revert E.
      generalize COVER_NONE as b0.
      induction (zupto 1 (distance ay ax ty tx)) as [|i l IH]; intros b0 E.
      - discriminate.
      - cbn [cover_loop] in E.
        destruct (cover_step _ _ _ _ _ _ b0 i) as [v1|b1] eqn:F.
        + injection E as <-. eapply cover_step_returned; eassumption.
        + eapply IH; eassumption. }
    subst v. cbn [scan_value] in *. split; [lia|]. left; reflexivity.
  - cbn [scan_value] in Hm.
    assert (H5 : COVER_NONE < COVER_TOTAL) by lia.
    pose proof (cover_loop_below _ _ _ _ _ _ _ _ _ H5 E) as Hlt.
    destruct (_ && _) eqn:F.
    + apply andb_true_iff in F. destruct F as [F1 F2].
      split; [lia|]. right. split; [reflexivity|lia].
    + split; [lia|]. left; reflexivity.
Qed.

End Cover_attack.

(** ** Directional cover *)

Section Cover_bits.
Context {D : Defines} {R : ZRand} {S : Spells}.






End Cover_bits.

Section Cover_more_witnesses.
#[local] Existing Instance sample_defines.
#[local] Existing Instance sample_zrand.
#[local] Existing Instance sample_spells.

Lemma create_cover_at_lookup_witness :
  get_cover_at
    (create_cover_at (sample_floor []) 3 4 COVER_HEAVY 200 FEAT_STONE_PILLAR)
    3 4 = COVER_HEAVY.
Proof.
  exact (proj1 (proj2 (proj2
    (create_cover_at_lookup (sample_floor []) 3 4 COVER_HEAVY 200
       FEAT_STONE_PILLAR eq_refl))) ltac:(lia)).
Defined.

Lemma damage_cover_record_witness :
  cave_cover (damage_cover sample_worn 3 4 30) 3 4 = None /\
  cave_feat (damage_cover sample_worn 3 4 30) 3 4 = FEAT_FLOOR.
Proof.
  refine (proj1 (damage_cover_record sample_worn 3 4 30
            {| durability := 30; max_durability := 100;
               cover_type := COVER_MEDIUM; terrain_feat := FEAT_BOULDER |}
            eq_refl _ eq_refl) _).
  - vm_compute. discriminate.
  - cbn [durability]. lia.
Defined.

Lemma damage_cover_crate_witness :
  cave_cover (damage_cover (sample_floor [(3, 4, FEAT_CRATE)]) 3 4 5) 3 4 =
    Some {| durability := 20 - 5; max_durability := 20;
            cover_type := COVER_LIGHT; terrain_feat := FEAT_CRATE |}.
Proof.
  refine (proj1 (proj2 (damage_cover_crate
            (sample_floor [(3, 4, FEAT_CRATE)]) 3 4 5 eq_refl _ _
            eq_refl eq_refl) _)).
  - vm_compute. discriminate.
  - vm_compute. discriminate.
  - lia.
Defined.



Lemma sample_cover_ordered : cover_ordered.
Proof. vm_compute. intuition discriminate. Qed.

Lemma get_cover_vs_direction_range_witness :
  COVER_NONE <= get_cover_vs_direction (sample_cloud FEAT_BOULDER) 10 5 0 5
    <= COVER_TOTAL.
Proof.
  exact (proj1 (get_cover_vs_direction_range (sample_cloud FEAT_BOULDER)
                  10 5 0 5 sample_cover_ordered)).
Defined.

End Cover_more_witnesses.

(** ** Alerts *)

Section Alert_facts.
Context {D : Defines} {R : ZRand}.

(** The fields of the world that an alert leaves alone. *)
Lemma alert_guard_fields y x radius w i :
  lev (alert_guard y x radius w i) = lev w /\
  m_list (alert_guard y x radius w i) = m_list w /\
  m_max (alert_guard y x radius w i) = m_max w /\
  r_info (alert_guard y x radius w i) = r_info w /\
  py (alert_guard y x radius w i) = py w /\
  px (alert_guard y x radius w i) = px w /\
  skill_stl (alert_guard y x radius w i) = skill_stl w.
Proof.
  unfold alert_guard.
  destruct (r_idx (m_list w i) =? 0); [repeat split|].
  destruct (m_guard w i) as [g|]; [|repeat split].
  destruct (distance _ _ _ _ >? radius); [repeat split|].
  destruct (_ && _); [repeat split|].
  destruct (guard_state g); repeat split.
Qed.

Lemma alert_guard_record y x radius w i j :
  m_guard (alert_guard y x radius w i) j =
  if j =? i then
    match m_guard w i with
    | Some g =>
        if alertable y x radius w i g
        then Some (set_alert (set_state g GUARD_STATE_ALERT) y x)
        else Some g
    | None => None
    end
  else m_guard w j.
Proof.
  unfold alert_guard, alertable.
  destruct (Z.eqb_spec j i) as [->|Hne].
  - destruct (r_idx (m_list w i) =? 0) eqn:E0; cbn [negb andb].
    { destruct (m_guard w i); reflexivity. }
    destruct (m_guard w i) as [g|] eqn:Eg; [|assumption].
    destruct (distance y x _ _ >? radius) eqn:Ed.
    { replace (distance y x (fy (m_list w i)) (fx (m_list w i)) <=? radius)
        with false by lia. cbn [andb]. assumption. }
    replace (distance y x (fy (m_list w i)) (fx (m_list w i)) <=? radius)
      with true by lia. cbn [andb].
    destruct (Z.land (flags2 _) RF2_SMART =? 0);
      destruct (Z.land (flags1 _) RF1_FRIENDS =? 0); cbn [negb andb orb];
      try assumption;
      destruct (guard_state g); cbn [put_guard m_guard];
      rewrite ?Z.eqb_refl; try assumption; reflexivity.
  - destruct (r_idx (m_list w i) =? 0); [reflexivity|].
    destruct (m_guard w i) as [g|]; [|reflexivity].
    destruct (distance _ _ _ _ >? radius); [reflexivity|].
    destruct (_ && _); [reflexivity|].
    destruct (guard_state g); cbn [put_guard m_guard];
      try reflexivity;
      replace (j =? i) with false by lia; reflexivity.
Qed.

Lemma alertable_fields y x radius w w' m g :
  m_list w' = m_list w -> r_info w' = r_info w ->
  alertable y x radius w' m g = alertable y x radius w m g.
Proof. intros H1 H2. unfold alertable. now rewrite H1, H2. Qed.

Lemma alert_fold y x radius n lo w j :
  let w' := fold_left (alert_guard y x radius) (zrange lo n) w in
  (lev w' = lev w /\ m_list w' = m_list w /\ m_max w' = m_max w /\
   r_info w' = r_info w /\ py w' = py w /\ px w' = px w /\
   skill_stl w' = skill_stl w) /\
  m_guard w' j =
  match m_guard w j with
  | Some g =>
      if (lo <=? j) && (j <? lo + Z.of_nat n) && alertable y x radius w j g
      then Some (set_alert (set_state g GUARD_STATE_ALERT) y x)
      else Some g
  | None => None
  end.
Proof.
  revert lo w. induction n as [|n IH]; intros lo w.
  - cbn [zrange fold_left]. split; [repeat split|].
    destruct (m_guard w j); [|reflexivity].
    replace ((lo <=? j) && (j <? lo + Z.of_nat 0)) with false by lia.
    reflexivity.
  - cbn [zrange fold_left]. cbv zeta.
    destruct (IH (lo + 1) (alert_guard y x radius w lo)) as [F G].
    destruct (alert_guard_fields y x radius w lo)
      as (F1 & F2 & F3 & F4 & F5 & F6 & F7).
    destruct F as (G1 & G2 & G3 & G4 & G5 & G6 & G7).
    split.
    { repeat split; congruence. }
    rewrite G. rewrite alert_guard_record.
    destruct (Z.eqb_spec j lo) as [->|Hne].
    + replace ((lo + 1 <=? lo) && (lo <? lo + 1 + Z.of_nat n)) with false
        by lia.
      replace ((lo <=? lo) && (lo <? lo + Z.of_nat (S n))) with true by lia.
      cbn [andb].
      destruct (m_guard w lo) as [g|]; [|reflexivity].
      destruct (alertable y x radius w lo g); reflexivity.
    + replace ((lo + 1 <=? j) && (j <? lo + 1 + Z.of_nat n))
        with ((lo <=? j) && (j <? lo + Z.of_nat (S n))) by lia.
      destruct (m_guard w j) as [g|]; [|reflexivity].
      now rewrite (alertable_fields y x radius w _ j g F2 F4).
Qed.

Lemma alert_nearby_guards_record y x radius w j :
  m_guard (alert_nearby_guards y x radius w) j =
  match m_guard w j with
  | Some g =>
      if (1 <=? j) && (j <? m_max w) && alertable y x radius w j g
      then Some (set_alert (set_state g GUARD_STATE_ALERT) y x)
      else Some g
  | None => None
  end.
Proof.
  unfold alert_nearby_guards, zupto.
  destruct (alert_fold y x radius (Z.to_nat (m_max w - 1)) 1 w j) as [_ G].
  rewrite G. destruct (m_guard w j) as [g|]; [|reflexivity].
  replace ((1 <=? j) && (j <? 1 + Z.of_nat (Z.to_nat (m_max w - 1))))
    with ((1 <=? j) && (j <? m_max w)) by lia.
  reflexivity.
Qed.

Lemma alert_nearby_guards_fields y x radius w :
  let w' := alert_nearby_guards y x radius w in
  lev w' = lev w /\ m_list w' = m_list w /\ m_max w' = m_max w /\
  r_info w' = r_info w /\ py w' = py w /\ px w' = px w /\
  skill_stl w' = skill_stl w.
Proof.
  unfold alert_nearby_guards, zupto.
  exact (proj1 (alert_fold y x radius (Z.to_nat (m_max w - 1)) 1 w 0)).
Qed.

(** X9. [alert_nearby_guards] treats every monster by itself: the guard
    record of a monster becomes ALERT, with the alert position [(y, x)],
    exactly when its index lies in [1, m_max) and the monster is alive,
    within the radius, of a smart race or one with friends, and on
    patrol, on guard or asleep.  Every other record (a guard that is
    already alert, chasing or returning among them) is left as it is,
    no record is made for a monster that has none, and the level, the
    monsters and the player are not touched. *)
Theorem alert_nearby_guards_spec y x radius w m :
  let w' := alert_nearby_guards y x radius w in
  m_guard w' m =
    match m_guard w m with
    | Some g =>
        if (1 <=? m) && (m <? m_max w) && alertable y x radius w m g
        then Some (set_alert (set_state g GUARD_STATE_ALERT) y x)
        else Some g
    | None => None
    end /\
  (forall g, m_guard w m = Some g ->
     guard_state g = GUARD_STATE_ALERT \/ guard_state g = GUARD_STATE_CHASE \/
     guard_state g = GUARD_STATE_RETURN ->
     m_guard w' m = Some g) /\
  lev w' = lev w /\ m_list w' = m_list w /\ m_max w' = m_max w /\
  py w' = py w /\ px w' = px w.
Proof.
  intros w'. subst w'.
  destruct (alert_nearby_guards_fields y x radius w)
    as (F1 & F2 & F3 & F4 & F5 & F6 & F7).
  split; [apply alert_nearby_guards_record|].
  split; [|repeat split; assumption].
  intros g Hg Hs. rewrite alert_nearby_guards_record, Hg.
  unfold alertable.
  destruct Hs as [Hs|[Hs|Hs]]; rewrite Hs; now rewrite !andb_false_r.
Qed.

End Alert_facts.

(** ** The state machine *)

Section Behavior_facts.
Context {D : Defines} {R : ZRand}.
Variable player_has_los_bold : world -> Z -> Z -> bool.
Variable cave_floor_bold : world -> Z -> Z -> bool.
Variable monster_swap : world -> Z -> Z -> Z -> Z -> world.

Lemma state_of_with_lev w L m :
  state_of (with_lev w L) m = state_of w m.
Proof. reflexivity. Qed.





Lemma put_guard_same w m g : m_guard (put_guard w m g) m = Some g.
Proof. cbn [put_guard m_guard]. now rewrite Z.eqb_refl. Qed.



End Behavior_facts.

(** ** Routes *)

Section Route_facts.
Context {D : Defines} {R : ZRand}.

Lemma forallb_zupto (P : Z -> bool) lo hi :
  forallb P (zupto lo hi) = true -> forall c, lo <= c < hi -> P c = true.
Proof.
  intros H c Hc. rewrite forallb_forall in H. apply H. apply zupto_In.
  assumption.
Qed.

(** The bit operations of the BACKFORTH case on one byte. *)
Lemma byte_flag_bits c :
  0 <= c < 256 ->
  Z.land c 127 = c mod 128 /\
  (Z.land c 128 =? 0) = (c <? 128) /\
  Z.lor (c mod 128) 128 = c mod 128 + 128.
Proof.
  intros Hc.
  assert (H : forallb
                (fun c => (Z.land c 127 =? c mod 128) &&
                          Bool.eqb (Z.land c 128 =? 0) (c <? 128) &&
                          (Z.lor (c mod 128) 128 =? c mod 128 + 128))
                (zupto 0 256) = true) by (vm_compute; reflexivity).
  pose proof (forallb_zupto _ _ _ H c Hc) as F. cbv beta in F.
  apply andb_true_iff in F. destruct F as [F F3].
  apply andb_true_iff in F. destruct F as [F1 F2].
  apply Z.eqb_eq in F1. apply Z.eqb_eq in F3. apply Bool.eqb_prop in F2.
  auto.
Qed.

(** X12. A CIRCUIT route is walked round and round: with the index of the
    current waypoint inside the route, [advance_patrol_waypoint] moves it
    to the next index modulo the number of waypoints, so it stays inside
    the route; nothing else of the record changes and no random number is
    drawn. *)
Theorem advance_patrol_waypoint_circuit g L :
  patrol_type g = PATROL_TYPE_CIRCUIT ->
  0 <= current_waypoint g < num_waypoints g ->
  advance_patrol_waypoint g L =
    (set_current g ((current_waypoint g + 1) mod num_waypoints g), L) /\
  0 <= current_waypoint (fst (advance_patrol_waypoint g L))
    < num_waypoints (fst (advance_patrol_waypoint g L)).
Proof.
  intros Ht Hc.
  assert (E : advance_patrol_waypoint g L =
              (set_current g ((current_waypoint g + 1) mod num_waypoints g),
               L)).
  { unfold advance_patrol_waypoint. rewrite Ht.
    replace (num_waypoints g =? 0) with false by lia.
    destruct (current_waypoint g + 1 >=? num_waypoints g) eqn:E.
    - replace (current_waypoint g + 1) with (num_waypoints g) by lia.
      rewrite Z.mod_same by lia. reflexivity.
    - rewrite Z.mod_small by lia. reflexivity. }
  rewrite E. split; [reflexivity|].
  cbn [fst set_current current_waypoint num_waypoints].
  apply Z.mod_pos_bound. lia.
Qed.

(** X13. A BACKFORTH route of 2 to 128 waypoints: the low seven bits of
    [current_waypoint] are the index of the waypoint and bit 7 the
    direction.  [advance_patrol_waypoint] always moves the index by
    exactly one step and keeps it inside the route; once the guard has
    turned round at the far end, [current_waypoint] itself, flag
    included, is 128 or more. *)
Theorem advance_patrol_waypoint_backforth g L :
  patrol_type g = PATROL_TYPE_BACKFORTH ->
  2 <= num_waypoints g <= 128 ->
  0 <= current_waypoint g < 256 ->
  Z.land (current_waypoint g) 127 < num_waypoints g ->
  let g' := fst (advance_patrol_waypoint g L) in
  0 <= current_waypoint g' < 256 /\
  Z.land (current_waypoint g') 127 < num_waypoints g' /\
  Z.abs (Z.land (current_waypoint g') 127 -
         Z.land (current_waypoint g) 127) = 1 /\
  (current_waypoint g = num_waypoints g - 1 ->
   current_waypoint g' = num_waypoints g - 2 + 128) /\
  snd (advance_patrol_waypoint g L) = L.
Proof.
  intros Ht Hn Hc Hi g'. subst g'.
  destruct (byte_flag_bits _ Hc) as (B1 & B2 & B3).
  rewrite B1 in Hi.
  unfold advance_patrol_waypoint. rewrite Ht.
  replace (num_waypoints g =? 0) with false by lia.
  rewrite B2, B1.
  destruct (current_waypoint g <? 128) eqn:E; cbn [negb].
  - rewrite Z.mod_small in Hi by lia.
    destruct (current_waypoint g + 1 >=? num_waypoints g) eqn:F;
      cbn [fst snd set_current current_waypoint num_waypoints].
    + assert (Hw : 0 <= num_waypoints g - 2 < 256) by lia.
      destruct (byte_flag_bits _ Hw) as (W1 & W2 & W3).
      rewrite Z.mod_small in W3 by lia. rewrite W3.
      assert (Hw' : 0 <= num_waypoints g - 2 + 128 < 256) by lia.
      destruct (byte_flag_bits _ Hw') as (V1 & _ & _).
      rewrite V1.
      replace ((num_waypoints g - 2 + 128) mod 128)
        with (num_waypoints g - 2)
        by (rewrite <- (Z.mod_small (num_waypoints g - 2) 128) at 1 by lia;
            rewrite <- Z.add_mod_idemp_r by lia;
            rewrite Z.mod_same, Z.add_0_r by lia; reflexivity).
      rewrite Z.mod_small by lia.
      repeat split; lia.
    + assert (Hw : 0 <= current_waypoint g + 1 < 256) by lia.
      destruct (byte_flag_bits _ Hw) as (W1 & _ & _). rewrite W1.
      rewrite !Z.mod_small by lia. repeat split; lia.
  - assert (Hm : current_waypoint g mod 128 = current_waypoint g - 128).
    { rewrite <- (Z.mod_small (current_waypoint g - 128) 128) by lia.
      replace (current_waypoint g) with (current_waypoint g - 128 + 1 * 128)
        at 1 by lia.
      now rewrite Z.mod_add by lia. }
    rewrite Hm in *.
    destruct (current_waypoint g - 128 - 1 <? 0) eqn:F;
      cbn [fst snd set_current current_waypoint num_waypoints].
    + change (Z.land 1 127) with 1. repeat split; lia.
    + assert (Hw : 0 <= current_waypoint g - 128 - 1 < 256) by lia.
      destruct (byte_flag_bits _ Hw) as (W1 & W2 & W3).
      rewrite Z.mod_small in W3 by lia. rewrite W3.
      assert (Hw' : 0 <= current_waypoint g - 128 - 1 + 128 < 256) by lia.
      destruct (byte_flag_bits _ Hw') as (V1 & _ & _). rewrite V1.
      replace (current_waypoint g - 128 - 1 + 128)
        with (current_waypoint g - 1) by lia.
      replace ((current_waypoint g - 1) mod 128)
        with (current_waypoint g - 129).
      2:{ rewrite <- (Z.mod_small (current_waypoint g - 129) 128) by lia.
          replace (current_waypoint g - 1)
            with (current_waypoint g - 129 + 1 * 128) by lia.
          now rewrite Z.mod_add by lia. }
      repeat split; lia.
Qed.

End Route_facts.

Section Setup_facts.
Context {D : Defines} {R : ZRand}.
Variable cave_floor_bold : world -> Z -> Z -> bool.
Variable sind : Z -> Z.
Variable cosd : Z -> Z.

Lemma rand_int_feat m L : cave_feat (snd (rand_int m L)) = cave_feat L.
Proof. exact (proj1 (rand_int_same_cave m L)). Qed.

Lemma rand_int_nonneg m L : zrand_ok -> 0 <= fst (rand_int m L).
Proof.
  intros Hz. unfold rand_int. destruct (m <=? 1) eqn:E; [cbn; lia|].
  pose proof (Rand_div_range m (rand L) Hz ltac:(lia)) as H.
  destruct (Rand_div m (rand L)). cbn [fst] in *. lia.
Qed.

(** One waypoint of the route: what the step leaves alone and what it
    establishes. *)
Lemma route_step_spec w m L g i L' g' :
  zrand_ok -> floor_by_feat cave_floor_bold ->
  route_step cave_floor_bold sind cosd w m (L, g) i = (L', g') ->
  cave_feat L' = cave_feat L /\
  guard_state g' = guard_state g /\ patrol_type g' = patrol_type g /\
  home_y g' = home_y g /\ home_x g' = home_x g /\
  num_waypoints g' = num_waypoints g /\
  current_waypoint g' = current_waypoint g /\
  (forall j, j <> i -> waypoints g' j = waypoints g j) /\
  5 <= wait_turns (waypoints g' i) /\
  waypoint_ok cave_floor_bold (with_lev w L') g' i.
Proof.
  intros Hz Hf. unfold route_step.
  pose proof (rand_int_feat (PATROL_RADIUS - 2) L) as F1.
  destruct (rand_int (PATROL_RADIUS - 2) L) as [r L1]. cbn [snd] in F1.
  pose proof (rand_int_feat PATROL_REST_TURNS L1) as F2.
  pose proof (rand_int_nonneg PATROL_REST_TURNS L1 Hz) as N2.
  destruct (rand_int PATROL_REST_TURNS L1) as [r' L2].
  cbn [fst snd] in F1, F2, N2.
  assert (Hwt : 5 <= 5 + r') by lia. revert Hwt.
  generalize (5 + r') as wt. intros wt Hwt.
  set (y := home_y g + Z.quot ((3 + r) * sind _) 256).
  set (x := home_x g + Z.quot ((3 + r) * cosd _) 256).
  destruct (negb (in_bounds y x) || negb (cave_floor_bold _ y x)) eqn:E;
    intros H; injection H as <- <-;
    cbn [set_waypoint guard_state patrol_type home_y home_x num_waypoints
         current_waypoint waypoints];
    rewrite ?Z.eqb_refl; cbv [wait_turns].
  - split; [congruence|]. do 6 (split; [reflexivity|]).
    split; [intros j Hj; replace (j =? i) with false by lia; reflexivity|].
    split; [lia|].
    left. cbn [set_waypoint waypoints home_y home_x].
    rewrite Z.eqb_refl. split; reflexivity.
  - split; [congruence|]. do 6 (split; [reflexivity|]).
    split; [intros j Hj; replace (j =? i) with false by lia; reflexivity|].
    split; [lia|].
    right. cbn [set_waypoint waypoints]. rewrite Z.eqb_refl.
    cbn [wp_y wp_x].
    apply orb_false_iff in E. destruct E as [E1 E2].
    apply negb_false_iff in E1. apply negb_false_iff in E2.
    split; [assumption|].
    rewrite <- E2. apply Hf. reflexivity.
Qed.

Lemma waypoint_ok_ext w w' g g' i :
  floor_by_feat cave_floor_bold ->
  cave_feat (lev w') = cave_feat (lev w) ->
  waypoints g' i = waypoints g i ->
  home_y g' = home_y g -> home_x g' = home_x g ->
  waypoint_ok cave_floor_bold w g i -> waypoint_ok cave_floor_bold w' g' i.
Proof.
  intros Hf Hc Hw Hy Hx [[A B]|[A B]]; unfold waypoint_ok;
    rewrite Hw, Hy, Hx.
  - left; split; assumption.
  - right; split; [assumption|]. rewrite <- B. apply Hf. assumption.
Qed.

Lemma route_fold_spec w m l L g L' g' :
  zrand_ok -> floor_by_feat cave_floor_bold ->
  fold_left (route_step cave_floor_bold sind cosd w m) l (L, g) = (L', g') ->
  cave_feat L' = cave_feat L /\
  guard_state g' = guard_state g /\ patrol_type g' = patrol_type g /\
  home_y g' = home_y g /\ home_x g' = home_x g /\
  num_waypoints g' = num_waypoints g /\
  current_waypoint g' = current_waypoint g /\
  (forall i, In i l ->
     5 <= wait_turns (waypoints g' i) /\
     waypoint_ok cave_floor_bold (with_lev w L') g' i).
Proof.
  intros Hz Hf. revert L g L' g'.
  induction l as [|i l IH] using rev_ind; intros L g L' g' H.
  - cbn [fold_left] in H. injection H as <- <-.
    do 7 (split; [reflexivity|]). intros k [].
  - rewrite fold_left_app in H. cbn [fold_left] in H.
    destruct (fold_left _ l (L, g)) as [L1 g1] eqn:E1.
    destruct (IH L g L1 g1 E1)
      as (A1 & A2 & A3 & A4 & A5 & A6 & A7 & A8).
    destruct (route_step_spec w m L1 g1 i L' g' Hz Hf H)
      as (B1 & B2 & B3 & B4 & B5 & B6 & B7 & B8 & B9 & B10).
    do 7 (split; [congruence|]).
    intros k Hk. apply in_app_or in Hk. destruct Hk as [Hin|[<-|[]]].
    + destruct (Z.eq_dec k i) as [->|Hne]; [split; assumption|].
      rewrite B8 by assumption. split; [apply A8; assumption|].
      apply (waypoint_ok_ext (with_lev w L1) (with_lev w L') g1 g' k Hf).
      * cbn [with_lev lev]. assumption.
      * apply B8; assumption.
      * assumption.
      * assumption.
      * apply A8; assumption.
    + split; assumption.
Qed.

(** X14. [setup_monster_patrol] for a CIRCUIT or a BACKFORTH route (draws
    of the generator in range, a floor test that looks at the features
    only): the monster gets a record in state PATROL whose home is the
    grid it stands on, with 4 to 7 waypoints; every waypoint of the route
    is the home grid or a floor grid in bounds, whatever the sine and the
    cosine give, and rests 5 turns or more.  The features of the level
    and the records of the other monsters are left alone. *)
Theorem setup_monster_patrol_route w m type :
  zrand_ok -> floor_by_feat cave_floor_bold ->
  type = PATROL_TYPE_CIRCUIT \/ type = PATROL_TYPE_BACKFORTH ->
  let w' := setup_monster_patrol cave_floor_bold sind cosd w m type in
  exists g,
    m_guard w' m = Some g /\
    guard_state g = GUARD_STATE_PATROL /\ patrol_type g = type /\
    home_y g = fy (m_list w m) /\ home_x g = fx (m_list w m) /\
    4 <= num_waypoints g <= 7 /\
    (forall i, 0 <= i < num_waypoints g ->
       5 <= wait_turns (waypoints g i) /\
       waypoint_ok cave_floor_bold w' g i) /\
    cave_feat (lev w') = cave_feat (lev w) /\
    (forall j, j <> m -> m_guard w' j = m_guard w j).
Proof.
  intros Hz Hf Ht w'. subst w'. unfold setup_monster_patrol.
  destruct (alloc_guard_data w m) as [w0 guard0] eqn:Ea.
  assert (Hw0 : lev w0 = lev w /\
                forall j, j <> m -> m_guard w0 j = m_guard w j).
  { unfold alloc_guard_data in Ea.
    destruct (m_guard w m); injection Ea as <- <-.
    - split; reflexivity.
    - cbn [put_guard lev m_guard]. split; [reflexivity|].
      intros j Hj. replace (j =? m) with false by lia. reflexivity. }
  destruct Hw0 as [Hlev Hoth].
  pose proof (rand_int_range 4 (lev w0) Hz ltac:(lia)) as Hr.
  pose proof (rand_int_feat 4 (lev w0)) as Hrf.
  destruct Ht as [-> | ->].
  all: destruct (rand_int 4 (lev w0)) as [r L1]; cbn [fst snd] in Hr, Hrf;
    cbv zeta;
    match goal with
    | |- context [fold_left ?f ?l (L1, ?g1)] =>
        destruct (fold_left f l (L1, g1)) as [L2 g2] eqn:Ef;
        destruct (route_fold_spec w0 m _ _ _ _ _ Hz Hf Ef)
          as (A1 & A2 & A3 & A4 & A5 & A6 & A7 & A8)
    end;
    cbn [set_num set_state set_home set_type guard_state patrol_type home_y
         home_x num_waypoints current_waypoint] in A2, A3, A4, A5, A6, A7, A8;
    exists g2; rewrite put_guard_same;
    (split; [reflexivity|]); (split; [exact A2|]); (split; [exact A3|]);
    (split; [exact A4|]); (split; [exact A5|]); (split; [lia|]);
    (split;
     [intros i Hi; destruct (A8 i) as [B1 B2]; [apply zupto_In; lia|];
      split; [assumption|];
      apply (waypoint_ok_ext (with_lev w0 L2) _ g2 g2 i Hf);
        [reflexivity|reflexivity|reflexivity|reflexivity|assumption]|]);
    (split; [cbn [put_guard with_lev lev]; congruence|]);
    intros j Hj; cbn [put_guard with_lev m_guard];
    replace (j =? m) with false by lia; apply Hoth; assumption.
Qed.

End Setup_facts.

Section Patrol_more_witnesses.
#[local] Existing Instance sample_defines.
#[local] Existing Instance sample_zrand.


Lemma sample_floor_by_feat : floor_by_feat sample_floor_bold.
Proof. intros w w' y x H. unfold sample_floor_bold. now rewrite H. Qed.

Lemma alert_nearby_guards_spec_witness :
  state_of (alert_nearby_guards 4 4 10
              (sample_guard GUARD_STATE_SLEEP PATROL_TYPE_CIRCUIT 0)) 2 =
  Some GUARD_STATE_ALERT.
Proof.
  unfold state_of.
  rewrite (proj1 (alert_nearby_guards_spec 4 4 10
             (sample_guard GUARD_STATE_SLEEP PATROL_TYPE_CIRCUIT 0) 2)).
  reflexivity.
Defined.



Lemma advance_patrol_waypoint_circuit_witness :
  current_waypoint
    (fst (advance_patrol_waypoint (sample_route PATROL_TYPE_CIRCUIT 3)
            (sample_floor []))) = 0.
Proof.
  rewrite (proj1 (advance_patrol_waypoint_circuit
                    (sample_route PATROL_TYPE_CIRCUIT 3) (sample_floor [])
                    eq_refl ltac:(cbn; lia))).
  reflexivity.
Defined.

Lemma advance_patrol_waypoint_backforth_witness :
  current_waypoint
    (fst (advance_patrol_waypoint (sample_route PATROL_TYPE_BACKFORTH 3)
            (sample_floor []))) = 4 - 2 + 128.
Proof.
  refine (proj1 (proj2 (proj2 (proj2
    (advance_patrol_waypoint_backforth
       (sample_route PATROL_TYPE_BACKFORTH 3) (sample_floor [])
       eq_refl _ _ _)))) eq_refl); cbn; lia.
Defined.

Lemma setup_monster_patrol_route_witness :
  exists g,
    m_guard (setup_monster_patrol sample_floor_bold sample_sind sample_cosd
               (sample_chaser 7 7) 2 PATROL_TYPE_CIRCUIT) 2 = Some g /\
    4 <= num_waypoints g <= 7.
Proof.
  destruct (setup_monster_patrol_route sample_floor_bold sample_sind
              sample_cosd (sample_chaser 7 7) 2 PATROL_TYPE_CIRCUIT
              sample_zrand_ok sample_floor_by_feat (or_introl eq_refl))
    as (g & H1 & _ & _ & _ & _ & H2 & _).
  exists g. split; assumption.
Defined.

End Patrol_more_witnesses.

(** ** What the corridors leave alone *)

Section Tunnel_keep_facts.
Context {D : Defines} {R : ZRand}.

Lemma put_feat_at L y x v y' x' :
  cave_feat (put_feat L y x v) y' x' =
  if (y' =? y) && (x' =? x) then v else cave_feat L y' x'.
Proof. reflexivity. Qed.

Lemma listed_In l y x :
  listed l y x = true <-> In (y, x) l.
Proof.
  unfold listed. rewrite existsb_exists. split.
  - intros ([a b] & Hin & H). cbn [fst snd] in H.
    replace y with a by lia. replace x with b by lia. assumption.
  - intros H. exists (y, x). split; [assumption|]. cbn [fst snd]. lia.
Qed.

Lemma apply_tunn_spec l L y x :
  cave_feat (apply_tunn l L) y x =
  if listed l y x then FEAT_FLOOR else cave_feat L y x.
Proof.
  unfold apply_tunn. revert L.
  induction l as [|p l IH]; intros L; cbn [fold_left listed existsb].
  - reflexivity.
  - fold (listed l y x). rewrite IH, put_feat_at.
    destruct (listed l y x); [now rewrite orb_true_r|].
    rewrite orb_false_r.
    replace ((fst p =? y) && (snd p =? x))
      with ((y =? fst p) && (x =? snd p))
      by (rewrite (Z.eqb_sym y), (Z.eqb_sym x); reflexivity).
    reflexivity.
Qed.

Lemma apply_tunn_fields l L :
  cave_info (apply_tunn l L) = cave_info L /\ rand (apply_tunn l L) = rand L.
Proof.
  unfold apply_tunn. revert L.
  induction l as [|p l IH]; intros L; cbn [fold_left]; [split; reflexivity|].
  destruct (IH (put_feat L (fst p) (snd p) FEAT_FLOOR)) as [A B].
  split; [rewrite A|rewrite B]; reflexivity.
Qed.

(** A door is put on the grid asked for and nowhere else. *)
Lemma place_random_door_frame y x L y' x' :
  y' <> y \/ x' <> x ->
  cave_feat (place_random_door y x L) y' x' = cave_feat L y' x'.
Proof.
  intros Hne. unfold place_random_door.
  pose proof (rand_int_feat 1000 L) as F.
  destruct (rand_int 1000 L) as [tmp L1]. cbn [snd] in F.
  assert (G : forall v, cave_feat (put_feat L1 y x v) y' x' = cave_feat L y' x').
  { intros v. rewrite put_feat_at, F.
    destruct (y' =? y) eqn:Ey; destruct (x' =? x) eqn:Ex; try reflexivity.
    lia. }
  repeat match goal with
         | |- context [if ?b then _ else _] => destruct b
         end; try apply G.
  - unfold randint. pose proof (rand_int_feat 7 L1) as F2.
    destruct (rand_int 7 L1) as [r L2]. cbn [snd] in F2.
    rewrite put_feat_at, F2, F.
    destruct (y' =? y) eqn:Ey; destruct (x' =? x) eqn:Ex; try reflexivity.
    lia.
  - pose proof (rand_int_feat 8 L1) as F2.
    destruct (rand_int 8 L1) as [r L2]. cbn [snd] in F2.
    rewrite put_feat_at, F2, F.
    destruct (y' =? y) eqn:Ey; destruct (x' =? x) eqn:Ex; try reflexivity.
    lia.
Qed.

Lemma apply_wall_frame l L y x :
  listed l y x = false ->
  cave_feat (apply_wall l L) y x = cave_feat L y x.
Proof.
  unfold apply_wall. revert L.
  induction l as [|p l IH]; intros L H; cbn [fold_left]; [reflexivity|].
  cbn [listed existsb] in H. fold (listed l y x) in H.
  apply orb_false_iff in H. destruct H as [Hp Hl].
  assert (Hne : y <> fst p \/ x <> snd p) by lia.
  rewrite IH by assumption.
  pose proof (rand_int_feat 100 (put_feat L (fst p) (snd p) FEAT_FLOOR))
    as F.
  destruct (rand_int 100 _) as [r L2]. cbn [snd] in F.
  destruct (r <? DUN_TUN_PEN).
  - rewrite place_random_door_frame by assumption.
    rewrite F, put_feat_at.
    destruct (y =? fst p) eqn:Ey; destruct (x =? snd p) eqn:Ex;
      try reflexivity. lia.
  - rewrite F, put_feat_at.
    destruct (y =? fst p) eqn:Ey; destruct (x =? snd p) eqn:Ex;
      try reflexivity. lia.
Qed.

Lemma correct_dir_feat y1 x1 y2 x2 L :
  cave_feat (snd (correct_dir y1 x1 y2 x2 L)) = cave_feat L.
Proof.
  unfold correct_dir.
  destruct (negb _ && negb _); [|reflexivity].
  pose proof (rand_int_feat 100 L) as F.
  destruct (rand_int 100 L) as [r L1]. cbn [snd] in F.
  destruct (r <? 50); assumption.
Qed.

Lemma rand_dir_feat L : cave_feat (snd (rand_dir L)) = cave_feat L.
Proof.
  unfold rand_dir. pose proof (rand_int_feat 4 L) as F.
  destruct (rand_int 4 L) as [i L1]. exact F.
Qed.

Lemma tunnel_redirect_spec fuel row2 col2 rd cd t rd' cd' L3 :
  tunnel_redirect fuel row2 col2 rd cd t = Some (rd', cd', L3) ->
  cave_feat L3 = cave_feat (t_lev t) /\
  in_bounds_fully (t_row t + rd') (t_col t + cd') = true.
Proof.
  revert rd cd t. induction fuel as [|fuel IH]; intros rd cd t H.
  - cbn [tunnel_redirect] in H.
    destruct (in_bounds_fully _ _) eqn:E; [|discriminate].
    injection H as <- <- <-. split; [reflexivity|assumption].
  - cbn [tunnel_redirect] in H.
    destruct (in_bounds_fully (t_row t + rd) (t_col t + cd)) eqn:E.
    { injection H as <- <- <-. split; [reflexivity|assumption]. }
    pose proof (correct_dir_feat (t_row t) (t_col t) row2 col2 (t_lev t))
      as F1.
    destruct (correct_dir _ _ _ _ _) as [[rd1 cd1] L1]. cbn [snd] in F1.
    pose proof (rand_int_feat 100 L1) as F2.
    destruct (rand_int 100 L1) as [r L2]. cbn [snd] in F2.
    pose proof (rand_dir_feat L2) as F3.
    destruct (r <? DUN_TUN_RND).
    + destruct (rand_dir L2) as [[rd2 cd2] L4]. cbn [snd] in F3.
      apply IH in H. cbn [t_lev t_row t_col] in H.
      destruct H as [H1 H2]. split; [congruence|assumption].
    + apply IH in H. cbn [t_lev t_row t_col] in H.
      destruct H as [H1 H2]. split; [congruence|assumption].
Qed.

Lemma push_In max a y x p :
  In p (push max a y x) -> In p a \/ p = (y, x).
Proof.
  unfold push. destruct (_ <? max); [|auto].
  intros H. apply in_app_or in H. destruct H as [H|[<-|[]]]; auto.
Qed.

Lemma push_length max a y x :
  Z.of_nat (length a) <= max -> Z.of_nat (length (push max a y x)) <= max.
Proof.
  intros H. unfold push. destruct (_ <? max) eqn:E; [|assumption].
  rewrite length_app. cbn [length]. lia.
Qed.

Lemma protected_not_outer f :
  wall_codes_distinct -> protected_feat f = true -> f <> FEAT_WALL_OUTER.
Proof.
  intros (H1 & H2 & H3) H. unfold protected_feat in H. lia.
Qed.

(** One look of the straight tunneler at the grid in front of it. *)
Lemma tunnel_cell_inv L0 sr sc rd cd t :
  wall_codes_distinct ->
  in_bounds_fully (t_row t + rd) (t_col t + cd) = true ->
  tunnel_inv L0 t ->
  tunnel_inv L0 (flow_tunneler (tunnel_cell sr sc rd cd t)).
Proof.
  intros Hd Hb (K & O & I & N1 & N2). pose proof Hd as (D1 & D2 & D3).
  unfold tunnel_cell.
  set (tr := t_row t + rd) in *. set (tc := t_col t + cd) in *.
  assert (Hinv : tunnel_inv L0 t)
    by exact (conj K (conj O (conj I (conj N1 N2)))).
  destruct (cave_feat (t_lev t) tr tc =? FEAT_PERM_SOLID) eqn:E1;
    [exact Hinv|].
  destruct (cave_feat (t_lev t) tr tc =? FEAT_PERM_OUTER) eqn:E2;
    [exact Hinv|].
  destruct (cave_feat (t_lev t) tr tc =? FEAT_WALL_SOLID) eqn:E3;
    [exact Hinv|].
  assert (Hun : protected_feat (cave_feat L0 tr tc) = false).
  { destruct (protected_feat (cave_feat L0 tr tc)) eqn:P; [|reflexivity].
    pose proof (K tr tc P) as Q. unfold protected_feat in P. lia. }
  destruct (cave_feat (t_lev t) tr tc =? FEAT_WALL_OUTER) eqn:E4.
  { destruct (cave_feat (t_lev t) (tr + rd) (tc + cd) =? FEAT_PERM_SOLID);
      [exact Hinv|].
    destruct (cave_feat (t_lev t) (tr + rd) (tc + cd) =? FEAT_PERM_OUTER);
      [exact Hinv|].
    destruct (cave_feat (t_lev t) (tr + rd) (tc + cd) =? FEAT_WALL_OUTER);
      [exact Hinv|].
    destruct (cave_feat (t_lev t) (tr + rd) (tc + cd) =? FEAT_WALL_SOLID);
      [exact Hinv|].
    cbn [flow_tunneler]. unfold tunnel_inv.
    cbn [t_lev t_dun with_wall tunn wall].
    split; [|split; [|split; [|split]]].
    - intros y x P. rewrite solidify_around_spec by assumption.
      rewrite (K y x P).
      replace (cave_feat L0 y x =? FEAT_WALL_OUTER) with false
        by (pose proof (protected_not_outer _ Hd P); lia).
      now rewrite andb_false_r.
    - intros y x Hy Hx. rewrite solidify_around_spec by assumption.
      rewrite (O y x Hy Hx).
      replace (cave_feat L0 y x =? FEAT_WALL_OUTER) with false by lia.
      now rewrite andb_false_r.
    - intros p [Hp|Hp]; [apply I; left; assumption|].
      apply push_In in Hp. destruct Hp as [Hp| ->].
      + apply I; right; assumption.
      + cbn [fst snd]. split; assumption.
    - assumption.
    - apply push_length; assumption. }
  destruct (has_flag (t_lev t) tr tc CAVE_ROOM).
  { cbn [flow_tunneler]. unfold tunnel_inv. cbn [t_lev t_dun].
    exact (conj K (conj O (conj I (conj N1 N2)))). }
  destruct (cave_feat (t_lev t) tr tc >=? FEAT_WALL_EXTRA).
  { cbn [flow_tunneler]. unfold tunnel_inv.
    cbn [t_lev t_dun with_tunn tunn wall].
    split; [assumption|]. split; [assumption|]. split.
    - intros p [Hp|Hp]; [|apply I; right; assumption].
      apply push_In in Hp. destruct Hp as [Hp| ->].
      + apply I; left; assumption.
      + cbn [fst snd]. split; assumption.
    - split; [apply push_length; assumption|assumption]. }
  pose proof (rand_int_feat 100 (t_lev t)) as F.
  destruct (rand_int 100 (t_lev t)) as [r L1]. cbn [snd] in F.
  assert (Hdoor : forall dd,
            tunn dd = tunn (t_dun t) -> wall dd = wall (t_dun t) ->
            tunnel_inv L0 {| t_lev := L1; t_dun := dd; t_row := tr;
                             t_col := tc; t_door_flag := true |}).
  { intros dd Ht Hw. unfold tunnel_inv. cbn [t_lev t_dun].
    rewrite Ht, Hw.
    split; [intros y x P; rewrite F; apply K; assumption|].
    split; [intros y x Hy Hx; rewrite F; apply O; assumption|].
    exact (conj I (conj N1 N2)). }
  assert (Hd1 : tunnel_inv L0
            {| t_lev := L1;
               t_dun := if t_door_flag t then t_dun t
                        else with_door (t_dun t)
                               (push DOOR_MAX (door (t_dun t)) tr tc);
               t_row := tr; t_col := tc; t_door_flag := true |}).
  { apply Hdoor; destruct (t_door_flag t); reflexivity. }
  destruct (r >=? DUN_TUN_CON); [|exact Hd1].
  destruct (_ || _); exact Hd1.
Qed.

Lemma tunnel_inv_lev L0 t L :
  cave_feat L = cave_feat (t_lev t) ->
  tunnel_inv L0 t ->
  tunnel_inv L0 {| t_lev := L; t_dun := t_dun t; t_row := t_row t;
                   t_col := t_col t; t_door_flag := t_door_flag t |}.
Proof.
  intros F (K & O & I & N1 & N2). unfold tunnel_inv. cbn [t_lev t_dun].
  split; [intros y x P; rewrite F; apply K; assumption|].
  split; [intros y x Hy Hx; rewrite F; apply O; assumption|].
  exact (conj I (conj N1 N2)).
Qed.

Lemma tunnel_loop_inv L0 n fuel sr sc row2 col2 rd cd t t' :
  wall_codes_distinct ->
  tunnel_inv L0 t ->
  tunnel_loop n fuel sr sc row2 col2 rd cd t = Some t' ->
  tunnel_inv L0 t'.
Proof.
  intros Hd. revert rd cd t.
  induction n as [|n IH]; intros rd cd t Hinv H; cbn [tunnel_loop] in H.
  - destruct (_ || _); injection H as <-; assumption.
  - destruct (negb (t_row t =? row2) || negb (t_col t =? col2));
      [|injection H as <-; assumption].
    pose proof (rand_int_feat 100 (t_lev t)) as F0.
    destruct (rand_int 100 (t_lev t)) as [r L1]. cbn [snd] in F0.
    set (pick := if r <? DUN_TUN_CHG then _ else _) in H.
    assert (Fp : cave_feat (snd pick) = cave_feat (t_lev t)).
    { subst pick. destruct (r <? DUN_TUN_CHG); [|exact F0].
      pose proof (correct_dir_feat (t_row t) (t_col t) row2 col2 L1) as F1.
      destruct (correct_dir _ _ _ _ L1) as [[rd1 cd1] La]. cbn [snd] in F1.
      pose proof (rand_int_feat 100 La) as F2.
      destruct (rand_int 100 La) as [r' Lb]. cbn [snd] in F2.
      destruct (r' <? DUN_TUN_RND).
      - rewrite rand_dir_feat. congruence.
      - cbn [snd]. congruence. }
    destruct pick as [[rd1 cd1] L2]. cbn [snd] in Fp.
    destruct (tunnel_redirect fuel row2 col2 rd1 cd1 _)
      as [[[rd2 cd2] L3]|] eqn:Er; [|discriminate].
    apply tunnel_redirect_spec in Er. cbn [t_lev t_row t_col] in Er.
    destruct Er as [F3 Hb].
    set (t2 := {| t_lev := L3; t_dun := t_dun t; t_row := t_row t;
                  t_col := t_col t; t_door_flag := t_door_flag t |}) in H.
    assert (Hinv2 : tunnel_inv L0 t2).
    { apply tunnel_inv_lev; [congruence|assumption]. }
    pose proof (tunnel_cell_inv L0 sr sc rd2 cd2 t2 Hd Hb Hinv2) as Hc.
    destruct (tunnel_cell sr sc rd2 cd2 t2) as [t3|t3];
      cbn [flow_tunneler] in Hc.
    + eapply IH; eassumption.
    + injection H as <-. assumption.
Qed.

(** The two passes that close [build_tunnel], on a tunneler that
    satisfies the invariant. *)
Lemma tunnel_apply_inv L0 t :
  tunnel_inv L0 t ->
  let L' := apply_wall (wall (t_dun t))
              (apply_tunn (tunn (t_dun t)) (t_lev t)) in
  keeps_protected L0 L' /\
  (forall y x, in_bounds_fully y x = false ->
     cave_feat L0 y x <> FEAT_WALL_OUTER ->
     cave_feat L' y x = cave_feat L0 y x).
Proof.
  intros (K & O & I & N1 & N2) L'. subst L'.
  assert (Hfree : forall y x,
            listed (wall (t_dun t)) y x = true \/
            listed (tunn (t_dun t)) y x = true ->
            protected_feat (cave_feat L0 y x) = false /\
            in_bounds_fully y x = true).
  { intros y x [H|H]; apply listed_In in H.
    - apply (I (y, x)). right; assumption.
    - apply (I (y, x)). left; assumption. }
  assert (Hsame : forall y x,
            listed (wall (t_dun t)) y x = false ->
            listed (tunn (t_dun t)) y x = false ->
            cave_feat (apply_wall (wall (t_dun t))
                         (apply_tunn (tunn (t_dun t)) (t_lev t))) y x =
            cave_feat (t_lev t) y x).
  { intros y x Hw Ht. rewrite apply_wall_frame by assumption.
    rewrite apply_tunn_spec, Ht. reflexivity. }
  split.
  - intros y x P.
    destruct (listed (wall (t_dun t)) y x) eqn:Ew.
    { destruct (Hfree y x (or_introl Ew)) as [Q _]. congruence. }
    destruct (listed (tunn (t_dun t)) y x) eqn:Et.
    { destruct (Hfree y x (or_intror Et)) as [Q _]. congruence. }
    rewrite Hsame by assumption. apply K; assumption.
  - intros y x Hy Hx.
    destruct (listed (wall (t_dun t)) y x) eqn:Ew.
    { destruct (Hfree y x (or_introl Ew)) as [_ Q]. congruence. }
    destruct (listed (tunn (t_dun t)) y x) eqn:Et.
    { destruct (Hfree y x (or_intror Et)) as [_ Q]. congruence. }
    rewrite Hsame by assumption. apply O; assumption.
Qed.

Lemma build_tunnel_inv fuel row1 col1 row2 col2 dun L d L' :
  wall_codes_distinct ->
  build_tunnel fuel row1 col1 row2 col2 dun L = Some (d, L') ->
  keeps_protected L L' /\
  (forall y x, in_bounds_fully y x = false ->
     cave_feat L y x <> FEAT_WALL_OUTER ->
     cave_feat L' y x = cave_feat L y x) /\
  (forall p, In p (tunn d) \/ In p (wall d) ->
     protected_feat (cave_feat L (fst p) (snd p)) = false /\
     in_bounds_fully (fst p) (snd p) = true) /\
  Z.of_nat (length (tunn d)) <= TUNN_MAX /\
  Z.of_nat (length (wall d)) <= WALL_MAX.
Proof.
  intros Hd H. unfold build_tunnel in H.
  pose proof (correct_dir_feat row1 col1 row2 col2 L) as F.
  destruct (correct_dir row1 col1 row2 col2 L) as [[rd cd] La].
  cbn [snd] in F.
  destruct (tunnel_loop _ _ _ _ _ _ _ _ _) as [t|] eqn:El; [|discriminate].
  injection H as <- <-.
  assert (Hinv : tunnel_inv La t).
  { eapply tunnel_loop_inv; [exact Hd| |exact El].
    unfold tunnel_inv. cbn [t_lev t_dun with_wall with_tunn tunn wall].
    split; [intros y x P; reflexivity|].
    split; [intros y x Hy Hx; reflexivity|].
    split; [intros p [[]|[]]|].
    unfold TUNN_MAX, WALL_MAX. cbn [length]. lia. }
  destruct (tunnel_apply_inv La t Hinv) as [A B].
  destruct Hinv as (K & O & I & N1 & N2).
  unfold keeps_protected in *. rewrite F in *.
  repeat split; try assumption; apply I; assumption.
Qed.

(** X15. Whatever the generator draws, a corridor of [build_tunnel]
    leaves the border of the dungeon, the border of vaults and the solid
    walls of rooms as they are: every grid that holds FEAT_PERM_SOLID,
    FEAT_PERM_OUTER or FEAT_WALL_SOLID before the call holds the same
    feature after it (the outer wall having a code of its own). *)
Theorem build_tunnel_keeps_protected fuel row1 col1 row2 col2 dun L d L' :
  wall_codes_distinct ->
  build_tunnel fuel row1 col1 row2 col2 dun L = Some (d, L') ->
  forall y x,
    cave_feat L y x = FEAT_PERM_SOLID \/ cave_feat L y x = FEAT_PERM_OUTER \/
    cave_feat L y x = FEAT_WALL_SOLID ->
    cave_feat L' y x = cave_feat L y x.
Proof.
  intros Hd H y x Hf.
  destruct (build_tunnel_inv _ _ _ _ _ _ _ _ _ Hd H) as (K & _).
  apply K. unfold protected_feat. lia.
Qed.

(** X16. The straight tunneler stays in the inner area: every grid that
    [build_tunnel] records for the corridor or for a piercing is fully in
    bounds, the two arrays hold at most TUNN_MAX and WALL_MAX entries,
    and a grid of the outer ring (or beyond) that was no outer wall is
    left as it was, whatever feature the ring is made of. *)
Theorem build_tunnel_inner_area fuel row1 col1 row2 col2 dun L d L' :
  wall_codes_distinct ->
  build_tunnel fuel row1 col1 row2 col2 dun L = Some (d, L') ->
  (forall p, In p (tunn d) \/ In p (wall d) ->
     in_bounds_fully (fst p) (snd p) = true) /\
  Z.of_nat (length (tunn d)) <= TUNN_MAX /\
  Z.of_nat (length (wall d)) <= WALL_MAX /\
  (forall y x, in_bounds_fully y x = false ->
     cave_feat L y x <> FEAT_WALL_OUTER ->
     cave_feat L' y x = cave_feat L y x).
Proof.
  intros Hd H.
  destruct (build_tunnel_inv _ _ _ _ _ _ _ _ _ Hd H)
    as (K & O & I & N1 & N2).
  repeat split; try assumption. apply I; assumption.
Qed.

(** One step of the winding tunneler. *)
Lemma winding_cell_inv L0 t :
  wall_codes_distinct ->
  winding_inv L0 t -> winding_inv L0 (winding_cell t).
Proof.
  intros Hd (F & I). pose proof Hd as (D1 & D2 & D3).
  unfold winding_cell.
  assert (Hinv : winding_inv L0 t) by (split; assumption).
  destruct (cave_feat (t_lev t) (t_row t) (t_col t) =? FEAT_PERM_SOLID)
    eqn:E1; [exact Hinv|].
  destruct (cave_feat (t_lev t) (t_row t) (t_col t) =? FEAT_PERM_OUTER)
    eqn:E2; [exact Hinv|].
  destruct (cave_feat (t_lev t) (t_row t) (t_col t) =? FEAT_WALL_SOLID)
    eqn:E3; [exact Hinv|].
  assert (Hun : protected_feat (cave_feat L0 (t_row t) (t_col t)) = false).
  { rewrite <- F. unfold protected_feat. lia. }
  destruct (cave_feat (t_lev t) (t_row t) (t_col t) =? FEAT_WALL_OUTER).
  { split; cbn [t_lev t_dun with_wall tunn wall]; [assumption|].
    intros p [Hp|Hp]; [apply I; left; assumption|].
    apply push_In in Hp. destruct Hp as [Hp| ->];
      [apply I; right; assumption|assumption]. }
  destruct (has_flag _ _ _ _); [exact Hinv|].
  destruct (cave_feat (t_lev t) (t_row t) (t_col t) >=? FEAT_WALL_EXTRA).
  { split; cbn [t_lev t_dun with_tunn tunn wall]; [assumption|].
    intros p [Hp|Hp]; [|apply I; right; assumption].
    apply push_In in Hp. destruct Hp as [Hp| ->];
      [apply I; left; assumption|assumption]. }
  destruct (t_door_flag t); [exact Hinv|].
  split; cbn [t_lev t_dun with_door tunn wall]; assumption.
Qed.

Lemma winding_dir_feat row2 col2 t :
  cave_feat (snd (winding_dir row2 col2 t)) = cave_feat (t_lev t).
Proof.
  unfold winding_dir.
  pose proof (rand_int_feat 100 (t_lev t)) as F.
  destruct (rand_int 100 (t_lev t)) as [r L1]. cbn [snd] in F.
  destruct (r <? 60).
  - destruct (negb _ && negb _); [|exact F].
    pose proof (rand_int_feat 2 L1) as F2.
    destruct (rand_int 2 L1) as [c L2]. cbn [snd] in F2.
    destruct (c =? 0); cbn [snd]; congruence.
  - pose proof (rand_int_feat 4 L1) as F2.
    destruct (rand_int 4 L1) as [c L2]. cbn [snd] in *. congruence.
Qed.

Lemma winding_iter_inv L0 row2 col2 t :
  wall_codes_distinct ->
  winding_inv L0 t -> winding_inv L0 (winding_iter row2 col2 t).
Proof.
  intros Hd (F & I). unfold winding_iter.
  pose proof (winding_dir_feat row2 col2 t) as Fd.
  destruct (winding_dir row2 col2 t) as [[dy dx] L1]. cbn [snd] in Fd.
  destruct (negb (in_bounds _ _)).
  - split; cbn [t_lev t_dun]; [congruence|assumption].
  - apply winding_cell_inv; [assumption|].
    split; cbn [t_lev t_dun]; [congruence|assumption].
Qed.

Lemma winding_loop_inv L0 n row2 col2 t :
  wall_codes_distinct ->
  winding_inv L0 t ->
  winding_inv L0 (fst (winding_loop n row2 col2 t)).
Proof.
  intros Hd. revert t. induction n as [|n IH]; intros t Hinv;
    cbn [winding_loop].
  - destruct (_ || _); exact Hinv.
  - destruct (_ || _); [|exact Hinv].
    apply IH. apply winding_iter_inv; assumption.
Qed.

(** X17. The winding tunneler keeps the same grids: every grid that
    holds FEAT_PERM_SOLID, FEAT_PERM_OUTER or FEAT_WALL_SOLID before
    [build_tunnel_winding] holds the same feature after it, whether the
    walker reaches its target or the call falls back on [build_tunnel]. *)
Theorem build_tunnel_winding_keeps_protected fuel row1 col1 row2 col2 dun
    L d L' :
  wall_codes_distinct ->
  build_tunnel_winding fuel row1 col1 row2 col2 dun L = Some (d, L') ->
  forall y x,
    cave_feat L y x = FEAT_PERM_SOLID \/ cave_feat L y x = FEAT_PERM_OUTER \/
    cave_feat L y x = FEAT_WALL_SOLID ->
    cave_feat L' y x = cave_feat L y x.
Proof.
  intros Hd H y x Hf. unfold build_tunnel_winding in H.
  set (t0 := {| t_lev := L; t_dun := _; t_row := row1; t_col := col1;
                t_door_flag := false |}) in H.
  assert (Hinv0 : winding_inv L t0).
  { split; [reflexivity|]. cbn [t0 t_dun with_door with_wall with_tunn tunn
                                wall].
    intros p [[]|[]]. }
  pose proof (winding_loop_inv L winding_rounds row2 col2 t0 Hd Hinv0)
    as Hinv.
  destruct (winding_loop winding_rounds row2 col2 t0) as [t left].
  cbn [fst] in Hinv. destruct Hinv as [F I].
  assert (P : protected_feat (cave_feat L y x) = true)
    by (unfold protected_feat; lia).
  destruct left as [|left].
  - destruct (build_tunnel_inv _ _ _ _ _ _ _ _ _ Hd H) as (K & _).
    rewrite <- F. apply K. rewrite F. assumption.
  - injection H as <- <-.
    assert (Hw : listed (wall (t_dun t)) y x = false).
    { destruct (listed (wall (t_dun t)) y x) eqn:E; [|reflexivity].
      apply listed_In in E. pose proof (I (y, x) (or_intror E)) as Q.
      cbn [fst snd] in Q. congruence. }
    assert (Ht : listed (tunn (t_dun t)) y x = false).
    { destruct (listed (tunn (t_dun t)) y x) eqn:E; [|reflexivity].
      apply listed_In in E. pose proof (I (y, x) (or_introl E)) as Q.
      cbn [fst snd] in Q. congruence. }
    rewrite apply_wall_frame by assumption.
    rewrite apply_tunn_spec, Ht, F. reflexivity.
Qed.

End Tunnel_keep_facts.

Section Tunnel_keep_witnesses.
#[local] Existing Instance sample_defines.
#[local] Existing Instance sample_zrand.

Lemma sample_wall_codes : wall_codes_distinct.
Proof. vm_compute. intuition discriminate. Qed.

Lemma sample_build_tunnel :
  exists d L', build_tunnel 10 3 5 7 5 empty_dun (sample_room 1) = Some (d, L').
Proof.
  assert (H : match build_tunnel 10 3 5 7 5 empty_dun (sample_room 1) with
              | Some _ => true | None => false end = true)
    by (vm_compute; reflexivity).
  destruct (build_tunnel 10 3 5 7 5 empty_dun (sample_room 1))
    as [[d L']|]; [|discriminate H].
  exists d, L'. reflexivity.
Qed.

Lemma build_tunnel_keeps_protected_witness :
  exists d L',
    build_tunnel 10 3 5 7 5 empty_dun (sample_room 1) = Some (d, L') /\
    cave_feat L' 0 5 = cave_feat (sample_room 1) 0 5.
Proof.
  destruct sample_build_tunnel as (d & L' & H).
  exists d, L'. split; [exact H|].
  apply (build_tunnel_keeps_protected 10 3 5 7 5 empty_dun (sample_room 1)
           d L' sample_wall_codes H 0 5).
  left. reflexivity.
Defined.

Lemma build_tunnel_inner_area_witness :
  exists d L',
    build_tunnel 10 3 5 7 5 empty_dun (sample_room 1) = Some (d, L') /\
    Z.of_nat (length (tunn d)) <= TUNN_MAX.
Proof.
  destruct sample_build_tunnel as (d & L' & H).
  exists d, L'. split; [exact H|].
  exact (proj1 (proj2 (build_tunnel_inner_area 10 3 5 7 5 empty_dun
                         (sample_room 1) d L' sample_wall_codes H))).
Defined.

Lemma sample_build_tunnel_winding :
  exists d L',
    build_tunnel_winding 10 3 5 7 5 empty_dun (sample_room 3) = Some (d, L').
Proof.
  assert (H : match build_tunnel_winding 10 3 5 7 5 empty_dun (sample_room 3)
              with Some _ => true | None => false end = true)
    by (vm_compute; reflexivity).
  destruct (build_tunnel_winding 10 3 5 7 5 empty_dun (sample_room 3))
    as [[d L']|]; [|discriminate H].
  exists d, L'. reflexivity.
Qed.

Lemma build_tunnel_winding_keeps_protected_witness :
  exists d L',
    build_tunnel_winding 10 3 5 7 5 empty_dun (sample_room 3)
      = Some (d, L') /\
    cave_feat L' 0 5 = cave_feat (sample_room 3) 0 5.
Proof.
  destruct sample_build_tunnel_winding as (d & L' & H).
  exists d, L'. split; [exact H|].
  apply (build_tunnel_winding_keeps_protected 10 3 5 7 5 empty_dun
           (sample_room 3) d L' sample_wall_codes H 0 5).
  left. reflexivity.
Defined.

End Tunnel_keep_witnesses.

(** ** Stairs off the standard levels *)

Section Stairs_more_facts.
Context {D : Defines} {R : ZRand}.

Lemma alloc_stairs_plain fuel feat num walls fr L :
  inside_special L <> SPECIAL_DREAM ->
  alloc_stairs fuel feat num walls fr L =
  stairs_loop (Z.to_nat num) fuel stairs_round feat walls fr L.
Proof.
  intros H. unfold alloc_stairs.
  replace (inside_special L =? SPECIAL_DREAM) with false by lia.
  reflexivity.
Qed.

(** X18. The kind of staircase that [alloc_stairs] places is forced off
    the standard levels.  On a quest level and at the last depth every
    request, for down staircases too, ends in up staircases; in the town
    every request ends in down staircases (shafts when the player is in
    the wilderness).  When the call returns, the forced feature has
    gained one grid for each staircase asked for and the feature asked
    for, if another, none. *)
Theorem alloc_stairs_forced_kind fuel feat num walls fr L L' :
  zrand_ok -> 0 < DUNGEON_HGT -> 0 < DUNGEON_WID ->
  inside_special L <> SPECIAL_DREAM ->
  alloc_stairs fuel feat num walls fr L = Some L' ->
  (depth L <> 0 ->
   inside_special L = SPECIAL_QUEST \/ MAX_DEPTH - 1 <= depth L ->
   (FEAT_LESS <> FEAT_FLOOR ->
    count_feat FEAT_LESS L' = count_feat FEAT_LESS L + Z.max 0 num) /\
   (feat <> FEAT_LESS -> feat <> FEAT_FLOOR ->
    count_feat feat L' = count_feat feat L)) /\
  (depth L = 0 ->
   let down := if inside_special L =? SPECIAL_WILD
               then FEAT_SHAFT else FEAT_MORE in
   (down <> FEAT_FLOOR ->
    count_feat down L' = count_feat down L + Z.max 0 num) /\
   (feat <> down -> feat <> FEAT_FLOOR ->
    count_feat feat L' = count_feat feat L)).
Proof.
  intros Hok HH HW Hdr Hrun.
  rewrite alloc_stairs_plain in Hrun by assumption.
  assert (Hc : forall g, g <> FEAT_FLOOR ->
            count_feat g L' =
            count_feat g L +
            (if stairs_feat L feat =? g then Z.max 0 num else 0)).
  { intros g Hg.
    destruct (stairs_loop_count g _ _ _ _ _ _ _ _ Hok HH HW Hg Hrun)
      as (_ & _ & Hc).
    rewrite Hc. destruct (stairs_feat L feat =? g); lia. }
  split.
  - intros Hd Hq.
    assert (Hs : stairs_feat L feat = FEAT_LESS).
    { unfold stairs_feat. replace (depth L =? 0) with false by lia.
      replace ((inside_special L =? SPECIAL_QUEST) ||
               (depth L >=? MAX_DEPTH - 1)) with true by lia.
      reflexivity. }
    split.
    + intros Hg. rewrite (Hc _ Hg), Hs, Z.eqb_refl. reflexivity.
    + intros Hne Hg. rewrite (Hc _ Hg), Hs.
      replace (FEAT_LESS =? feat) with false by lia. lia.
  - intros Hd down.
    assert (Hs : stairs_feat L feat = down).
    { unfold stairs_feat. replace (depth L =? 0) with true by lia.
      reflexivity. }
    split.
    + intros Hg. rewrite (Hc _ Hg), Hs, Z.eqb_refl. reflexivity.
    + intros Hne Hg. rewrite (Hc _ Hg), Hs.
      replace (down =? feat) with false by lia. lia.
Qed.

(** X19. In a dream level [alloc_stairs] places no up staircase at all
    (the level is handed back as it is), and a request for down
    staircases places, between the town and the last depth, one dream
    exit when at least one staircase is asked for, however many are, and
    no down staircase. *)
Theorem alloc_stairs_dream fuel num walls fr L :
  inside_special L = SPECIAL_DREAM ->
  alloc_stairs fuel FEAT_LESS num walls fr L = Some L /\
  (zrand_ok -> 0 < DUNGEON_HGT -> 0 < DUNGEON_WID ->
   FEAT_MORE <> FEAT_LESS -> SPECIAL_DREAM <> SPECIAL_QUEST ->
   FEAT_DREAM_EXIT <> FEAT_FLOOR -> FEAT_MORE <> FEAT_FLOOR ->
   FEAT_MORE <> FEAT_DREAM_EXIT ->
   0 < depth L < MAX_DEPTH - 1 ->
   forall L',
     alloc_stairs fuel FEAT_MORE num walls fr L = Some L' ->
     count_feat FEAT_DREAM_EXIT L' =
       count_feat FEAT_DREAM_EXIT L + (if num >=? 1 then 1 else 0) /\
     count_feat FEAT_MORE L' = count_feat FEAT_MORE L).
Proof.
  intros Hdream. split.
  - unfold alloc_stairs. rewrite Hdream, !Z.eqb_refl. reflexivity.
  - intros Hok HH HW H1 H2 H3 H4 H5 Hd L' Hrun.
    unfold alloc_stairs in Hrun. rewrite Hdream, Z.eqb_refl in Hrun.
    replace (FEAT_MORE =? FEAT_LESS) with false in Hrun by lia.
    rewrite Z.eqb_refl in Hrun.
    assert (Hs : stairs_feat L FEAT_DREAM_EXIT = FEAT_DREAM_EXIT).
    { unfold stairs_feat. replace (depth L =? 0) with false by lia.
      rewrite Hdream.
      replace (SPECIAL_DREAM =? SPECIAL_QUEST) with false by lia.
      replace (depth L >=? MAX_DEPTH - 1) with false by lia.
      reflexivity. }
    destruct (stairs_loop_count FEAT_DREAM_EXIT _ _ _ _ _ _ _ _
                Hok HH HW H3 Hrun) as (_ & _ & Hc1).
    destruct (stairs_loop_count FEAT_MORE _ _ _ _ _ _ _ _
                Hok HH HW H4 Hrun) as (_ & _ & Hc2).
    rewrite Hs in Hc1, Hc2. rewrite Z.eqb_refl in Hc1.
    replace (FEAT_DREAM_EXIT =? FEAT_MORE) with false in Hc2 by lia.
    split; [|lia].
    rewrite Hc1. destruct (num >? 1) eqn:E1; destruct (num >=? 1) eqn:E2; lia.
Qed.

Lemma cave_naked_same_cave L L' y x :
  same_cave L L' -> cave_naked_bold L' y x = cave_naked_bold L y x.
Proof.
  intros (A & _ & B & C & _). unfold cave_naked_bold.
  now rewrite A, B, C.
Qed.

Lemma same_cave_trans L1 L2 L3 :
  same_cave L1 L2 -> same_cave L2 L3 -> same_cave L1 L3.
Proof.
  intros (a1 & a2 & a3 & a4 & a5 & a6 & a7)
         (b1 & b2 & b3 & b4 & b5 & b6 & b7).
  repeat split; congruence.
Qed.

Lemma no_naked_same_cave L L' :
  same_cave L L' -> no_naked_floor L -> no_naked_floor L'.
Proof.
  intros S H y x Hb. rewrite (cave_naked_same_cave L L' y x S).
  apply H; assumption.
Qed.

Lemma stairs_tries_none j feat walls fr L :
  zrand_ok -> 0 < DUNGEON_HGT -> 0 < DUNGEON_WID ->
  no_naked_floor L ->
  fst (stairs_tries j feat walls fr L) = false /\
  same_cave L (snd (stairs_tries j feat walls fr L)).
Proof.
  intros Hok HH HW. revert L.
  induction j as [|j IH]; intros L Hn; cbn [stairs_tries].
  - split; [reflexivity|apply same_cave_refl].
  - pose proof (rand_int_same_cave DUNGEON_HGT L) as S1.
    pose proof (rand_int_range DUNGEON_HGT L Hok HH) as R1.
    destruct (rand_int DUNGEON_HGT L) as [y L1]. cbn [fst snd] in S1, R1.
    pose proof (rand_int_same_cave DUNGEON_WID L1) as S2.
    pose proof (rand_int_range DUNGEON_WID L1 Hok HW) as R2.
    destruct (rand_int DUNGEON_WID L1) as [x L2]. cbn [fst snd] in S2, R2.
    pose proof (same_cave_trans _ _ _ S1 S2) as S12.
    pose proof (no_naked_same_cave _ _ S12 Hn) as Hn2.
    rewrite (Hn2 y x) by (apply in_bounds_spec; lia). cbn [negb].
    destruct (IH L2 Hn2) as [A B].
    split; [assumption|]. eapply same_cave_trans; eassumption.
Qed.

Lemma stairs_one_none fuel round feat walls fr L :
  zrand_ok -> 0 < DUNGEON_HGT -> 0 < DUNGEON_WID ->
  no_naked_floor L ->
  stairs_one fuel round feat walls fr L = None.
Proof.
  intros Hok HH HW. revert walls L.
  induction fuel as [|fuel IH]; intros walls L Hn; cbn [stairs_one];
    [reflexivity|].
  destruct (stairs_tries_none round feat walls fr L Hok HH HW Hn) as [A B].
  destruct (stairs_tries round feat walls fr L) as [flag L1].
  cbn [fst snd] in A, B. subst flag.
  apply IH. eapply no_naked_same_cave; eassumption.
Qed.

(** X20. [alloc_stairs] has no way out of its loop on a level without a
    naked floor grid: asked for one staircase or more (other than up
    staircases in a dream level, which are not placed), it does not
    return, whatever the generator draws and however long it runs. *)
Theorem alloc_stairs_no_floor fuel feat num walls fr L :
  zrand_ok -> 0 < DUNGEON_HGT -> 0 < DUNGEON_WID ->
  no_naked_floor L -> 1 <= num ->
  (inside_special L = SPECIAL_DREAM -> feat <> FEAT_LESS) ->
  alloc_stairs fuel feat num walls fr L = None.
Proof.
  intros Hok HH HW Hn Hnum Hdream.
  assert (Hloop : forall n f,
            stairs_loop (S n) fuel stairs_round f walls fr L = None).
  { intros n f. cbn [stairs_loop].
    now rewrite (stairs_one_none fuel stairs_round f walls fr L Hok HH HW Hn). }
  unfold alloc_stairs.
  destruct (inside_special L =? SPECIAL_DREAM) eqn:E.
  - replace (feat =? FEAT_LESS) with false by lia.
    destruct (feat =? FEAT_MORE).
    + destruct (num >? 1) eqn:E1.
      * change (Z.to_nat 1) with 1%nat. apply Hloop.
      * replace (Z.to_nat num) with (S (Z.to_nat (num - 1))) by lia.
        apply Hloop.
    + replace (Z.to_nat num) with (S (Z.to_nat (num - 1))) by lia.
      apply Hloop.
  - replace (Z.to_nat num) with (S (Z.to_nat (num - 1))) by lia.
    apply Hloop.
Qed.

(** X21. [correct_dir] "always picks a correct direction": the step it
    hands back is never diagonal, is the null step only on the target
    itself, and off the target brings the walker nearer by exactly one
    grid, counted along the rows and the columns. *)
Theorem correct_dir_step y1 x1 y2 x2 L :
  let r := correct_dir y1 x1 y2 x2 L in
  let rdir := fst (fst r) in
  let cdir := snd (fst r) in
  (rdir = 0 \/ cdir = 0) /\
  Z.abs rdir + Z.abs cdir <= 1 /\
  (rdir = 0 /\ cdir = 0 <-> y1 = y2 /\ x1 = x2) /\
  Z.abs (y2 - (y1 + rdir)) + Z.abs (x2 - (x1 + cdir)) =
    Z.abs (y2 - y1) + Z.abs (x2 - x1) - (Z.abs rdir + Z.abs cdir) /\
  cave_feat (snd r) = cave_feat L.
Proof.
  cbv zeta. split; [|split; [|split; [|split]]];
    try apply correct_dir_feat;
    unfold correct_dir;
    destruct (y1 =? y2) eqn:Ey; destruct (y1 <? y2) eqn:Ey';
    destruct (x1 =? x2) eqn:Ex; destruct (x1 <? x2) eqn:Ex';
    cbn [negb andb Z.eqb fst snd];
    try (destruct (rand_int 100 L) as [r0 L1]; destruct (r0 <? 50));
    cbn [fst snd]; lia.
Qed.

End Stairs_more_facts.

(** ** The corner shared by four tiles of the wilderness *)

Section Wilderness_more_facts.
Context {D : Defines} {R : ZRand}.


End Wilderness_more_facts.

(** ** The cover pass *)

Section Cover_pass_facts.
Context {D : Defines} {R : ZRand} {S : Spells}.

Lemma rand_spread_same_cave a d L : same_cave L (snd (rand_spread a d L)).
Proof.
  unfold rand_spread. pose proof (rand_int_same_cave (1 + d + d) L) as H.
  destruct (rand_int (1 + d + d) L). exact H.
Qed.

Lemma covered_or_same_refl L L' y x :
  cave_feat L' = cave_feat L -> cave_cover L' = cave_cover L ->
  covered_or_same L L' y x.
Proof. intros A B. left. now rewrite A, B. Qed.

(** The state of the cover pass: objects, monsters and flags are those
    of the start, and every grid is as it was or newly covered. *)
Lemma cover_item_inv L0 cy cx L :
  (cave_o_idx L = cave_o_idx L0 /\ cave_m_idx L = cave_m_idx L0 /\
   cave_info L = cave_info L0 /\
   forall y x, covered_or_same L0 L y x) ->
  let L' := cover_item cy cx L in
  cave_o_idx L' = cave_o_idx L0 /\ cave_m_idx L' = cave_m_idx L0 /\
  cave_info L' = cave_info L0 /\
  forall y x, covered_or_same L0 L' y x.
Proof.
  intros (O & M & I & C) L'. subst L'. unfold cover_item.
  pose proof (rand_spread_same_cave cy 4 L) as S1.
  destruct (rand_spread cy 4 L) as [ty L1]. cbn [snd] in S1.
  pose proof (rand_spread_same_cave cx 4 L1) as S2.
  destruct (rand_spread cx 4 L1) as [tx L2]. cbn [snd] in S2.
  pose proof (same_cave_trans _ _ _ S1 S2) as S12.
  destruct S12 as (a1 & a2 & a3 & a4 & a5 & _ & _).
  assert (Hsame : cave_o_idx L2 = cave_o_idx L0 /\
                  cave_m_idx L2 = cave_m_idx L0 /\
                  cave_info L2 = cave_info L0 /\
                  forall y x, covered_or_same L0 L2 y x).
  { split; [congruence|]. split; [congruence|]. split; [congruence|].
    intros y x. destruct (C y x) as [[A B]|(A & B & c & E1 & E2 & E3)].
    - left. rewrite a1, a5. split; assumption.
    - right. split; [assumption|]. split; [assumption|].
      exists c. rewrite a1, a5. repeat split; assumption. }
  destruct (in_bounds ty tx) eqn:Hb; cbn [negb]; [|exact Hsame].
  destruct (cave_naked_bold L2 ty tx) eqn:Hn; [|exact Hsame].
  pose proof (rand_int_same_cave 100 L2) as S3.
  destruct (rand_int 100 L2) as [roll L3]. cbn [snd] in S3.
  destruct S3 as (b1 & b2 & b3 & b4 & b5 & _ & _).
  assert (Hcreate : forall ct d f,
            let L' := create_cover_at L3 ty tx ct d f in
            cave_o_idx L' = cave_o_idx L0 /\
            cave_m_idx L' = cave_m_idx L0 /\
            cave_info L' = cave_info L0 /\
            forall y x, covered_or_same L0 L' y x).
  { intros ct d f L'. subst L'. unfold create_cover_at. rewrite Hb.
    cbn [negb]. unfold cave_set_feat, put_feat, put_cover, with_feat,
                  with_cover.
    cbn [cave_feat cave_cover cave_o_idx cave_m_idx cave_info].
    split; [congruence|]. split; [congruence|]. split; [congruence|].
    intros y x. destruct Hsame as (_ & _ & _ & Cs).
    pose proof (Cs y x) as Cyx. unfold covered_or_same in *.
    cbn [cave_feat cave_cover].
    destruct (Z.eq_dec y ty) as [->|Hy]; [destruct (Z.eq_dec x tx)
                                            as [->|Hx]|].
    - right.
      assert (Hn0 : cave_naked_bold L0 ty tx = true).
      { destruct (C ty tx) as [[A B]|(A & _)]; [|assumption].
        unfold cave_naked_bold in *. rewrite a1, a3, a4 in Hn.
        rewrite A, O, M in Hn. assumption. }
      split; [assumption|]. split; [assumption|].
      eexists. rewrite !gset_same. split; [reflexivity|].
      split; reflexivity.
    - rewrite !gset_other by (right; assumption).
      rewrite b1, b5. exact Cyx.
    - rewrite !gset_other by (left; assumption).
      rewrite b1, b5. exact Cyx. }
  destruct (roll <? 30); [apply Hcreate|].
  destruct (roll <? 50); [apply Hcreate|].
  destruct (roll <? 70); apply Hcreate.
Qed.

Lemma cover_room_inv L0 L c :
  (cave_o_idx L = cave_o_idx L0 /\ cave_m_idx L = cave_m_idx L0 /\
   cave_info L = cave_info L0 /\
   forall y x, covered_or_same L0 L y x) ->
  let L' := cover_room L c in
  cave_o_idx L' = cave_o_idx L0 /\ cave_m_idx L' = cave_m_idx L0 /\
  cave_info L' = cave_info L0 /\
  forall y x, covered_or_same L0 L' y x.
Proof.
  intros (O & M & I & C) L'. subst L'. unfold cover_room.
  assert (Hrand : forall m La,
            cave_o_idx La = cave_o_idx L0 /\ cave_m_idx La = cave_m_idx L0 /\
            cave_info La = cave_info L0 /\
            (forall y x, covered_or_same L0 La y x) ->
            let Lb := snd (rand_int m La) in
            cave_o_idx Lb = cave_o_idx L0 /\ cave_m_idx Lb = cave_m_idx L0 /\
            cave_info Lb = cave_info L0 /\
            (forall y x, covered_or_same L0 Lb y x)).
  { intros m La (O1 & M1 & I1 & C1) Lb. subst Lb.
    destruct (rand_int_same_cave m La) as (a1 & a2 & a3 & a4 & a5 & _ & _).
    split; [congruence|]. split; [congruence|]. split; [congruence|].
    intros y x. destruct (C1 y x) as [[A B]|(A & B & c0 & E1 & E2 & E3)].
    - left. rewrite a1, a5. split; assumption.
    - right. split; [assumption|]. split; [assumption|].
      exists c0. rewrite a1, a5. repeat split; assumption. }
  pose proof (Hrand 100 L (conj O (conj M (conj I C)))) as H1.
  destruct (rand_int 100 L) as [r L1]. cbn [snd] in H1.
  destruct (r <? 50); [|exact H1].
  pose proof (Hrand 4 L1 H1) as H2.
  destruct (rand_int 4 L1) as [n L2]. cbn [snd] in H2.
  generalize (zupto 0 (2 + n)) as l. intros l. revert L2 H2.
  induction l as [|i l IH]; intros L2 H2; cbn [fold_left]; [exact H2|].
  apply IH. apply cover_item_inv. exact H2.
Qed.

Lemma cover_rooms_inv L0 l L :
  (cave_o_idx L = cave_o_idx L0 /\ cave_m_idx L = cave_m_idx L0 /\
   cave_info L = cave_info L0 /\
   forall y x, covered_or_same L0 L y x) ->
  cave_o_idx (fold_left cover_room l L) = cave_o_idx L0 /\
  cave_m_idx (fold_left cover_room l L) = cave_m_idx L0 /\
  cave_info (fold_left cover_room l L) = cave_info L0 /\
  forall y x, covered_or_same L0 (fold_left cover_room l L) y x.
Proof.
  revert L. induction l as [|c l IH]; intros L H0; cbn [fold_left];
    [exact H0|].
  apply IH. apply cover_room_inv. exact H0.
Qed.

(** X23. [populate_cover_features] only ever writes on naked floor: when
    the pass is over every grid of the level either has the feature and
    the record it had before, or was a naked floor grid in bounds and now
    carries a record at full durability whose feature is the feature of
    the grid.  A grid that held a wall, a door, a staircase, an object or
    a monster is as it was, and no flag, object or monster has moved. *)
Theorem populate_cover_features_frame dun L :
  let L' := populate_cover_features dun L in
  (forall y x, covered_or_same L L' y x) /\
  (forall y x, cave_naked_bold L y x = false ->
     cave_feat L' y x = cave_feat L y x /\
     cave_cover L' y x = cave_cover L y x) /\
  cave_info L' = cave_info L /\ cave_o_idx L' = cave_o_idx L /\
  cave_m_idx L' = cave_m_idx L.
Proof.
  intros L'. subst L'. unfold populate_cover_features.
  destruct (cover_rooms_inv L (cent dun) L) as (O & M & I & C).
  { split; [reflexivity|]. split; [reflexivity|]. split; [reflexivity|].
    intros y x. left. split; reflexivity. }
  split; [exact C|]. split; [|repeat split; assumption].
  intros y x Hn. destruct (C y x) as [[A B]|(A & _)]; [split; assumption|].
  congruence.
Qed.

End Cover_pass_facts.

Section Stairs_more_witnesses.
#[local] Existing Instance sample_defines.
#[local] Existing Instance sample_zrand.
#[local] Existing Instance sample_spells.

Lemma sample_deep_stairs :
  exists L', alloc_stairs 5 FEAT_MORE 2 3 false (sample_at 127 0) = Some L'.
Proof.
  assert (H : match alloc_stairs 5 FEAT_MORE 2 3 false (sample_at 127 0) with
              | Some _ => true | None => false end = true)
    by (vm_compute; reflexivity).
  destruct (alloc_stairs 5 FEAT_MORE 2 3 false (sample_at 127 0))
    as [L'|]; [|discriminate H].
  exists L'. reflexivity.
Qed.

Lemma alloc_stairs_forced_kind_witness :
  exists L',
    alloc_stairs 5 FEAT_MORE 2 3 false (sample_at 127 0) = Some L' /\
    count_feat FEAT_LESS L' =
      count_feat FEAT_LESS (sample_at 127 0) + Z.max 0 2.
Proof.
  destruct sample_deep_stairs as (L' & H). exists L'. split; [exact H|].
  refine (proj1 (proj1 (alloc_stairs_forced_kind
            (D := sample_defines) (R := sample_zrand)
            5 FEAT_MORE 2 3 false (sample_at 127 0) L'
            sample_zrand_ok ltac:(reflexivity) ltac:(reflexivity) _ H) _ _) _).
  - discriminate.
  - discriminate.
  - right. cbn. lia.
  - discriminate.
Defined.

Lemma alloc_stairs_dream_witness :
  alloc_stairs 5 FEAT_LESS 2 3 false (sample_at 5 3) = Some (sample_at 5 3).
Proof.
  exact (proj1 (alloc_stairs_dream (D := sample_defines)
                  (R := sample_zrand) 5 2 3 false (sample_at 5 3) eq_refl)).
Defined.

Lemma sample_level_no_naked :
  no_naked_floor (fill_cave FEAT_WALL_EXTRA (sample_level 1)).
Proof.
  intros y x Hb. unfold cave_naked_bold. rewrite fill_cave_spec, Hb.
  reflexivity.
Qed.

Lemma alloc_stairs_no_floor_witness :
  alloc_stairs 7 FEAT_MORE 2 3 false
    (fill_cave FEAT_WALL_EXTRA (sample_level 1)) = None.
Proof.
  apply (alloc_stairs_no_floor (D := sample_defines) (R := sample_zrand)
           7 FEAT_MORE 2 3 false
           (fill_cave FEAT_WALL_EXTRA (sample_level 1))
           sample_zrand_ok ltac:(reflexivity) ltac:(reflexivity)
           sample_level_no_naked ltac:(lia)).
  intros H. discriminate H.
Defined.


Lemma populate_cover_features_frame_witness :
  cave_feat (populate_cover_features sample_dun (sample_room 1)) 5 9 =
  cave_feat (sample_room 1) 5 9.
Proof.
  exact (proj1 (proj1 (proj2
    (populate_cover_features_frame sample_dun (sample_room 1))) 5 9
    eq_refl)).
Defined.

End Stairs_more_witnesses.

(** ** The place of the player *)

Section Player_spot_facts.
Context {D : Defines} {R : ZRand}.
Variable CAVE_ICKY : Z.





End Player_spot_facts.

(** ** Streamers *)

Section Streamer_facts.
Context {D : Defines} {R : ZRand}.
Variable ddd : Z -> Z.
Variable ddy : Z -> Z.
Variable ddx : Z -> Z.

Lemma streamer_pick_spec fuel y x d L ty tx L' :
  streamer_pick fuel y x d L = Some (ty, tx, L') ->
  same_cave L L' /\ in_bounds ty tx = true.
Proof.
  revert L. induction fuel as [|fuel IH]; intros L H;
    cbn [streamer_pick] in H; [discriminate|].
  pose proof (rand_spread_same_cave y d L) as S1.
  destruct (rand_spread y d L) as [ty0 L1]. cbn [snd] in S1.
  pose proof (rand_spread_same_cave x d L1) as S2.
  destruct (rand_spread x d L1) as [tx0 L2]. cbn [snd] in S2.
  pose proof (same_cave_trans _ _ _ S1 S2) as S12.
  destruct (in_bounds ty0 tx0) eqn:E; cbn [negb] in H.
  - injection H as <- <- <-. split; assumption.
  - destruct (IH L2 H) as [A B]. split; [|assumption].
    eapply same_cave_trans; eassumption.
Qed.

(** The state of a streamer, [L0] being the level at the start: the
    flags are those of the start, and so is every grid that was no
    granite wall. *)
Lemma streamer_grid_inv L0 fuel feat chance y x L i L' :
  (cave_info L = cave_info L0 /\
   forall y x, granite (cave_feat L0 y x) = false ->
               cave_feat L y x = cave_feat L0 y x) ->
  streamer_grid fuel feat chance y x (Some L) i = Some L' ->
  cave_info L' = cave_info L0 /\
  forall y x, granite (cave_feat L0 y x) = false ->
              cave_feat L' y x = cave_feat L0 y x.
Proof.
  intros (I & K) H. cbn [streamer_grid] in H.
  destruct (streamer_pick fuel y x DUN_STR_RNG L) as [[[ty tx] L1]|] eqn:Ep;
    [|discriminate].
  destruct (streamer_pick_spec _ _ _ _ _ _ _ _ Ep) as [S1 Hb].
  destruct S1 as (a1 & a2 & _).
  destruct (cave_feat L1 ty tx <? FEAT_WALL_EXTRA) eqn:E1.
  { injection H as <-. rewrite a1, a2. split; assumption. }
  destruct (cave_feat L1 ty tx >? FEAT_WALL_SOLID) eqn:E2.
  { injection H as <-. rewrite a1, a2. split; assumption. }
  assert (Hg : granite (cave_feat L0 ty tx) = true).
  { destruct (granite (cave_feat L0 ty tx)) eqn:G; [reflexivity|].
    pose proof (K ty tx G) as Q. rewrite <- a1 in Q.
    unfold granite in G. lia. }
  pose proof (rand_int_same_cave chance (put_feat L1 ty tx feat)) as S3.
  destruct (rand_int chance (put_feat L1 ty tx feat)) as [r L3].
  cbn [snd] in S3. destruct S3 as (b1 & b2 & _).
  assert (Hother : forall y' x', granite (cave_feat L0 y' x') = false ->
            y' <> ty \/ x' <> tx).
  { intros y' x' G.
    destruct (Z.eq_dec y' ty) as [->|]; [|left; assumption].
    destruct (Z.eq_dec x' tx) as [->|]; [|right; assumption].
    congruence. }
  destruct (r =? 0); injection H as <-.
  - split; [cbn [put_feat with_feat cave_info] in b2 |- *; congruence|].
    intros y' x' G. pose proof (Hother y' x' G) as Hne.
    rewrite put_feat_at.
    destruct ((y' =? ty) && (x' =? tx)) eqn:E; [lia|].
    rewrite b1, put_feat_at, E, a1. apply K; assumption.
  - split; [cbn [put_feat with_feat cave_info] in b2; congruence|].
    intros y' x' G. pose proof (Hother y' x' G) as Hne.
    rewrite b1, put_feat_at.
    destruct ((y' =? ty) && (x' =? tx)) eqn:E; [lia|].
    rewrite a1. apply K; assumption.
Qed.

Lemma streamer_grids_inv L0 fuel feat chance y x l o L' :
  match o with
  | Some L =>
      cave_info L = cave_info L0 /\
      forall y x, granite (cave_feat L0 y x) = false ->
                  cave_feat L y x = cave_feat L0 y x
  | None => True
  end ->
  fold_left (streamer_grid fuel feat chance y x) l o = Some L' ->
  cave_info L' = cave_info L0 /\
  forall y x, granite (cave_feat L0 y x) = false ->
              cave_feat L' y x = cave_feat L0 y x.
Proof.
  revert o. induction l as [|i l IH]; intros o Ho H; cbn [fold_left] in H.
  - subst o. exact Ho.
  - apply IH in H; [exact H|].
    destruct o as [L|]; [|exact I].
    destruct (streamer_grid fuel feat chance y x (Some L) i) as [L1|] eqn:E;
      [|exact I].
    eapply streamer_grid_inv; eassumption.
Qed.

Lemma streamer_loop_inv L0 n fuel feat chance dir y x L L' :
  (cave_info L = cave_info L0 /\
   forall y x, granite (cave_feat L0 y x) = false ->
               cave_feat L y x = cave_feat L0 y x) ->
  streamer_loop ddy ddx n fuel feat chance dir y x L = Some L' ->
  cave_info L' = cave_info L0 /\
  forall y x, granite (cave_feat L0 y x) = false ->
              cave_feat L' y x = cave_feat L0 y x.
Proof.
  revert y x L. induction n as [|n IH]; intros y x L Hinv H;
    cbn [streamer_loop] in H.
  - injection H as <-. exact Hinv.
  - destruct (fold_left _ _ (Some L)) as [L1|] eqn:Ef; [|discriminate].
    pose proof (streamer_grids_inv L0 fuel feat chance y x _ (Some L) L1
                  Hinv Ef) as Hinv1.
    destruct (negb (in_bounds _ _)).
    + injection H as <-. exact Hinv1.
    + eapply IH; eassumption.
Qed.

(** X25. A streamer only converts granite: whatever [build_streamer]
    draws and however long the streamer gets, every grid whose feature
    lies outside FEAT_WALL_EXTRA..FEAT_WALL_SOLID before the call (floor,
    doors, stairs, rubble, permanent rock) has the same feature after
    it, and no flag of the cave changes. *)
Theorem build_streamer_granite_only fuel feat chance max_len L L' :
  build_streamer ddd ddy ddx fuel feat chance max_len L = Some L' ->
  (forall y x,
     cave_feat L y x < FEAT_WALL_EXTRA \/ FEAT_WALL_SOLID < cave_feat L y x ->
     cave_feat L' y x = cave_feat L y x) /\
  cave_info L' = cave_info L.
Proof.
  intros H. unfold build_streamer in H.
  pose proof (rand_range_same_cave 1 (DUNGEON_HGT - 2) L) as S1.
  destruct (rand_range 1 (DUNGEON_HGT - 2) L) as [y0 L1]. cbn [snd] in S1.
  pose proof (rand_range_same_cave 1 (DUNGEON_WID - 2) L1) as S2.
  destruct (rand_range 1 (DUNGEON_WID - 2) L1) as [x0 L2]. cbn [snd] in S2.
  pose proof (rand_int_same_cave 8 L2) as S3.
  destruct (rand_int 8 L2) as [i L3]. cbn [snd] in S3.
  pose proof (same_cave_trans _ _ _ (same_cave_trans _ _ _ S1 S2) S3)
    as (a1 & a2 & _).
  destruct (streamer_loop_inv L _ _ _ _ _ _ _ L3 L'
              ltac:(split; [assumption|intros; now rewrite a1]) H)
    as [I K].
  split; [|assumption].
  intros y x Hf. apply K. unfold granite. lia.
Qed.

End Streamer_facts.

(** ** The plasma fractal *)

Section Plasma_facts.
Context {D : Defines} {R : ZRand}.

Lemma normalize_range depth_max avg :
  0 <= depth_max -> 0 <= normalize depth_max avg <= depth_max.
Proof.
  intros H. unfold normalize.
  destruct (avg <? 0) eqn:E1.
  - destruct (0 >? depth_max) eqn:E2; lia.
  - destruct (avg >? depth_max) eqn:E2; lia.
Qed.

Lemma randint_same_cave m L : same_cave L (snd (randint m L)).
Proof.
  unfold randint. pose proof (rand_int_same_cave m L) as H.
  destruct (rand_int m L). exact H.
Qed.

Lemma plasma_ok_refl x1 y1 x2 y2 dm L : plasma_ok x1 y1 x2 y2 dm L L.
Proof. split; [reflexivity|]. intros y x. left. reflexivity. Qed.

Lemma plasma_ok_trans x1 y1 x2 y2 a1 b1 a2 b2 dm L L1 L2 :
  x1 <= a1 -> a2 <= x2 -> y1 <= b1 -> b2 <= y2 ->
  plasma_ok x1 y1 x2 y2 dm L L1 ->
  plasma_ok a1 b1 a2 b2 dm L1 L2 ->
  plasma_ok x1 y1 x2 y2 dm L L2.
Proof.
  intros Ha1 Ha2 Hb1 Hb2 [I1 K1] [I2 K2]. split; [congruence|].
  intros y x. destruct (K2 y x) as [E|E].
  - rewrite E. apply K1.
  - right. lia.
Qed.

Lemma perturb_point_mid_ok h1 h2 h3 h4 xmid ymid rough dm L :
  0 <= dm ->
  plasma_ok xmid ymid xmid ymid dm L
    (perturb_point_mid h1 h2 h3 h4 xmid ymid rough dm L).
Proof.
  intros Hd. unfold perturb_point_mid. cbv zeta.
  pose proof (randint_same_cave (rough * 2 + 1) L) as S1.
  destruct (randint (rough * 2 + 1) L) as [r L1]. cbn [snd] in S1.
  destruct S1 as (a1 & a2 & _).
  split; [exact a2|].
  intros y x. rewrite put_feat_at, a1.
  destruct ((y =? ymid) && (x =? xmid)) eqn:E; [|left; reflexivity].
  right. pose proof (normalize_range dm
    (if Z.rem (h1 + h2 + h3 + h4) 4 >? 1
     then Z.quot (h1 + h2 + h3 + h4) 4 + (r - (rough + 1)) + 1
     else Z.quot (h1 + h2 + h3 + h4) 4 + (r - (rough + 1))) Hd).
  lia.
Qed.

Lemma perturb_point_end_ok h1 h2 h3 xmid ymid rough dm L :
  0 <= dm ->
  plasma_ok xmid ymid xmid ymid dm L
    (perturb_point_end h1 h2 h3 xmid ymid rough dm L).
Proof.
  intros Hd. unfold perturb_point_end. cbv zeta.
  pose proof (randint_same_cave (rough * 2 + 1) L) as S1.
  destruct (randint (rough * 2 + 1) L) as [r L1]. cbn [snd] in S1.
  destruct S1 as (a1 & a2 & _).
  split; [exact a2|].
  intros y x. rewrite put_feat_at, a1.
  destruct ((y =? ymid) && (x =? xmid)) eqn:E; [|left; reflexivity].
  right. pose proof (normalize_range dm
    (if negb (Z.rem (h1 + h2 + h3) 3 =? 0)
     then Z.quot (h1 + h2 + h3) 3 + (r - (rough + 1)) + 1
     else Z.quot (h1 + h2 + h3) 3 + (r - (rough + 1))) Hd).
  lia.
Qed.

Lemma half_between a b :
  a + 1 < b -> a < Z.quot (b - a) 2 + a < b.
Proof.
  intros H. rewrite Z.quot_div_nonneg by lia.
  pose proof (Z.div_mod (b - a) 2 ltac:(lia)).
  pose proof (Z.mod_pos_bound (b - a) 2 ltac:(lia)). lia.
Qed.

Lemma half_within a b :
  a <= b -> a <= Z.quot (b - a) 2 + a <= b.
Proof.
  intros H. rewrite Z.quot_div_nonneg by lia.
  pose proof (Z.div_mod (b - a) 2 ltac:(lia)).
  pose proof (Z.mod_pos_bound (b - a) 2 ltac:(lia)). lia.
Qed.

Lemma plasma_recursive_ok fuel x1 y1 x2 y2 dm rough L :
  0 <= dm -> x1 < x2 -> y1 <= y2 -> x2 - x1 <= Z.of_nat fuel ->
  exists L',
    plasma_recursive fuel x1 y1 x2 y2 dm rough L = Some L' /\
    plasma_ok x1 y1 x2 y2 dm L L'.
Proof.
  intros Hd. revert x1 y1 x2 y2 L.
  induction fuel as [|fuel IH]; intros x1 y1 x2 y2 L Hx Hy Hf; [lia|].
  cbn [plasma_recursive]. cbv zeta.
  destruct (x1 + 1 =? x2) eqn:E.
  { exists L. split; [reflexivity|apply plasma_ok_refl]. }
  pose proof (half_between x1 x2 ltac:(lia)) as Hxm.
  pose proof (half_within y1 y2 Hy) as Hym.
  set (xmid := Z.quot (x2 - x1) 2 + x1) in *.
  set (ymid := Z.quot (y2 - y1) 2 + y1) in *.
  set (L1 := perturb_point_mid _ _ _ _ xmid ymid rough dm L).
  set (L2 := perturb_point_end _ _ _ xmid y1 rough dm L1).
  set (L3 := perturb_point_end _ _ _ x2 ymid rough dm L2).
  set (L4 := perturb_point_end _ _ _ xmid y2 rough dm L3).
  set (L5 := perturb_point_end _ _ _ x1 ymid rough dm L4).
  assert (O1 : plasma_ok x1 y1 x2 y2 dm L L1).
  { eapply (plasma_ok_trans x1 y1 x2 y2 xmid ymid xmid ymid);
      [lia|lia|lia|lia|apply plasma_ok_refl|].
    apply perturb_point_mid_ok; assumption. }
  assert (O2 : plasma_ok x1 y1 x2 y2 dm L L2).
  { eapply (plasma_ok_trans x1 y1 x2 y2 xmid y1 xmid y1);
      [lia|lia|lia|lia|exact O1|].
    apply perturb_point_end_ok; assumption. }
  assert (O3 : plasma_ok x1 y1 x2 y2 dm L L3).
  { eapply (plasma_ok_trans x1 y1 x2 y2 x2 ymid x2 ymid);
      [lia|lia|lia|lia|exact O2|].
    apply perturb_point_end_ok; assumption. }
  assert (O4 : plasma_ok x1 y1 x2 y2 dm L L4).
  { eapply (plasma_ok_trans x1 y1 x2 y2 xmid y2 xmid y2);
      [lia|lia|lia|lia|exact O3|].
    apply perturb_point_end_ok; assumption. }
  assert (O5 : plasma_ok x1 y1 x2 y2 dm L L5).
  { eapply (plasma_ok_trans x1 y1 x2 y2 x1 ymid x1 ymid);
      [lia|lia|lia|lia|exact O4|].
    apply perturb_point_end_ok; assumption. }
  destruct (IH x1 y1 xmid ymid L5 ltac:(lia) ltac:(lia) ltac:(lia))
    as (L6 & E6 & O6).
  rewrite E6.
  destruct (IH xmid y1 x2 ymid L6 ltac:(lia) ltac:(lia) ltac:(lia))
    as (L7 & E7 & O7).
  rewrite E7.
  destruct (IH x1 ymid xmid y2 L7 ltac:(lia) ltac:(lia) ltac:(lia))
    as (L8 & E8 & O8).
  rewrite E8.
  destruct (IH xmid ymid x2 y2 L8 ltac:(lia) ltac:(lia) ltac:(lia))
    as (L9 & E9 & O9).
  exists L9. split; [exact E9|].
  eapply (plasma_ok_trans x1 y1 x2 y2 xmid ymid x2 y2);
    [lia|lia|lia|lia| |exact O9].
  eapply (plasma_ok_trans x1 y1 x2 y2 x1 ymid xmid y2);
    [lia|lia|lia|lia| |exact O8].
  eapply (plasma_ok_trans x1 y1 x2 y2 xmid y1 x2 ymid);
    [lia|lia|lia|lia| |exact O7].
  eapply (plasma_ok_trans x1 y1 x2 y2 x1 y1 xmid ymid);
    [lia|lia|lia|lia|exact O5|exact O6].
Qed.

Lemma plasma_recursive_stuck fuel x1 y1 x2 y2 dm rough L :
  x2 <= x1 -> plasma_recursive fuel x1 y1 x2 y2 dm rough L = None.
Proof.
  revert x1 y1 x2 y2 L.
  induction fuel as [|fuel IH]; intros x1 y1 x2 y2 L Hx; [reflexivity|].
  cbn [plasma_recursive]. cbv zeta.
  replace (x1 + 1 =? x2) with false by lia.
  rewrite IH; [reflexivity|].
  pose proof (Z.quot_opp_l (x1 - x2) 2 ltac:(lia)) as Q.
  replace (- (x1 - x2)) with (x2 - x1) in Q by lia.
  pose proof (Z.quot_pos (x1 - x2) 2 ltac:(lia) ltac:(lia)). lia.
Qed.

(** X26. [plasma_recursive] on a rectangle with [x1 < x2] and
    [y1 <= y2], for a [depth_max] that fits the bytes of [cave_feat]:
    the recursion ends (a depth of [x2 - x1] is enough), writes inside
    the rectangle only, and every grid it has written holds a height
    between 0 and [depth_max]; the flags of the cave are left alone.
    With [x2 <= x1] the test [x1 + 1 == x2] is never met and the
    recursion does not end. *)
Theorem plasma_recursive_range fuel x1 y1 x2 y2 depth_max rough L :
  0 <= depth_max <= 255 -> y1 <= y2 ->
  (x1 < x2 -> x2 - x1 <= Z.of_nat fuel ->
   exists L',
     plasma_recursive fuel x1 y1 x2 y2 depth_max rough L = Some L' /\
     cave_info L' = cave_info L /\
     forall y x,
       cave_feat L' y x = cave_feat L y x \/
       (x1 <= x <= x2 /\ y1 <= y <= y2 /\
        0 <= cave_feat L' y x <= depth_max)) /\
  (x2 <= x1 ->
   plasma_recursive fuel x1 y1 x2 y2 depth_max rough L = None).
Proof.
  intros [Hd _] Hy. split.
  - intros Hx Hf.
    destruct (plasma_recursive_ok fuel x1 y1 x2 y2 depth_max rough L
                Hd Hx Hy Hf) as (L' & E & I & K).
    exists L'. split; [exact E|]. split; assumption.
  - apply plasma_recursive_stuck.
Qed.

End Plasma_facts.

(** ** The terrain tables *)

Section Terrain_table_facts.
Context {D : Defines}.
Variable FEAT_DEEP_WATER : Z.
Variable FEAT_SHAL_WATER : Z.
Variable FEAT_MUD : Z.
Variable FEAT_SWAMP : Z.
Variable FEAT_GRASS : Z.
Variable FEAT_ROCKY_HILL : Z.
Variable FEAT_MOUNTAIN : Z.

Local Abbreviation tt :=
  (terrain_table FEAT_DEEP_WATER FEAT_SHAL_WATER FEAT_MUD FEAT_SWAMP
     FEAT_GRASS FEAT_ROCKY_HILL FEAT_MOUNTAIN).
Local Abbreviation tb :=
  (table_backwards FEAT_DEEP_WATER FEAT_SHAL_WATER FEAT_MUD FEAT_SWAMP
     FEAT_GRASS FEAT_ROCKY_HILL FEAT_MOUNTAIN).

Lemma table_backwards_codes :
  terrain_codes_distinct FEAT_DEEP_WATER FEAT_SHAL_WATER FEAT_MUD FEAT_SWAMP
    FEAT_GRASS FEAT_ROCKY_HILL FEAT_MOUNTAIN ->
  (FEAT_DEEP_WATER <> FEAT_SHAL_WATER /\ FEAT_DEEP_WATER <> FEAT_MUD /\
   FEAT_DEEP_WATER <> FEAT_SWAMP /\ FEAT_DEEP_WATER <> FEAT_GRASS /\
   FEAT_DEEP_WATER <> FEAT_SHRUB /\ FEAT_DEEP_WATER <> FEAT_TREES /\
   FEAT_DEEP_WATER <> FEAT_ROCKY_HILL /\ FEAT_DEEP_WATER <> FEAT_MOUNTAIN) /\
  (FEAT_SHAL_WATER <> FEAT_MUD /\ FEAT_SHAL_WATER <> FEAT_SWAMP /\
   FEAT_SHAL_WATER <> FEAT_GRASS /\ FEAT_SHAL_WATER <> FEAT_SHRUB /\
   FEAT_SHAL_WATER <> FEAT_TREES /\ FEAT_SHAL_WATER <> FEAT_ROCKY_HILL /\
   FEAT_SHAL_WATER <> FEAT_MOUNTAIN) /\
  (FEAT_MUD <> FEAT_SWAMP /\ FEAT_MUD <> FEAT_GRASS /\
   FEAT_MUD <> FEAT_SHRUB /\ FEAT_MUD <> FEAT_TREES /\
   FEAT_MUD <> FEAT_ROCKY_HILL /\ FEAT_MUD <> FEAT_MOUNTAIN) /\
  (FEAT_SWAMP <> FEAT_GRASS /\ FEAT_SWAMP <> FEAT_SHRUB /\
   FEAT_SWAMP <> FEAT_TREES /\ FEAT_SWAMP <> FEAT_ROCKY_HILL /\
   FEAT_SWAMP <> FEAT_MOUNTAIN) /\
  (FEAT_GRASS <> FEAT_SHRUB /\ FEAT_GRASS <> FEAT_TREES /\
   FEAT_GRASS <> FEAT_ROCKY_HILL /\ FEAT_GRASS <> FEAT_MOUNTAIN) /\
  (FEAT_SHRUB <> FEAT_TREES /\ FEAT_SHRUB <> FEAT_ROCKY_HILL /\
   FEAT_SHRUB <> FEAT_MOUNTAIN) /\
  (FEAT_TREES <> FEAT_ROCKY_HILL /\ FEAT_TREES <> FEAT_MOUNTAIN) /\
  FEAT_ROCKY_HILL <> FEAT_MOUNTAIN.
Proof.
  unfold terrain_codes_distinct. intros H.
  repeat match goal with
         | H : NoDup (_ :: _) |- _ =>
             let A := fresh "A" in
             apply NoDup_cons_iff in H; destruct H as [A H];
             cbn [In] in A
         end.
  repeat split; intros e; rewrite e in *; tauto.
Qed.

Lemma table_backwards_values :
  terrain_codes_distinct FEAT_DEEP_WATER FEAT_SHAL_WATER FEAT_MUD FEAT_SWAMP
    FEAT_GRASS FEAT_ROCKY_HILL FEAT_MOUNTAIN ->
  (tb FEAT_DEEP_WATER 0 = 0 /\ tb FEAT_SHAL_WATER 0 = 4 /\
   tb FEAT_MUD 0 = 9 /\ tb FEAT_SWAMP 0 = 11 /\ tb FEAT_GRASS 0 = 13 /\
   tb FEAT_SHRUB 0 = 16 /\ tb FEAT_TREES 0 = 18 /\
   tb FEAT_ROCKY_HILL 0 = 20 /\ tb FEAT_MOUNTAIN 0 = 21) /\
  (tb FEAT_DEEP_WATER 1 = 0 /\ tb FEAT_SHAL_WATER 1 = 9 /\
   tb FEAT_MUD 1 = 13 /\ tb FEAT_SWAMP 1 = 16 /\ tb FEAT_GRASS 1 = 19 /\
   tb FEAT_SHRUB 1 = 21).
Proof.
  intros H. apply table_backwards_codes in H.
  destruct H as ((? & ? & ? & ? & ? & ? & ? & ?) &
                 (? & ? & ? & ? & ? & ? & ?) & (? & ? & ? & ? & ? & ?) &
                 (? & ? & ? & ? & ?) & (? & ? & ? & ?) & (? & ? & ?) &
                 (? & ?) & ?).
  unfold table_backwards. cbn [Z.eqb].
  repeat split;
    repeat match goal with
           | |- context [?a =? ?b] =>
               destruct (Z.eqb_spec a b); [try reflexivity; congruence|]
           end; congruence.
Qed.

(** X27. [table_backwards] is "the opposite procedure" of
    [terrain_table]: for each of the two tables and each of its 22
    entries, the index that [table_backwards] gives for the feature of
    the entry is the first index of the table that holds this feature;
    in particular looking the feature up again gives it back. *)
Theorem table_backwards_round_trip type i :
  terrain_codes_distinct FEAT_DEEP_WATER FEAT_SHAL_WATER FEAT_MUD FEAT_SWAMP
    FEAT_GRASS FEAT_ROCKY_HILL FEAT_MOUNTAIN ->
  type = 0 \/ type = 1 -> 0 <= i < 22 ->
  tt type (tb (tt type i) type) = tt type i /\
  0 <= tb (tt type i) type <= i /\
  forall j, 0 <= j < tb (tt type i) type -> tt type j <> tt type i.
Proof.
  intros Hnd Ht Hi.
  destruct (table_backwards_values Hnd)
    as ((T1 & T2 & T3 & T4 & T5 & T6 & T7 & T8 & T9) &
        (U1 & U2 & U3 & U4 & U5 & U6)).
  assert (Hcases : i = 0 \/ i = 1 \/ i = 2 \/ i = 3 \/ i = 4 \/ i = 5 \/
                   i = 6 \/ i = 7 \/ i = 8 \/ i = 9 \/ i = 10 \/ i = 11 \/
                   i = 12 \/ i = 13 \/ i = 14 \/ i = 15 \/ i = 16 \/
                   i = 17 \/ i = 18 \/ i = 19 \/ i = 20 \/ i = 21) by lia.
  clear Hi.
  assert (Hbelow : forall j, 0 <= j < 22 ->
            j = 0 \/ j = 1 \/ j = 2 \/ j = 3 \/ j = 4 \/ j = 5 \/
            j = 6 \/ j = 7 \/ j = 8 \/ j = 9 \/ j = 10 \/ j = 11 \/
            j = 12 \/ j = 13 \/ j = 14 \/ j = 15 \/ j = 16 \/
            j = 17 \/ j = 18 \/ j = 19 \/ j = 20 \/ j = 21) by (intros; lia).
  destruct Ht as [-> | ->];
    repeat (destruct Hcases as [-> | Hcases]); try subst i;
    match goal with
    | |- context [tb (tt ?t ?k) ?t] =>
        let c := eval cbv [terrain_table nth Z.to_nat Pos.to_nat
                              Pos.iter_op Nat.add Z.eqb] in (tt t k) in
        change (tt t k) with c
    end;
    rewrite ?T1, ?T2, ?T3, ?T4, ?T5, ?T6, ?T7, ?T8, ?T9,
            ?U1, ?U2, ?U3, ?U4, ?U5, ?U6;
    (split; [reflexivity|]); (split; [lia|]);
    intros j Hj;
    assert (Hj' : 0 <= j < 22) by lia;
    (destruct (Hbelow j Hj') as
       [-> | [-> | [-> | [-> | [-> | [-> | [-> | [-> | [-> | [-> | [-> |
        [-> | [-> | [-> | [-> | [-> | [-> | [-> | [-> | [-> | [-> | ->
        ]]]]]]]]]]]]]]]]]]]]]);
    try lia;
    match goal with
    | |- tt ?t ?k <> _ =>
        let c := eval cbv [terrain_table nth Z.to_nat Pos.to_nat
                              Pos.iter_op Nat.add Z.eqb] in (tt t k) in
        change (tt t k) with c
    end;
    apply table_backwards_codes in Hnd;
    destruct Hnd as ((? & ? & ? & ? & ? & ? & ? & ?) &
                     (? & ? & ? & ? & ? & ? & ?) & (? & ? & ? & ? & ? & ?) &
                     (? & ? & ? & ? & ?) & (? & ? & ? & ?) & (? & ? & ?) &
                     (? & ?) & ?);
    congruence.
Qed.

End Terrain_table_facts.

Section Passes_witnesses.
#[local] Existing Instance sample_defines.
#[local] Existing Instance sample_zrand.


Lemma sample_build_streamer :
  exists L',
    build_streamer (fun _ => 6) (fun _ => 0) (fun _ => 1) 5 50 90 8
      (sample_level 1) = Some L'.
Proof.
  assert (H : match build_streamer (fun _ => 6) (fun _ => 0) (fun _ => 1)
                      5 50 90 8 (sample_level 1) with
              | Some _ => true | None => false end = true)
    by (vm_compute; reflexivity).
  destruct (build_streamer _ _ _ 5 50 90 8 (sample_level 1)) as [L'|];
    [|discriminate H].
  exists L'. reflexivity.
Qed.

Lemma build_streamer_granite_only_witness :
  exists L',
    build_streamer (fun _ => 6) (fun _ => 0) (fun _ => 1) 5 50 90 8
      (sample_level 1) = Some L' /\
    cave_feat L' 0 7 = cave_feat (sample_level 1) 0 7.
Proof.
  destruct sample_build_streamer as (L' & H). exists L'.
  split; [exact H|].
  apply (proj1 (build_streamer_granite_only _ _ _ 5 50 90 8 (sample_level 1)
                  L' H)).
  right. vm_compute. reflexivity.
Defined.

Lemma plasma_recursive_range_witness :
  exists L',
    plasma_recursive 4 1 1 5 3 21 1 (sample_level 1) = Some L' /\
    cave_info L' = cave_info (sample_level 1).
Proof.
  destruct (proj1 (plasma_recursive_range 4 1 1 5 3 21 1 (sample_level 1)
                     ltac:(lia) ltac:(lia)) ltac:(lia) ltac:(cbn; lia))
    as (L' & E & I & _).
  exists L'. split; assumption.
Defined.

Lemma table_backwards_round_trip_witness :
  terrain_table 80 81 82 83 84 85 86 0
    (table_backwards 80 81 82 83 84 85 86
       (terrain_table 80 81 82 83 84 85 86 0 15) 0) =
  terrain_table 80 81 82 83 84 85 86 0 15.
Proof.
  refine (proj1 (table_backwards_round_trip (D := sample_defines)
            80 81 82 83 84 85 86 0 15 _ (or_introl eq_refl) ltac:(lia))).
  unfold terrain_codes_distinct.
  repeat (apply NoDup_cons; [cbn; intuition discriminate|]).
  apply NoDup_nil.
Defined.

End Passes_witnesses.

(** ** Doors *)

Section Door_facts.
Context {D : Defines} {R : ZRand}.

(** X28. [place_random_door] leaves a door on the grid and touches
    nothing else: the feature of the grid becomes FEAT_OPEN, FEAT_BROKEN,
    FEAT_SECRET or one of the sixteen codes FEAT_DOOR_HEAD + 0..15 (a
    locked door never gets the code of the plain closed door), every
    other grid keeps its feature and no flag changes. *)
Theorem place_random_door_kinds y x L :
  zrand_ok ->
  let L' := place_random_door y x L in
  (cave_feat L' y x = FEAT_OPEN \/ cave_feat L' y x = FEAT_BROKEN \/
   cave_feat L' y x = FEAT_SECRET \/
   exists k, 0 <= k <= 15 /\ cave_feat L' y x = FEAT_DOOR_HEAD + k) /\
  (forall y' x', y' <> y \/ x' <> x ->
     cave_feat L' y' x' = cave_feat L y' x') /\
  cave_info L' = cave_info L.
Proof.
  intros Hok L'. subst L'. split; [|split].
  - unfold place_random_door.
    destruct (rand_int 1000 L) as [tmp L1].
    assert (Hat : forall M v, cave_feat (put_feat M y x v) y x = v).
    { intros M v. rewrite put_feat_at, !Z.eqb_refl. reflexivity. }
    destruct (tmp <? 300); [left; apply Hat|].
    destruct (tmp <? 400); [right; left; apply Hat|].
    destruct (tmp <? 600); [right; right; left; apply Hat|].
    right; right; right.
    destruct (tmp <? 900); [exists 0; split; [lia|apply Hat]|].
    destruct (tmp <? 999).
    + unfold randint.
      pose proof (rand_int_range 7 L1 Hok ltac:(lia)) as Hr.
      destruct (rand_int 7 L1) as [r L2]. cbn [fst] in Hr.
      exists (r + 1). split; [lia|apply Hat].
    + pose proof (rand_int_range 8 L1 Hok ltac:(lia)) as Hr.
      destruct (rand_int 8 L1) as [r L2]. cbn [fst] in Hr.
      exists (8 + r). split; [lia|]. rewrite Hat. lia.
  - intros y' x' Hne. apply place_random_door_frame. assumption.
  - unfold place_random_door.
    pose proof (rand_int_same_cave 1000 L) as S1.
    destruct (rand_int 1000 L) as [tmp L1]. cbn [snd] in S1.
    destruct S1 as (_ & I1 & _).
    assert (Hput : forall M v, cave_info (put_feat M y x v) = cave_info M)
      by reflexivity.
    destruct (tmp <? 300); [rewrite Hput; exact I1|].
    destruct (tmp <? 400); [rewrite Hput; exact I1|].
    destruct (tmp <? 600); [rewrite Hput; exact I1|].
    destruct (tmp <? 900); [rewrite Hput; exact I1|].
    destruct (tmp <? 999).
    + unfold randint. pose proof (rand_int_same_cave 7 L1) as S2.
      destruct (rand_int 7 L1) as [r L2]. cbn [snd] in S2.
      destruct S2 as (_ & I2 & _). rewrite Hput. congruence.
    + pose proof (rand_int_same_cave 8 L1) as S2.
      destruct (rand_int 8 L1) as [r L2]. cbn [snd] in S2.
      destruct S2 as (_ & I2 & _). rewrite Hput. congruence.
Qed.

End Door_facts.

(** ** The blocks of the rooms *)

Section Room_facts.
Context {D : Defines} {R : ZRand}.
Variable BLOCK_HGT : Z.
Variable BLOCK_WID : Z.
Variable build_room : Z -> Z -> Z -> level -> level.

Lemma reserve_row_spec y0 xs m y x :
  fold_left (fun m2 x' => gset m2 y0 x' true) xs m y x =
  if (y =? y0) && existsb (Z.eqb x) xs then true else m y x.
Proof.
  revert m. induction xs as [|a xs IH]; intros m; cbn [fold_left existsb].
  - rewrite andb_false_r. reflexivity.
  - rewrite IH. unfold gset.
    destruct (y =? y0); cbn [andb]; [|reflexivity].
    destruct (existsb (Z.eqb x) xs); [rewrite orb_true_r; reflexivity|].
    rewrite orb_false_r. reflexivity.
Qed.

Lemma reserve_rows_spec ys xs m y x :
  fold_left (fun m1 y' => fold_left (fun m2 x' => gset m2 y' x' true) xs m1)
            ys m y x =
  if existsb (Z.eqb y) ys && existsb (Z.eqb x) xs then true else m y x.
Proof.
  revert m. induction ys as [|a ys IH]; intros m; cbn [fold_left existsb].
  - reflexivity.
  - rewrite IH, reserve_row_spec.
    destruct (y =? a); cbn [orb andb].
    + destruct (existsb (Z.eqb x) xs);
        [rewrite andb_true_r; destruct (existsb (Z.eqb y) ys); reflexivity|].
      rewrite andb_false_r. reflexivity.
    + reflexivity.
Qed.

Lemma existsb_eqb_zupto x lo hi :
  existsb (Z.eqb x) (zupto lo hi) = (lo <=? x) && (x <? hi).
Proof.
  apply eq_true_iff_eq. rewrite existsb_exists. split.
  - intros (a & Ha & E). apply zupto_In in Ha. lia.
  - intros H. exists x. split; [apply zupto_In; lia|lia].
Qed.

Lemma reserve_spec m y1 y2 x1 x2 y x :
  reserve m y1 y2 x1 x2 y x =
  if (y1 <=? y) && (y <=? y2) && ((x1 <=? x) && (x <=? x2)) then true
  else m y x.
Proof.
  unfold reserve. rewrite reserve_rows_spec, !existsb_eqb_zupto.
  replace (y <? y2 + 1) with (y <=? y2) by lia.
  replace (x <? x2 + 1) with (x <=? x2) by lia.
  reflexivity.
Qed.

Lemma blocks_used_false m y1 y2 x1 x2 :
  blocks_used m y1 y2 x1 x2 = false ->
  forall y x, y1 <= y <= y2 -> x1 <= x <= x2 -> m y x = false.
Proof.
  unfold blocks_used. intros H y x Hy Hx.
  destruct (m y x) eqn:E; [|reflexivity].
  assert (existsb (fun y => existsb (fun x => m y x) (zupto x1 (x2 + 1)))
                  (zupto y1 (y2 + 1)) = true); [|congruence].
  apply existsb_exists. exists y. split; [apply zupto_In; lia|].
  apply existsb_exists. exists x. split; [apply zupto_In; lia|assumption].
Qed.

Lemma room_sizes typ :
  buildable typ = true ->
  dy1 (room typ) <= 0 <= dy2 (room typ) /\
  dx1 (room typ) <= 0 <= dx2 (room typ).
Proof.
  unfold buildable. cbn [existsb]. intros H.
  assert (Hc : typ = 18 \/ typ = 17 \/ typ = 14 \/ typ = 13 \/ typ = 12 \/
               typ = 11 \/ typ = 10 \/ typ = 8 \/ typ = 7 \/ typ = 9 \/
               typ = 6 \/ typ = 5 \/ typ = 4 \/ typ = 3 \/ typ = 2 \/
               typ = 1) by lia.
  clear H.
  repeat (destruct Hc as [-> | Hc]); try subst typ;
    cbv -[Z.le]; lia.
Qed.

Lemma centre_in_blocks a1 a2 B :
  0 < B -> 0 <= a1 <= a2 ->
  a1 * B <= Z.quot ((a1 + a2 + 1) * B) 2 < (a2 + 1) * B.
Proof.
  intros HB Ha.
  assert (0 <= (a1 + a2 + 1) * B) by nia.
  rewrite Z.quot_div_nonneg by lia.
  pose proof (Z.div_mod ((a1 + a2 + 1) * B) 2 ltac:(lia)) as E.
  pose proof (Z.mod_pos_bound ((a1 + a2 + 1) * B) 2 ltac:(lia)) as M.
  split; nia.
Qed.

(** X29. [room_build] and the blocks, for a type of the table
    [room].  When it returns FALSE nothing has
    changed: no builder has run, and the centres, the blocks and the
    crowded flag are as they were.  When it returns TRUE the level is
    deep enough for the room, the rectangle of blocks of the room lies
    inside the block map and was entirely free, it is entirely reserved
    afterwards and no other block has changed, and the centre saved for
    the room lies inside the grids of this rectangle. *)
Theorem room_build_blocks y0 x0 typ L d b :
  0 < BLOCK_HGT -> 0 < BLOCK_WID -> 0 <= typ < 20 ->
  let y1 := y0 + dy1 (room typ) in
  let y2 := y0 + dy2 (room typ) in
  let x1 := x0 + dx1 (room typ) in
  let x2 := x0 + dx2 (room typ) in
  let cy := Z.quot ((y1 + y2 + 1) * BLOCK_HGT) 2 in
  let cx := Z.quot ((x1 + x2 + 1) * BLOCK_WID) 2 in
  let res := room_build BLOCK_HGT BLOCK_WID build_room y0 x0 typ (L, d, b) in
  (fst res = false -> snd res = (L, d, b)) /\
  (fst res = true ->
   r_level (room typ) <= depth L /\
   0 <= y1 <= y2 /\ y2 < row_rooms b /\
   0 <= x1 <= x2 /\ x2 < col_rooms b /\
   (forall y x, y1 <= y <= y2 -> x1 <= x <= x2 ->
      room_map b y x = false /\ room_map (snd (snd res)) y x = true) /\
   (forall y x, ~ (y1 <= y <= y2 /\ x1 <= x <= x2) ->
      room_map (snd (snd res)) y x = room_map b y x) /\
   cent (snd (fst (snd res))) = push CENT_MAX (cent d) cy cx /\
   y1 * BLOCK_HGT <= cy < (y2 + 1) * BLOCK_HGT /\
   x1 * BLOCK_WID <= cx < (x2 + 1) * BLOCK_WID /\
   fst (fst (snd res)) = build_room typ cy cx L).
Proof.
  intros HB HW _ y1 y2 x1 x2 cy cx res. subst res.
  unfold room_build. cbv zeta.
  fold y1 y2 x1 x2. fold cy cx.
  destruct (depth L <? r_level (room typ)) eqn:E1;
    [split; [reflexivity|discriminate]|].
  destruct (crowded b && ((typ =? 5) || (typ =? 6))) eqn:E2;
    [split; [reflexivity|discriminate]|].
  destruct ((y1 <? 0) || (y2 >=? row_rooms b)) eqn:E3;
    [split; [reflexivity|discriminate]|].
  destruct ((x1 <? 0) || (x2 >=? col_rooms b)) eqn:E4;
    [split; [reflexivity|discriminate]|].
  destruct (blocks_used (room_map b) y1 y2 x1 x2) eqn:E5;
    [split; [reflexivity|discriminate]|].
  destruct (buildable typ) eqn:E6; cbn [negb];
    [|split; [reflexivity|discriminate]].
  split; [discriminate|]. intros _. cbn [fst snd room_map cent with_cent].
  destruct (room_sizes typ E6) as [Sy Sx].
  assert (Hy : 0 <= y1 <= y2) by lia.
  assert (Hx : 0 <= x1 <= x2) by lia.
  split; [lia|]. split; [assumption|]. split; [lia|].
  split; [assumption|]. split; [lia|].
  split.
  { intros y x Ry Rx. split.
    - eapply blocks_used_false; eassumption.
    - rewrite reserve_spec.
      replace ((y1 <=? y) && (y <=? y2) && ((x1 <=? x) && (x <=? x2)))
        with true by lia.
      reflexivity. }
  split.
  { intros y x Hout. rewrite reserve_spec.
    replace ((y1 <=? y) && (y <=? y2) && ((x1 <=? x) && (x <=? x2)))
      with false by lia.
    reflexivity. }
  split; [reflexivity|].
  split; [apply centre_in_blocks; assumption|].
  split; [apply centre_in_blocks; assumption|reflexivity].
Qed.

End Room_facts.

(** ** The sector map *)

Section Sector_facts.
Context {D : Defines} {R : ZRand}.

Lemma fold_left_inv {A B : Type} (f : A -> B -> A)
    (I : list B -> A -> Prop) l a :
  I [] a ->
  (forall pre b a0, I pre a0 -> In b l -> I (pre ++ [b]) (f a0 b)) ->
  I l (fold_left f l a).
Proof.
  intros H0 Hstep.
  assert (G : forall l1 pre a0,
            (forall b, In b l1 -> In b l) -> I pre a0 ->
            I (pre ++ l1) (fold_left f l1 a0)).
  { induction l1 as [|b l1 IH]; intros pre a0 Hsub Hi; cbn [fold_left].
    - rewrite app_nil_r. exact Hi.
    - replace (pre ++ b :: l1) with ((pre ++ [b]) ++ l1)
        by (rewrite <- app_assoc; reflexivity).
      apply IH.
      + intros c Hc. apply Hsub. right. exact Hc.
      + apply Hstep; [exact Hi|]. apply Hsub. left. reflexivity. }
  exact (G l [] a (fun _ h => h) H0).
Qed.

Lemma zstep2_In hi y : In y (zstep2 hi) <-> 0 <= y < hi /\ Z.even y = true.
Proof. unfold zstep2. rewrite filter_In, zupto_In. tauto. Qed.

Lemma even_rem y : 0 <= y -> (Z.even y = true <-> Z.rem y 2 = 0).
Proof.
  intros Hy. rewrite Z.rem_mod_nonneg by lia.
  rewrite Zeven_bool_iff, Zeven_ex_iff. split.
  - intros [k ->]. rewrite Z.mul_comm. apply Z.mod_mul. lia.
  - intros H. exists (y / 2).
    pose proof (Z.div_mod y 2 ltac:(lia)). lia.
Qed.

Lemma corner_facts y :
  0 <= y ->
  0 <= Z.rem y 2 <= 1 /\ Z.even (y - Z.rem y 2) = true /\
  exists k, y - Z.rem y 2 = 2 * k.
Proof.
  intros Hy.
  pose proof (Z.div_mod y 2 ltac:(lia)) as Hd.
  pose proof (Z.mod_pos_bound y 2 ltac:(lia)) as Hm.
  assert (Hq : 0 <= y / 2) by (apply Z.div_pos; lia).
  rewrite (Z.rem_mod_nonneg y 2) by lia.
  assert (E : Z.rem (y - y mod 2) 2 = 0).
  { rewrite Z.rem_mod_nonneg by lia.
    replace (y - y mod 2) with (y / 2 * 2) by lia.
    apply Z.mod_mul. lia. }
  split; [lia|]. split; [|exists (y / 2); lia].
  apply even_rem; [lia|exact E].
Qed.

Lemma assign_block_in {A : Type} rr cc y0 x0 (v : A) g y x :
  y < rr -> x < cc -> y = y0 \/ y = y0 + 1 -> x = x0 \/ x = x0 + 1 ->
  assign_block rr cc y0 x0 v g y x = v.
Proof.
  intros Hy Hx Cy Cx. unfold assign_block, gset.
  destruct (y0 + 1 <? rr) eqn:E1; destruct (x0 + 1 <? cc) eqn:E2;
    cbn [andb];
    repeat match goal with
           | |- context [if ?c then _ else _] =>
               let E := fresh "E" in destruct c eqn:E
           end; try reflexivity; lia.
Qed.

Lemma assign_block_out {A : Type} rr cc y0 x0 (v : A) g y x :
  ~ ((y = y0 \/ y = y0 + 1) /\ (x = x0 \/ x = x0 + 1)) ->
  assign_block rr cc y0 x0 v g y x = g y x.
Proof.
  intros Hout. unfold assign_block, gset.
  destruct (y0 + 1 <? rr) eqn:E1; destruct (x0 + 1 <? cc) eqn:E2;
    cbn [andb];
    repeat match goal with
           | |- context [if ?c then _ else _] =>
               let E := fresh "E" in destruct c eqn:E
           end; try reflexivity; lia.
Qed.

Lemma sector_of_roll_deep dep roll :
  0 <= roll ->
  (20 <= dep -> sector_of_roll dep roll <> SECTOR_PLAZA) /\
  (40 <= dep -> sector_of_roll dep roll <> SECTOR_DARK).
Proof.
  intros Hr. unfold sector_of_roll. split; intros Hd.
  - assert (10 <= Z.quot dep 2) by (apply Z.quot_le_lower_bound; lia).
    repeat match goal with
           | |- context [if ?c then _ else _] =>
               let E := fresh "E" in destruct c eqn:E
           end; try discriminate; lia.
  - assert (20 <= Z.quot dep 2) by (apply Z.quot_le_lower_bound; lia).
    repeat match goal with
           | |- context [if ?c then _ else _] =>
               let E := fresh "E" in destruct c eqn:E
           end; try discriminate; lia.
Qed.

Lemma sectors_inv_weaken rr cc L0 (S1 S2 : Z -> Z -> Prop) st :
  (forall a b, S2 a b -> S1 a b) ->
  sectors_inv rr cc L0 S1 st -> sectors_inv rr cc L0 S2 st.
Proof.
  intros Himp [Hs Hc]. split; [exact Hs|].
  intros y x Hy Hx Hd. apply Hc; auto.
Qed.

Lemma sector_block_inv rr cc L0 (S : Z -> Z -> Prop) st y0 x0 :
  zrand_ok ->
  0 <= y0 -> Z.even y0 = true -> 0 <= x0 -> Z.even x0 = true ->
  sectors_inv rr cc L0 S st ->
  sectors_inv rr cc L0 (fun a b => S a b \/ (a = y0 /\ b = x0))
    (sector_block rr cc y0 st x0).
Proof.
  intros Hok Hy0 Ey0 Hx0 Ex0 [Hs Hc]. destruct st as [L cs].
  cbn [fst snd] in Hs, Hc. unfold sector_block.
  pose proof (rand_int_same_cave 100 L) as S1.
  pose proof (rand_int_range 100 L Hok ltac:(lia)) as Hr.
  destruct (rand_int 100 L) as [roll L1]. cbn [fst snd] in S1, Hr.
  pose proof (same_cave_trans _ _ _ Hs S1) as S01.
  split; [exact S01|]. cbn [fst snd].
  assert (Hdep : depth L1 = depth L0) by (apply S01).
  rewrite Hdep.
  apply Zeven_bool_iff, Zeven_ex_iff in Ey0. destruct Ey0 as [ky0 Ky0].
  apply Zeven_bool_iff, Zeven_ex_iff in Ex0. destruct Ex0 as [kx0 Kx0].
  intros y x Hy Hx Hd.
  destruct (corner_facts y ltac:(lia)) as (By & _ & ka & Ka).
  destruct (corner_facts x ltac:(lia)) as (Bx & _ & kb & Kb).
  remember (Z.rem y 2) as ry eqn:Hry. remember (Z.rem x 2) as rx eqn:Hrx.
  remember (y - ry) as a eqn:Ha. remember (x - rx) as b eqn:Hb.
  destruct (Z.eq_dec a y0) as [Ea|Na].
  - destruct (Z.eq_dec b x0) as [Eb|Nb].
    + rewrite (assign_block_in rr cc y0 x0 _ cs y x) by lia.
      rewrite (assign_block_in rr cc y0 x0 _ cs a b) by lia.
      split; [reflexivity|].
      apply sector_of_roll_deep. lia.
    + destruct Hd as [Hd|[_ Hd]]; [|contradiction].
      rewrite (assign_block_out rr cc y0 x0 _ cs y x) by lia.
      rewrite (assign_block_out rr cc y0 x0 _ cs a b) by lia.
      subst a b ry rx. apply Hc; assumption.
  - destruct Hd as [Hd|[Hd _]]; [|contradiction].
    rewrite (assign_block_out rr cc y0 x0 _ cs y x) by lia.
    rewrite (assign_block_out rr cc y0 x0 _ cs a b) by lia.
    subst a b ry rx. apply Hc; assumption.
Qed.

Lemma sector_row_inv rr cc L0 (S : Z -> Z -> Prop) st y0 :
  zrand_ok -> 0 <= y0 -> Z.even y0 = true ->
  sectors_inv rr cc L0 S st ->
  sectors_inv rr cc L0
    (fun a b => S a b \/ (a = y0 /\ In b (zstep2 cc)))
    (fold_left (sector_block rr cc y0) (zstep2 cc) st).
Proof.
  intros Hok Hy0 Ey0 Hinv.
  apply (fold_left_inv (sector_block rr cc y0)
           (fun pre st1 =>
              sectors_inv rr cc L0
                (fun a b => S a b \/ (a = y0 /\ In b pre)) st1)).
  - eapply sectors_inv_weaken; [|exact Hinv].
    intros a b [H|[_ []]]. exact H.
  - intros pre x0 st1 Hi Hin. apply zstep2_In in Hin.
    destruct Hin as [Hx0 Ex0].
    eapply sectors_inv_weaken;
      [|apply (sector_block_inv rr cc L0 _ st1 y0 x0 Hok Hy0 Ey0
                 ltac:(lia) Ex0 Hi)].
    cbv beta. intros a b [H|[Ha Hb]]; [left; left; exact H|].
    apply in_app_or in Hb. destruct Hb as [Hb|[Hb|[]]].
    + left. right. split; assumption.
    + right. split; [assumption|symmetry; assumption].
Qed.

(** X30. The sector map of [cave_gen] is made of 2x2 groups: after the
    loops "Initialize Sector Map" every block of the map holds the
    sector of the even corner of its group.  The roll of a sector is
    first compared with half the depth, so from depth 20 on no block is
    a plaza and from depth 40 on no block is a dark sector either.  The
    loops draw random numbers and leave the cave alone. *)
Theorem init_sector_map_blocks rr cc L cs :
  zrand_ok ->
  let st := init_sector_map rr cc (L, cs) in
  same_cave L (fst st) /\
  forall y x, 0 <= y < rr -> 0 <= x < cc ->
    snd st y x = snd st (y - Z.rem y 2) (x - Z.rem x 2) /\
    (20 <= depth L -> snd st y x <> SECTOR_PLAZA) /\
    (40 <= depth L -> snd st y x <> SECTOR_DARK).
Proof.
  intros Hok st. subst st. unfold init_sector_map.
  assert (Hinv : sectors_inv rr cc L
                   (fun a b => In a (zstep2 rr) /\ In b (zstep2 cc))
                   (fold_left
                      (fun st1 y =>
                         fold_left (sector_block rr cc y) (zstep2 cc) st1)
                      (zstep2 rr) (L, cs))).
  { apply (fold_left_inv
             (fun st1 y => fold_left (sector_block rr cc y) (zstep2 cc) st1)
             (fun pre st1 =>
                sectors_inv rr cc L
                  (fun a b => In a pre /\ In b (zstep2 cc)) st1)).
    - split; [apply same_cave_refl|]. intros y x _ _ [[] _].
    - intros pre y0 st1 Hi Hin. apply zstep2_In in Hin.
      destruct Hin as [Hy0 Ey0].
      eapply sectors_inv_weaken;
        [|apply (sector_row_inv rr cc L _ st1 y0 Hok ltac:(lia) Ey0 Hi)].
      cbv beta. intros a b [Ha Hb].
      apply in_app_or in Ha. destruct Ha as [Ha|[Ha|[]]].
      + left. split; assumption.
      + right. split; [symmetry; assumption|assumption]. }
  destruct Hinv as [Hs Hc]. split; [exact Hs|].
  intros y x Hy Hx. apply Hc; [assumption|assumption|].
  destruct (corner_facts y ltac:(lia)) as (By & Ey & ky & Ky).
  destruct (corner_facts x ltac:(lia)) as (Bx & Ex & kx & Kx).
  split; apply zstep2_In; (split; [lia|assumption]).
Qed.

End Sector_facts.

Section Rooms_witnesses.
#[local] Existing Instance sample_defines.
#[local] Existing Instance sample_zrand.

Lemma place_random_door_kinds_witness :
  cave_info (place_random_door 3 3 (sample_level 1)) =
  cave_info (sample_level 1).
Proof.
  exact (proj2 (proj2 (place_random_door_kinds (D := sample_defines)
                         (R := sample_zrand) 3 3 (sample_level 1)
                         sample_zrand_ok))).
Defined.

Lemma room_build_blocks_witness :
  fst (room_build 11 11 sample_builder 2 5 1
         (sample_level 1, empty_dun, sample_blocks)) = true /\
  room_map (snd (snd (room_build 11 11 sample_builder 2 5 1
                        (sample_level 1, empty_dun, sample_blocks)))) 2 6 =
  true.
Proof.
  assert (E : fst (room_build 11 11 sample_builder 2 5 1
                     (sample_level 1, empty_dun, sample_blocks)) = true)
    by reflexivity.
  split; [exact E|].
  pose proof (proj2 (room_build_blocks (R := sample_zrand) 11 11 sample_builder 2 5 1
                       (sample_level 1) empty_dun sample_blocks
                       ltac:(lia) ltac:(lia) ltac:(lia)) E) as H.
  cbv zeta in H.
  destruct H as (_ & _ & _ & _ & _ & H & _).
  apply (H 2 6); cbv -[Z.le]; lia.
Defined.

Lemma init_sector_map_blocks_witness :
  same_cave (sample_level 1)
    (fst (init_sector_map 6 18 (sample_level 1, fun _ _ => SECTOR_RUINS))).
Proof.
  exact (proj1 (init_sector_map_blocks (R := sample_zrand) 6 18 (sample_level 1)
                  (fun _ _ => SECTOR_RUINS) sample_zrand_ok)).
Defined.

End Rooms_witnesses.
